(** * WIN-Serial-2-CSV: serial line reassembly and online heart-rate DSP

    Shallow embedding of [main] of [WIN-Serial-2-CSV.c]: the byte loop that
    rebuilds the text lines "red,ir" from the serial chunks, the [sscanf]
    call that reads the two integers, the single-pole low-pass filter on the
    IR channel, the threshold/refractory peak detector, the heart-rate
    estimate, and the loop exit with its shutdown sequence; and of
    [setup_serial_port] with the start-up of [main], over the answers of the
    operating system to their calls.

    Conventions of the embedding:
    - [int] is a [Z] kept in the 32-bit two's-complement range by [wrap_int]
      wherever the C code computes on it (C leaves signed overflow undefined;
      the embedding takes the wrapped result, and the statements that depend
      on the counter bound the length of the run); [DWORD] is a [Z] in
      [0, 2^32);
    - [float] is IEEE-754 binary32, through the parameterised operations of
      [SpecFloat] at precision 24 and maximal exponent 128, every C operator
      being rounded to nearest-even on its own;
    - [char] is [ascii]; the line buffer is the 1024-cell array of the source,
      written by index, with the index kept next to it;
    - what the program prints or writes is an [event] appended to a trace. *)

From Stdlib Require Import ZArith Bool Ascii String Lia SpecFloat Reals Lra.
From stdpp Require Import list.

Local Open Scope Z_scope.

(** ** Machine integers *)

Definition INT_MAX : Z := 2147483647.
Definition INT_MIN : Z := -2147483648.
Definition DWORD_MOD : Z := 4294967296.

(** Two's-complement reading of an integer as an [int]; also the cast
    [(int)n_bytes] of a [DWORD]. *)
Definition wrap_int (z : Z) : Z := (z + 2147483648) mod DWORD_MOD - 2147483648.

(** ** binary32 arithmetic *)

Module F32.

Definition prec : Z := 24.
Definition emax : Z := 128.

Definition float : Type := spec_float.

Definition add : float -> float -> float := SFadd prec emax.
Definition sub : float -> float -> float := SFsub prec emax.
Definition mul : float -> float -> float := SFmul prec emax.
Definition div : float -> float -> float := SFdiv prec emax.

(** The C comparisons [<], [>] and [>=] on [float]; each is false as soon as
    one operand is a NaN. *)
Definition lt (x y : float) : bool :=
  match SFcompare x y with Some Lt => true | _ => false end.
Definition gt (x y : float) : bool :=
  match SFcompare x y with Some Gt => true | _ => false end.
Definition ge (x y : float) : bool :=
  match SFcompare x y with Some Gt | Some Eq => true | _ => false end.

(** [(float)n] for an [int] [n]. *)
Definition of_int (n : Z) : float := binary_normalize prec emax n 0 false.

(** [(int)x]: truncation toward zero (only applied by the program to a
    value close to 30). *)
Definition to_int (x : float) : Z :=
  match x with
  | S754_finite s m e =>
      let a := match e with
               | Zneg p => Zpos m / 2 ^ Zpos p
               | _ => Zpos m * 2 ^ e
               end in
      if s then - a else a
  | _ => 0
  end.

Definition zero : float := S754_zero false.

(** The least exponent of a binary32 number: [3 - emax - prec]. *)
Definition emin : Z := -149.

(** The real number denoted by a finite binary32 number: powers of two,
    mantissa times power, and the value itself (0 for what is not finite). *)
Definition bpow (e : Z) : R := powerRZ 2 e.

Definition F2R (m e : Z) : R := (IZR m * bpow e)%R.

Definition val (x : float) : R :=
  match x with
  | S754_finite s m e => F2R (if s then Zneg m else Zpos m) e
  | _ => 0%R
  end.

Definition is_finite (x : float) : bool :=
  match x with
  | S754_zero _ | S754_finite _ _ _ => true
  | _ => false
  end.

(** Finite, and in the canonical form that [SFcompare] relies on. *)
Definition wf (x : float) : bool := is_finite x && valid_binary prec emax x.

(** The result of [binary_round_aux] for a rounded mantissa [m2] at the
    exponent [e1]: zero, the number itself, or the next binade when the
    mantissa was rounded up to [2^24]. *)
Definition pack (s : bool) (m2 e1 : Z) : float :=
  if m2 =? 0 then S754_zero s
  else if m2 <? 2 ^ 24 then
    (if e1 <=? 104 then S754_finite s (Z.to_pos m2) e1 else S754_infinity s)
  else
    (if e1 + 1 <=? 104 then S754_finite s (Z.to_pos (2 ^ 23)) (e1 + 1)
     else S754_infinity s).

End F32.

Abbreviation float := F32.float.

(** ** Constants of [main] *)

Definition BUFFER_SIZE : nat := 1024.
Definition CHUNK_SIZE : nat := 256.

(** [100.0f] *)
Definition FS : float := S754_finite false 13107200 (-17).
(** [0.2f] *)
Definition alpha_filt : float := S754_finite false 13421773 (-26).
(** [0.3f] *)
Definition alpha_hr : float := S754_finite false 10066330 (-25).
(** [10.0f] *)
Definition peak_thr : float := S754_finite false 10485760 (-20).
(** [40.0f] *)
Definition min_hr_bpm : float := S754_finite false 10485760 (-18).
(** [200.0f] *)
Definition max_hr_bpm : float := S754_finite false 13107200 (-16).
(** [0.3f] *)
Definition refractory_s : float := S754_finite false 10066330 (-25).
(** [60.0f] *)
Definition sixty : float := S754_finite false 15728640 (-18).

(** [(int)(refractory_s * FS)] *)
Definition refractory_n : Z := F32.to_int (F32.mul refractory_s FS).

(** Initial value of [last_peak] and [prev_peak]. *)
Definition NO_PEAK : Z := -1000.

(** ** Characters and the C string in the line buffer *)

Definition NUL : ascii := "000"%char.
Definition LF : ascii := "010"%char.

Definition code (c : ascii) : Z := Z.of_N (N_of_ascii c).

(** The string a C library function reads from the start of an array: the
    cells before the first NUL. *)
Fixpoint c_str (mem : list ascii) : list ascii :=
  match mem with
  | [] => []
  | c :: mem' => if Ascii.eqb c NUL then [] else c :: c_str mem'
  end.

(** ** [sscanf(buffer, "%d,%d", &red_int, &ir_int)] *)

(** [isspace] in the C locale: space, and the controls 9 to 13. *)
Definition isspace (c : ascii) : bool :=
  (code c =? 32) || ((9 <=? code c) && (code c <=? 13)).

Definition isdigit (c : ascii) : bool := (48 <=? code c) && (code c <=? 57).

Fixpoint skip_space (s : list ascii) : list ascii :=
  match s with
  | c :: s' => if isspace c then skip_space s' else s
  | [] => []
  end.

(** The longest run of decimal digits at the head of [s], accumulated onto
    [acc], and the rest of the input. *)
Fixpoint scan_digits (acc : Z) (s : list ascii) : Z * list ascii :=
  match s with
  | c :: s' => if isdigit c then scan_digits (10 * acc + (code c - 48)) s'
               else (acc, s)
  | [] => (acc, [])
  end.

(** One [%d] directive: white space is skipped, an optional sign is read, and
    at least one digit must follow.  The value is stored into an [int]; C
    leaves the result undefined when the number does not fit, the embedding
    takes the wrapped value there, and what is stated about the value of a
    number read bounds it to the range of [int]. *)
Definition scan_d (s : list ascii) : option (Z * list ascii) :=
  let s1 := skip_space s in
  let '(neg, s2) :=
    match s1 with
    | c :: t => if Ascii.eqb c "-" then (true, t)
                else if Ascii.eqb c "+" then (false, t)
                else (false, s1)
    | [] => (false, s1)
    end in
  match s2 with
  | c :: _ =>
      if isdigit c then
        let '(v, rest) := scan_digits 0 s2 in
        Some (wrap_int (if neg then - v else v), rest)
      else None
  | [] => None
  end.

(** The whole call, on the current values of the two targets: the number of
    items assigned and the two targets afterwards.  A directive that fails
    ends the call and leaves the remaining targets as they were. *)
Definition sscanf_d_comma_d (s : list ascii) (red_int ir_int : Z) : Z * Z * Z :=
  match scan_d s with
  | None => (0, red_int, ir_int)
  | Some (r, rest) =>
      match rest with
      | c :: rest' =>
          if Ascii.eqb c "," then
            match scan_d rest' with
            | Some (i, _) => (2, r, i)
            | None => (1, r, ir_int)
            end
          else (1, r, ir_int)
      | [] => (1, r, ir_int)
      end
  end.

(** ** State of [main] *)

(** The DSP variables of [main]. *)
Record dsp : Type := Dsp {
  red_raw : float;
  ir_raw : float;
  ir_filt : float;
  hr_bpm : float;
  hr_bpm_filt : float;
  sample_idx : Z;
  last_peak : Z;
  prev_peak : Z;
  prev_ir_filt : float;
  proc_val : float
}.

(** The line buffer: [char buffer[BUFFER_SIZE]] and [int buffer_index].  The
    index stays within [0, BUFFER_SIZE - 1] (lemma [feed_bytes_wf]), so it is
    kept as a [nat]. *)
Record line_buf : Type := LineBuf {
  buffer : list ascii;
  buffer_index : nat
}.

Record state : Type := State {
  st_dsp : dsp;
  st_buf : line_buf
}.

(** What the program lets out.  [Peak_accepted] is a ghost mark, not an
    output: it records that the refractory test of line 149 was passed at
    that sample index. *)
Inductive event : Type :=
| Print_pair (red_int ir_int : Z)      (* printf("%d, %d\n", ...) *)
| Peak_accepted (idx : Z)
| Print_hr (v : float)                 (* printf("HR ... bpm\n", hr_bpm_filt) *)
| Csv_write (v : float)                (* fprintf(csvFile, "%f\n", proc_val); fflush *)
| Stderr_overflow                      (* fprintf(stderr, "Buffer overflow, ...") *)
| Print_read_error                     (* printf("Error reading from the serial port\n") *)
| Call_CloseHandle
| Call_fclose
| Print_closed.                        (* printf("Serial Port and CSV file closed.\n") *)

Definition init_dsp : dsp :=
  {| red_raw := F32.zero; ir_raw := F32.zero; ir_filt := F32.zero;
     hr_bpm := F32.zero; hr_bpm_filt := F32.zero;
     sample_idx := 0; last_peak := NO_PEAK; prev_peak := NO_PEAK;
     prev_ir_filt := F32.zero; proc_val := F32.zero |}.

(** [buffer] is not initialised by the program: its first contents [mem] are
    whatever the stack holds. *)
Definition init_state (mem : list ascii) : state :=
  {| st_dsp := init_dsp; st_buf := {| buffer := mem; buffer_index := 0 |} |}.

(** ** Processing of one line (lines 132-181) *)

(** Step 1: [ir_filt + alpha_filt * (ir_raw - ir_filt)]. *)
Definition low_pass (ir_filt ir_raw : float) : float :=
  F32.add ir_filt (F32.mul alpha_filt (F32.sub ir_raw ir_filt)).

(** [prev_ir_filt < peak_thr && ir_filt >= peak_thr] *)
Definition crossing (d : dsp) : bool :=
  F32.lt (prev_ir_filt d) peak_thr && F32.ge (ir_filt d) peak_thr.

(** [(sample_idx - last_peak) > refractory_n] *)
Definition outside_refractory (d : dsp) : bool :=
  refractory_n <? wrap_int (sample_idx d - last_peak d).

(** [delta_n / FS] *)
Definition period_sec (delta_n : Z) : float := F32.div (F32.of_int delta_n) FS.

(** [60.0f / period_sec] *)
Definition inst_hr (delta_n : Z) : float := F32.div sixty (period_sec delta_n).

(** [inst_hr > min_hr_bpm && inst_hr < max_hr_bpm] *)
Definition plausible (hr : float) : bool :=
  F32.gt hr min_hr_bpm && F32.lt hr max_hr_bpm.

(** [hr_bpm_filt + alpha_hr * (hr_bpm - hr_bpm_filt)] *)
Definition smooth_hr (hr_bpm_filt hr_bpm : float) : float :=
  F32.add hr_bpm_filt (F32.mul alpha_hr (F32.sub hr_bpm hr_bpm_filt)).

(** Lines 154-166, entered with the two peak indices already shifted. *)
Definition estimate_hr (d : dsp) : dsp * list event :=
  if 0 <=? prev_peak d then
    let delta_n := wrap_int (last_peak d - prev_peak d) in
    let hr := inst_hr delta_n in
    if plausible hr then
      let hr_bpm_filt' := smooth_hr (hr_bpm_filt d) hr in
      ({| red_raw := red_raw d; ir_raw := ir_raw d; ir_filt := ir_filt d;
          hr_bpm := hr; hr_bpm_filt := hr_bpm_filt';
          sample_idx := sample_idx d; last_peak := last_peak d;
          prev_peak := prev_peak d; prev_ir_filt := prev_ir_filt d;
          proc_val := proc_val d |},
       [Print_hr hr_bpm_filt'])
    else (d, [])
  else (d, []).

(** Step 2, lines 148-168: threshold crossing, refractory test, shift of the
    two peak indices, heart-rate estimate. *)
Definition detect_peak (d : dsp) : dsp * list event :=
  if crossing d then
    if outside_refractory d then
      let d1 :=
        {| red_raw := red_raw d; ir_raw := ir_raw d; ir_filt := ir_filt d;
           hr_bpm := hr_bpm d; hr_bpm_filt := hr_bpm_filt d;
           sample_idx := sample_idx d;
           last_peak := sample_idx d; prev_peak := last_peak d;
           prev_ir_filt := prev_ir_filt d; proc_val := proc_val d |} in
      let '(d2, ev) := estimate_hr d1 in
      (d2, Peak_accepted (sample_idx d) :: ev)
    else (d, [])
  else (d, []).

(** Lines 136-144: the two conversions and step 1, the low-pass filter. *)
Definition load_sample (d : dsp) (red_int ir_int : Z) : dsp :=
  {| red_raw := F32.of_int red_int; ir_raw := F32.of_int ir_int;
     ir_filt := low_pass (ir_filt d) (F32.of_int ir_int);
     hr_bpm := hr_bpm d; hr_bpm_filt := hr_bpm_filt d;
     sample_idx := sample_idx d; last_peak := last_peak d;
     prev_peak := prev_peak d; prev_ir_filt := prev_ir_filt d;
     proc_val := proc_val d |}.

(** Lines 169-181: [prev_ir_filt = ir_filt; proc_val = ir_filt; sample_idx++]. *)
Definition end_sample (d : dsp) : dsp :=
  {| red_raw := red_raw d; ir_raw := ir_raw d; ir_filt := ir_filt d;
     hr_bpm := hr_bpm d; hr_bpm_filt := hr_bpm_filt d;
     sample_idx := wrap_int (sample_idx d + 1);
     last_peak := last_peak d; prev_peak := prev_peak d;
     prev_ir_filt := ir_filt d; proc_val := ir_filt d |}.

(** Lines 136-181 for the two integers left in [red_int] and [ir_int]. *)
Definition process_sample (d : dsp) (red_int ir_int : Z) : dsp * list event :=
  let '(d2, ev) := detect_peak (load_sample d red_int ir_int) in
  (end_sample d2, Print_pair red_int ir_int :: ev ++ [Csv_write (ir_filt d2)]).

(** Lines 132-181 on the C string [line] found in [buffer]: both targets are
    set to 0, [sscanf] is called and its return value dropped. *)
Definition process_line (d : dsp) (line : list ascii) : dsp * list event :=
  let '(_, red_int, ir_int) := sscanf_d_comma_d line 0 0 in
  process_sample d red_int ir_int.

(** ** The line buffer (lines 127-131, 180, 183-191) *)

(** What one byte does to the buffer. *)
Inductive feed_result : Type :=
| Line (line : list ascii)   (* a newline closed the line, read as a C string *)
| Overflow                   (* the byte found the buffer full *)
| Pending.                   (* the byte was stored *)

Definition feed_byte (b : line_buf) (c : ascii) : line_buf * feed_result :=
  if Ascii.eqb c LF then
    let buffer' := <[buffer_index b := NUL]> (buffer b) in
    ({| buffer := buffer'; buffer_index := 0 |}, Line (c_str buffer'))
  else if (buffer_index b <? BUFFER_SIZE - 1)%nat then
    ({| buffer := <[buffer_index b := c]> (buffer b);
        buffer_index := S (buffer_index b) |}, Pending)
  else
    ({| buffer := buffer b; buffer_index := 0 |}, Overflow).

(** The buffer alone over a run of bytes, with what each byte did. *)
Fixpoint feed_bytes (b : line_buf) (cs : list ascii) : line_buf * list feed_result :=
  match cs with
  | [] => (b, [])
  | c :: cs' =>
      let '(b1, r) := feed_byte b c in
      let '(b2, rs) := feed_bytes b1 cs' in
      (b2, r :: rs)
  end.

(** The completed lines among the results. *)
Fixpoint lines_of (rs : list feed_result) : list (list ascii) :=
  match rs with
  | [] => []
  | Line l :: rs' => l :: lines_of rs'
  | _ :: rs' => lines_of rs'
  end.

Fixpoint overflows_of (rs : list feed_result) : nat :=
  match rs with
  | [] => 0%nat
  | Overflow :: rs' => S (overflows_of rs')
  | _ :: rs' => overflows_of rs'
  end.

(** ** The byte loop and the polling loop (lines 119-200) *)

(** Body of the [for] loop for the byte [c]. *)
Definition process_byte (s : state) (c : ascii) : state * list event :=
  let '(b', r) := feed_byte (st_buf s) c in
  match r with
  | Line line =>
      let '(d', ev) := process_line (st_dsp s) line in
      ({| st_dsp := d'; st_buf := b' |}, ev)
  | Overflow => ({| st_dsp := st_dsp s; st_buf := b' |}, [Stderr_overflow])
  | Pending => ({| st_dsp := st_dsp s; st_buf := b' |}, [])
  end.

Fixpoint process_bytes (s : state) (cs : list ascii) : state * list event :=
  match cs with
  | [] => (s, [])
  | c :: cs' =>
      let '(s1, ev1) := process_byte s c in
      let '(s2, ev2) := process_bytes s1 cs' in
      (s2, ev1 ++ ev2)
  end.

(** One call of [ReadFile]: the count it stores in the [DWORD n_bytes] and the
    contents of [chunk] afterwards.  The [BOOL] it returns is dropped by the
    program and is not part of the model. *)
Record poll : Type := Poll {
  n_bytes : Z;
  chunk : list ascii
}.

(** A poll that delivers the bytes [cs]. *)
Definition deliver (cs : list ascii) : poll :=
  {| n_bytes := Z.of_nat (length cs); chunk := cs |}.

(** One turn of [while (1)]: the new state, the trace, and whether [break]
    was reached.  The [for] loop reads [chunk[0 .. n_bytes-1]]; [ReadFile]
    never reports more than the [CHUNK_SIZE] cells it was given. *)
Definition loop_iter (s : state) (p : poll) : state * list event * bool :=
  if 0 <? n_bytes p then
    let '(s', ev) := process_bytes s (take (Z.to_nat (n_bytes p)) (chunk p)) in
    (s', ev, false)
  else if wrap_int (n_bytes p) <? 0 then
    (s, [Print_read_error], true)
  else (s, [], false).

(** Lines 202-206, given what [CloseHandle] and [fclose] would return: the
    calls made, and the value returned by [main]. *)
Definition shutdown (close_handle_ret fclose_ret : Z) : list event * Z :=
  let ev :=
    if close_handle_ret =? 0 then
      Call_CloseHandle :: Call_fclose ::
        (if fclose_ret =? 0 then [Print_closed] else [])
    else [Call_CloseHandle] in
  (ev, 0).

(** The loop over the successive polls.  [Some status] is the return value of
    [main] once the loop was left; [None] means the loop is still running
    after the last poll of the list. *)
Fixpoint main_loop (s : state) (ps : list poll) (close_handle_ret fclose_ret : Z)
  : state * list event * option Z :=
  match ps with
  | [] => (s, [], None)
  | p :: ps' =>
      let '(s1, ev1, brk) := loop_iter s p in
      if brk then
        let '(ev2, status) := shutdown close_handle_ret fclose_ret in
        (s1, ev1 ++ ev2, Some status)
      else
        let '(s2, ev2, st) := main_loop s1 ps' close_handle_ret fclose_ret in
        (s2, ev1 ++ ev2, st)
  end.

Definition chars (s : string) : list ascii := list_ascii_of_string s.

Definition csv_of (ev : list event) : list float :=
  omap (fun e => match e with Csv_write v => Some v | _ => None end) ev.

Definition peaks_of (ev : list event) : list Z :=
  omap (fun e => match e with Peak_accepted i => Some i | _ => None end) ev.

Global Arguments F32.add : simpl never.
Global Arguments F32.sub : simpl never.
Global Arguments F32.mul : simpl never.
Global Arguments F32.div : simpl never.
Global Arguments F32.lt : simpl never.
Global Arguments F32.gt : simpl never.
Global Arguments F32.ge : simpl never.
Global Arguments F32.of_int : simpl never.
Global Arguments low_pass : simpl never.
Global Arguments smooth_hr : simpl never.
Global Arguments period_sec : simpl never.
Global Arguments inst_hr : simpl never.
Global Arguments plausible : simpl never.
Global Arguments crossing : simpl never.
Global Arguments outside_refractory : simpl never.
Global Arguments wrap_int : simpl never.

(** ** Auxiliary definitions for the statements *)

(** The DSP side of a run, given what the buffer did byte after byte. *)
Fixpoint run_results (d : dsp) (rs : list feed_result) : dsp * list event :=
  match rs with
  | [] => (d, [])
  | r :: rs' =>
      let '(d1, ev1) :=
        match r with
        | Line line => process_line d line
        | Overflow => (d, [Stderr_overflow])
        | Pending => (d, [])
        end in
      let '(d2, ev2) := run_results d1 rs' in
      (d2, ev1 ++ ev2)
  end.

(** The buffer side of the polling loop. *)
Fixpoint feed_polls (b : line_buf) (ps : list poll) : line_buf * list feed_result :=
  match ps with
  | [] => (b, [])
  | p :: ps' =>
      let '(b1, rs1) :=
        if 0 <? n_bytes p
        then feed_bytes b (take (Z.to_nat (n_bytes p)) (chunk p))
        else (b, []) in
      let '(b2, rs2) := feed_polls b1 ps' in
      (b2, rs1 ++ rs2)
  end.

(** The line that a newline arriving now would hand to [sscanf]. *)
Definition current_line (b : line_buf) : list ascii :=
  c_str (<[buffer_index b := NUL]> (buffer b)).

(** Number of items [sscanf] assigns on [line]. *)
Definition items (line : list ascii) : Z := (sscanf_d_comma_d line 0 0).1.1.

(** Decimal text: the character of a digit, the value of a digit string, a
    signed integer as text and as value. *)
Definition digit_char (k : Z) : ascii := ascii_of_N (Z.to_N (48 + k)).

Definition is_digits (ds : list Z) : Prop := Forall (fun k => 0 <= k <= 9) ds.

Definition dec_value (ds : list Z) : Z := fold_left (fun a k => 10 * a + k) ds 0.

Definition int_text (neg : bool) (ds : list Z) : list ascii :=
  (if neg then ["-"%char] else []) ++ map digit_char ds.

Definition int_value (neg : bool) (ds : list Z) : Z :=
  if neg then - dec_value ds else dec_value ds.


(** Any two accepted peaks are more than [refractory_n] samples apart. *)
Definition peaks_apart (peaks : list Z) : Prop :=
  forall (i j : nat) (p q : Z),
    (i < j)%nat -> peaks !! i = Some p -> peaks !! j = Some q ->
    refractory_n < q - p.

(** The line in the buffer is left alone when its newline comes: no DSP
    variable changes and nothing is written to the file.  This is what the
    specification asks for a line that does not hold two integers. *)
Definition record_skipped (s : state) : Prop :=
  let '(s', ev) := process_byte s LF in
  st_dsp s' = st_dsp s /\ csv_of ev = [].

Definition malformed_records_skipped : Prop :=
  forall s : state, items (current_line (st_buf s)) < 2 -> record_skipped s.

(** A text that does not go on with a digit. *)
Definition no_digit_ahead (rest : list ascii) : Prop :=
  match rest with
  | c :: _ => isdigit c = false
  | [] => True
  end.

(** The state reached from the start on "0,50", a newline, and "abc,def". *)
Definition before_abc_def : state :=
  (process_bytes (init_state (replicate BUFFER_SIZE NUL))
     (chars "0,50" ++ LF :: chars "abc,def")).1.

(** Forty-one samples: IR 100 once, IR 0 forty times, IR 100 again. *)
Definition two_beats : list ascii :=
  chars "0,100" ++ LF :: concat (replicate 40 (chars "0,0" ++ [LF]))
    ++ chars "0,100" ++ [LF].

(** A state one newline away from a sample with IR 100 at index [idx], the
    last peak being at index 10. *)
Definition after_peak_at_10 (idx : Z) : state :=
  {| st_dsp :=
       {| red_raw := F32.zero; ir_raw := F32.zero; ir_filt := F32.zero;
          hr_bpm := F32.zero; hr_bpm_filt := F32.zero;
          sample_idx := idx; last_peak := 10; prev_peak := NO_PEAK;
          prev_ir_filt := F32.zero; proc_val := F32.zero |};
     st_buf := {| buffer := chars "0,100" ++ replicate 1019 NUL;
                  buffer_index := 5 |} |}.

(** The least number of the second binade, [2^24 * 2^emin]. *)
Definition second_binade : float := S754_finite false 8388608 (-148).

(** [2^31] and [2^32] as binary32 numbers. *)
Definition two_31 : float := S754_finite false 8388608 8.
Definition two_32 : float := S754_finite false 8388608 9.

(** The filtered value is a finite number within the range of [int]. *)
Definition filt_in_range (d : dsp) : Prop :=
  F32.wf (ir_filt d) = true /\
  (- 2147483648 <= F32.val (ir_filt d) <= 2147483648)%R.

(** The state after [k] more samples that all carry the integers [r], [i]. *)
Definition hold (d : dsp) (r i : Z) (k : nat) : dsp :=
  Nat.iter k (fun d' => (process_sample d' r i).1) d.

(** The state after the single sample "0,50": the filtered value is 10. *)
Definition after_0_50 : dsp :=
  st_dsp (process_bytes (init_state (replicate BUFFER_SIZE NUL))
            (chars "0,50" ++ [LF])).1.

(** ** Opening the port and the file (lines 18-82) *)

(** A [HANDLE] and a [FILE*] are kept as the integer value of the pointer;
    a [BOOL] is an [int], tested against 0 by [!]. *)
Definition HANDLE : Type := Z.
Definition INVALID_HANDLE_VALUE : HANDLE := -1.
Definition NULL : Z := 0.

Definition GENERIC_READ : Z := 2147483648.
Definition GENERIC_WRITE : Z := 1073741824.
Definition OPEN_EXISTING : Z := 3.
Definition CBR_115200 : Z := 115200.
Definition NOPARITY : Z := 0.
Definition ONESTOPBIT : Z := 0.

(** The [DCB] structure of [windows.h]; [fFlags] stands for the 32 one-bit
    and two-bit fields that follow [BaudRate]. *)
Record DCB : Type := Dcb {
  DCBlength : Z;
  BaudRate : Z;
  fFlags : Z;
  wReserved : Z;
  XonLim : Z;
  XoffLim : Z;
  ByteSize : Z;
  Parity : Z;
  StopBits : Z;
  XonChar : Z;
  XoffChar : Z;
  ErrorChar : Z;
  EofChar : Z;
  EvtChar : Z;
  wReserved1 : Z
}.

Definition sizeof_DCB : Z := 28.

Record COMMTIMEOUTS : Type := CommTimeouts {
  ReadIntervalTimeout : Z;
  ReadTotalTimeoutMultiplier : Z;
  ReadTotalTimeoutConstant : Z;
  WriteTotalTimeoutMultiplier : Z;
  WriteTotalTimeoutConstant : Z
}.

(** What the operating system and the C library answer to the calls of the
    start-up code, as functions of the arguments they are given.
    [GetCommState] also gives the contents of the structure afterwards. *)
Record win32 : Type := Win32 {
  CreateFile : string -> Z -> Z -> Z -> HANDLE;
  GetCommState : HANDLE -> DCB -> Z * DCB;
  SetCommState : HANDLE -> DCB -> Z;
  SetCommTimeouts : HANDLE -> COMMTIMEOUTS -> Z;
  fopen : string -> string -> Z
}.

(** The calls made and the messages printed before the polling loop. *)
Inductive sys_event : Type :=
| Sys_CreateFile (name : string) (access share disposition : Z) (ret : HANDLE)
| Sys_GetCommState (h : HANDLE)
| Sys_SetCommState (h : HANDLE) (dcb : DCB)
| Sys_SetCommTimeouts (h : HANDLE) (t : COMMTIMEOUTS)
| Sys_CloseHandle (h : HANDLE)
| Sys_fopen (name mode : string) (ret : Z)
| Sys_printf (text : string)
| Sys_perror (text : string).

(** A message that ends with a newline, and one that prints a name first. *)
Definition msg (text : string) : string :=
  String.append text (String LF EmptyString).

Definition msg_name (text name : string) : string :=
  String.append text (msg name).

(** [DCB dcbSerialParams = { 0 }; dcbSerialParams.DCBlength = sizeof(...)] *)
Definition dcb_init : DCB :=
  {| DCBlength := sizeof_DCB; BaudRate := 0; fFlags := 0; wReserved := 0;
     XonLim := 0; XoffLim := 0; ByteSize := 0; Parity := 0; StopBits := 0;
     XonChar := 0; XoffChar := 0; ErrorChar := 0; EofChar := 0; EvtChar := 0;
     wReserved1 := 0 |}.

(** Lines 40-43: 115200 baud, 8N1; the other members stay as [GetCommState]
    left them. *)
Definition dcb_8N1 (d : DCB) : DCB :=
  {| DCBlength := DCBlength d; BaudRate := CBR_115200; fFlags := fFlags d;
     wReserved := wReserved d; XonLim := XonLim d; XoffLim := XoffLim d;
     ByteSize := 8; Parity := NOPARITY; StopBits := ONESTOPBIT;
     XonChar := XonChar d; XoffChar := XoffChar d; ErrorChar := ErrorChar d;
     EofChar := EofChar d; EvtChar := EvtChar d; wReserved1 := wReserved1 d |}.

(** Lines 52-55. *)
Definition timeouts_init : COMMTIMEOUTS :=
  {| ReadIntervalTimeout := 50; ReadTotalTimeoutMultiplier := 10;
     ReadTotalTimeoutConstant := 50; WriteTotalTimeoutMultiplier := 0;
     WriteTotalTimeoutConstant := 0 |}.

(** [setup_serial_port]: the handle returned and the calls made. *)
Definition setup_serial_port (w : win32) (port_name : string)
  : HANDLE * list sys_event :=
  let access := Z.lor GENERIC_READ GENERIC_WRITE in
  let hSerial := CreateFile w port_name access 0 OPEN_EXISTING in
  let ev0 := [Sys_CreateFile port_name access 0 OPEN_EXISTING hSerial] in
  if hSerial =? INVALID_HANDLE_VALUE then
    (INVALID_HANDLE_VALUE,
     ev0 ++ [Sys_printf (msg_name "Error opening serial port " port_name)])
  else
    let ev1 := ev0 ++ [Sys_printf (msg_name "Serial Port opened: " port_name);
                       Sys_GetCommState hSerial] in
    let '(got, dcbSerialParams) := GetCommState w hSerial dcb_init in
    if got =? 0 then
      (INVALID_HANDLE_VALUE,
       ev1 ++ [Sys_printf (msg "Error getting serial port state");
               Sys_CloseHandle hSerial])
    else
      let dcb := dcb_8N1 dcbSerialParams in
      let ev2 := ev1 ++ [Sys_SetCommState hSerial dcb] in
      if SetCommState w hSerial dcb =? 0 then
        (INVALID_HANDLE_VALUE,
         ev2 ++ [Sys_printf (msg "Error setting serial port parameters");
                 Sys_CloseHandle hSerial])
      else
        let ev3 := ev2 ++ [Sys_SetCommTimeouts hSerial timeouts_init] in
        if SetCommTimeouts w hSerial timeouts_init =? 0 then
          (INVALID_HANDLE_VALUE,
           ev3 ++ [Sys_printf (msg "Error setting serial port timeouts");
                   Sys_CloseHandle hSerial])
        else (hSerial, ev3).

(** Lines 68-82 and 117 of [main]: either the status returned before the
    loop is entered, or the two resources the loop runs with. *)
Definition main_start (w : win32) : list sys_event * (Z + HANDLE * Z) :=
  let '(serial_port, ev1) := setup_serial_port w "COM5" in
  if serial_port =? INVALID_HANDLE_VALUE then (ev1, inl 1)
  else
    let csvFile := fopen w "../Export/data.csv" "w" in
    let ev2 := ev1 ++ [Sys_fopen "../Export/data.csv" "w" csvFile] in
    if csvFile =? NULL then
      (ev2 ++ [Sys_perror "Unable to open data.csv"; Sys_CloseHandle serial_port],
       inl 1)
    else
      (ev2 ++ [Sys_printf (msg "Press CTRL+C to terminate...")],
       inr (serial_port, csvFile)).

(** [main] over the polls [ps]: the start-up calls, the trace of the loop,
    and the status returned, if [main] returns within these polls. *)
Definition main (w : win32) (mem : list ascii) (ps : list poll)
    (close_handle_ret fclose_ret : Z)
  : list sys_event * list event * option Z :=
  let '(ev, r) := main_start w in
  match r with
  | inl status => (ev, [], Some status)
  | inr _ =>
      let '(_, ev', status) :=
        main_loop (init_state mem) ps close_handle_ret fclose_ret in
      (ev, ev', status)
  end.

(** What the start-up code can hold: the port handle and the open file. *)
Inductive resource : Type :=
| Port (h : HANDLE)
| File (f : Z).

#[global] Instance resource_eq_dec : EqDecision resource.
Proof. solve_decision. Defined.

(** The resources held after a trace, starting from [held]: a successful
    [CreateFile] or [fopen] adds one, [CloseHandle] gives one back.  [None]
    when a handle is used or closed that is not held. *)
Fixpoint resources (ev : list sys_event) (held : list resource)
  : option (list resource) :=
  match ev with
  | [] => Some held
  | e :: ev' =>
      match e with
      | Sys_CreateFile _ _ _ _ h =>
          resources ev'
            (if h =? INVALID_HANDLE_VALUE then held else Port h :: held)
      | Sys_fopen _ _ f =>
          resources ev' (if f =? NULL then held else File f :: held)
      | Sys_GetCommState h | Sys_SetCommState h _ | Sys_SetCommTimeouts h _ =>
          if bool_decide (Port h ∈ held) then resources ev' held else None
      | Sys_CloseHandle h =>
          if bool_decide (Port h ∈ held)
          then resources ev' (list_difference held [Port h])
          else None
      | _ => resources ev' held
      end
  end.

(** A call that configures the port. *)
Definition config_call (e : sys_event) : Prop :=
  match e with
  | Sys_GetCommState _ | Sys_SetCommState _ _ | Sys_SetCommTimeouts _ _ => True
  | _ => False
  end.

(** An environment in which every call succeeds, and one without the port. *)
Definition win32_ok : win32 :=
  {| CreateFile := fun _ _ _ _ => 7;
     GetCommState := fun _ d =>
       (1, {| DCBlength := DCBlength d; BaudRate := 9600; fFlags := 1;
              wReserved := 0; XonLim := 2048; XoffLim := 512; ByteSize := 7;
              Parity := 2; StopBits := 2; XonChar := 17; XoffChar := 19;
              ErrorChar := 0; EofChar := 0; EvtChar := 0; wReserved1 := 0 |});
     SetCommState := fun _ _ => 1;
     SetCommTimeouts := fun _ _ => 1;
     fopen := fun _ _ => 9 |}.

Definition win32_no_port : win32 :=
  {| CreateFile := fun _ _ _ _ => INVALID_HANDLE_VALUE;
     GetCommState := fun _ d => (0, d);
     SetCommState := fun _ _ => 0;
     SetCommTimeouts := fun _ _ => 0;
     fopen := fun _ _ => 9 |}.

(** ** The line buffer with its accesses checked *)

(** [buffer[i] = c] when [i] is a cell of the array; [None] for a store
    outside of it. *)
Definition store (mem : list ascii) (i : nat) (c : ascii) : option (list ascii) :=
  if (i <? length mem)%nat then Some (<[i := c]> mem) else None.

(** The C string at the start of an array, when a NUL ends it inside the
    array; [None] when the read would run past the last cell. *)
Fixpoint c_str_checked (mem : list ascii) : option (list ascii) :=
  match mem with
  | [] => None
  | c :: mem' =>
      if Ascii.eqb c NUL then Some []
      else match c_str_checked mem' with
           | Some l => Some (c :: l)
           | None => None
           end
  end.

(** [feed_byte] with the store of line 130, the read of line 135 and the
    store of line 186 checked. *)
Definition feed_byte_checked (b : line_buf) (c : ascii)
  : option (line_buf * feed_result) :=
  if Ascii.eqb c LF then
    match store (buffer b) (buffer_index b) NUL with
    | Some buffer' =>
        match c_str_checked buffer' with
        | Some line => Some ({| buffer := buffer'; buffer_index := 0 |}, Line line)
        | None => None
        end
    | None => None
    end
  else if (buffer_index b <? BUFFER_SIZE - 1)%nat then
    match store (buffer b) (buffer_index b) c with
    | Some buffer' =>
        Some ({| buffer := buffer'; buffer_index := S (buffer_index b) |}, Pending)
    | None => None
    end
  else Some ({| buffer := buffer b; buffer_index := 0 |}, Overflow).

Fixpoint feed_bytes_checked (b : line_buf) (cs : list ascii)
  : option (line_buf * list feed_result) :=
  match cs with
  | [] => Some (b, [])
  | c :: cs' =>
      match feed_byte_checked b c with
      | Some (b1, r) =>
          match feed_bytes_checked b1 cs' with
          | Some (b2, rs) => Some (b2, r :: rs)
          | None => None
          end
      | None => None
      end
  end.

(** ** Records and lines *)

(** The byte stream made of the records [ws], each closed by a newline. *)
Definition stream_of (ws : list (list ascii)) : list ascii :=
  concat (map (fun w => w ++ [LF]) ws).

(** What is left of a record in the buffer when its newline comes: the bytes
    after the last full block of [BUFFER_SIZE], up to the first NUL. *)
Definition line_of_record (w : list ascii) : list ascii :=
  c_str (drop (length w / BUFFER_SIZE * BUFFER_SIZE) w).

(** Number of newlines in a run of bytes. *)
Fixpoint newlines (cs : list ascii) : nat :=
  match cs with
  | [] => 0%nat
  | c :: cs' => if Ascii.eqb c LF then S (newlines cs') else newlines cs'
  end.

Definition pairs_of (ev : list event) : list (Z * Z) :=
  omap (fun e => match e with Print_pair r i => Some (r, i) | _ => None end) ev.

Definition hrs_of (ev : list event) : list float :=
  omap (fun e => match e with Print_hr v => Some v | _ => None end) ev.

(** ** The text of a number, as [sscanf] accepts it and as [printf] writes it *)

(** An optional sign character. *)
Inductive sign : Type := No_sign | Plus | Minus.

Definition sign_text (sg : sign) : list ascii :=
  match sg with
  | No_sign => []
  | Plus => ["+"%char]
  | Minus => ["-"%char]
  end.

Definition signed (sg : sign) (v : Z) : Z :=
  match sg with Minus => - v | _ => v end.

(** White space, an optional sign, digits. *)
Definition number_text (ws : list ascii) (sg : sign) (ds : list Z) : list ascii :=
  ws ++ sign_text sg ++ map digit_char ds.

(** The decimal digits of [n >= 0], most significant first, in front of
    [acc]; [fuel] bounds the number of digits. *)
Fixpoint digits_of (fuel : nat) (n : Z) (acc : list Z) : list Z :=
  match fuel with
  | O => acc
  | S fuel' =>
      if n / 10 =? 0 then n mod 10 :: acc
      else digits_of fuel' (n / 10) (n mod 10 :: acc)
  end.

(** What [printf] writes for [%d]; an [int] has at most ten digits. *)
Definition print_d (z : Z) : list ascii :=
  int_text (z <? 0) (digits_of 10 (Z.abs z) []).

(** The text of [printf("%d, %d\n", red_int, ir_int)] before its newline. *)
Definition echo_text (red_int ir_int : Z) : list ascii :=
  print_d red_int ++ ","%char :: " "%char :: print_d ir_int.

(** The pairs printed by a run, as the console shows them, line after line. *)
Definition echo_of (ev : list event) : list ascii :=
  stream_of (map (fun p => echo_text p.1 p.2) (pairs_of ev)).

Definition not_overflow (e : event) : bool :=
  match e with Stderr_overflow => false | _ => true end.

(** The samples [xs] processed one after the other. *)
Fixpoint run_samples (d : dsp) (xs : list (Z * Z)) : dsp * list event :=
  match xs with
  | [] => (d, [])
  | (r, i) :: xs' =>
      let '(d1, ev1) := process_sample d r i in
      let '(d2, ev2) := run_samples d1 xs' in
      (d2, ev1 ++ ev2)
  end.

(** ** Ranges of the DSP variables *)

(** A rate that is a number between 0 and 6000/31. *)
Definition hr_in_range (v : float) : Prop :=
  F32.wf v = true /\ (0 <= F32.val v <= 6000 / 31)%R.

(** A number between two integers. *)
Definition val_between (lo hi : Z) (v : float) : Prop :=
  F32.wf v = true /\ (IZR lo <= F32.val v <= IZR hi)%R.

(** Between two samples: the filtered value is a number within the range of
    [int], and [prev_ir_filt] is a copy of it. *)
Definition steady (d : dsp) : Prop :=
  filt_in_range d /\ prev_ir_filt d = ir_filt d.

(** No peak seen yet, or fewer rates printed than peaks accepted. *)
Definition rates_behind_peaks (d : dsp) (ev : list event) : Prop :=
  (last_peak d = NO_PEAK /\ peaks_of ev = [] /\ hrs_of ev = []) \/
  (length (hrs_of ev) < length (peaks_of ev))%nat.

(** Two states that agree on every DSP variable but [red_raw]. *)
Definition same_but_red (d1 d2 : dsp) : Prop :=
  ir_raw d1 = ir_raw d2 /\ ir_filt d1 = ir_filt d2 /\ hr_bpm d1 = hr_bpm d2 /\
  hr_bpm_filt d1 = hr_bpm_filt d2 /\ sample_idx d1 = sample_idx d2 /\
  last_peak d1 = last_peak d2 /\ prev_peak d1 = prev_peak d2 /\
  prev_ir_filt d1 = prev_ir_filt d2 /\ proc_val d1 = proc_val d2.

(** A trace without the pairs echoed on the console. *)
Definition not_pair (e : event) : bool :=
  match e with Print_pair _ _ => false | _ => true end.

(** ** Two statements of the specification that the code does not meet *)


(** While the same IR integer comes in, the filtered value converges to it:
    it comes, and stays, as close to the input as one asks. *)
Definition filter_converges : Prop :=
  forall (mem cs : list ascii) (r i : Z),
    INT_MIN <= i <= INT_MAX ->
    let d0 := st_dsp (process_bytes (init_state mem) cs).1 in
    forall eps : R, (0 < eps)%R ->
      exists N : nat, forall k : nat, (N <= k)%nat ->
        (Rabs (F32.val (F32.of_int i) - F32.val (ir_filt (hold d0 r i k))) < eps)%R.

(** ** Sanity checks of the embedding on literal inputs *)

Example constants_are_nearest :
  FS = F32.of_int 100 /\ peak_thr = F32.of_int 10 /\
  min_hr_bpm = F32.of_int 40 /\ max_hr_bpm = F32.of_int 200 /\
  sixty = F32.of_int 60 /\
  alpha_filt = F32.div (F32.of_int 2) (F32.of_int 10) /\
  alpha_hr = F32.div (F32.of_int 3) (F32.of_int 10).
Proof. repeat split; reflexivity. Qed.

(** Three well-formed records: the filtered values written to the file are
    10, 24 and 31.2 (in binary32), and the first sample crosses the threshold. *)
Example three_records :
  let ev := (process_bytes (init_state (replicate BUFFER_SIZE NUL))
               (chars "100,50" ++ LF :: chars "200,80" ++ LF :: chars "150,60" ++ [LF])).2 in
  csv_of ev = [F32.of_int 10; F32.of_int 24;
               F32.div (F32.of_int 312) (F32.of_int 10)] /\
  peaks_of ev = [0].
Proof. vm_compute. split; reflexivity. Qed.

(** In binary32 the filter can stop short of its input: held at 100 from 10,
    the filtered value is [100 - 2^-16] after 69 samples and stays there. *)
Example filter_stops_short :
  ir_filt (hold after_0_50 0 100 69) = S754_finite false 13107198 (-17) /\
  ir_filt (hold after_0_50 0 100 70) = S754_finite false 13107198 (-17) /\
  F32.of_int 100 = S754_finite false 13107200 (-17).
Proof. vm_compute. repeat split; reflexivity. Qed.

(** Bytes left after the last overflow stay in the buffer until a newline
    comes: with no newline of its own, a run of 1030 bytes leaves its last 6
    in front of the record that follows, and nothing is read from that line. *)
Example fragment_joins_next_record :
  let rs := (feed_bytes {| buffer := replicate BUFFER_SIZE NUL; buffer_index := 0 |}
               (replicate 1030 "x"%char ++ chars "100,50" ++ [LF])).2 in
  overflows_of rs = 1%nat /\
  lines_of rs = [replicate 6 "x"%char ++ chars "100,50"] /\
  items (replicate 6 "x"%char ++ chars "100,50") = 0.
Proof. vm_compute. repeat split; reflexivity. Qed.

Lemma refractory_n_eq : refractory_n = 30.
Proof. reflexivity. Qed.

Example sscanf_examples :
  sscanf_d_comma_d (chars "abc,def") 0 0 = (0, 0, 0) /\
  sscanf_d_comma_d (chars "12,x") 0 0 = (1, 12, 0) /\
  sscanf_d_comma_d (chars "12 ,5") 0 0 = (1, 12, 0) /\
  sscanf_d_comma_d (chars " -12, +7") 0 0 = (2, -12, 7) /\
  sscanf_d_comma_d ("1"%char :: "2"%char :: ","%char :: "5"%char :: ["013"%char]) 0 0 = (2, 12, 5).
Proof. repeat split; reflexivity. Qed.

(** ** binary32 rounding: the result lies between the representable
    numbers that enclose the exact value *)

Module F32Facts.

Import F32.

Lemma digits2_pos_log2 (m : positive) :
  Zpos (digits2_pos m) = Z.log2 (Zpos m) + 1.
Proof.
  induction m as [m IH|m IH|]; cbn [digits2_pos]; [| |reflexivity].
  - rewrite Pos2Z.inj_succ, IH. cbn [Z.log2]. destruct m; cbn; lia.
  - rewrite Pos2Z.inj_succ, IH. cbn [Z.log2]. destruct m; cbn; lia.
Qed.

Lemma digits2_pos_bounds (m : positive) :
  2 ^ (Zpos (digits2_pos m) - 1) <= Zpos m < 2 ^ Zpos (digits2_pos m).
Proof.
  rewrite digits2_pos_log2.
  pose proof (Z.log2_spec (Zpos m) ltac:(lia)) as H.
  replace (Z.log2 (Zpos m) + 1 - 1) with (Z.log2 (Zpos m)) by lia.
  replace (Z.log2 (Zpos m) + 1) with (Z.succ (Z.log2 (Zpos m))) by lia.
  exact H.
Qed.

Lemma iter_pos_nat {A : Type} (f : A -> A) (p : positive) (x : A) :
  SpecFloat.iter_pos f p x = Nat.iter (Pos.to_nat p) f x.
Proof.
  revert x. induction p as [p IH|p IH|]; intros x; cbn [SpecFloat.iter_pos].
  - rewrite !IH, Pos2Nat.inj_xI.
    rewrite <- Nat.iter_add, <- Nat.iter_succ_r. f_equal. lia.
  - rewrite !IH, Pos2Nat.inj_xO.
    rewrite <- Nat.iter_add. f_equal. lia.
  - reflexivity.
Qed.

Lemma shr_1_m (mrs : shr_record) :
  0 <= shr_m mrs -> shr_m (shr_1 mrs) = shr_m mrs / 2.
Proof.
  destruct mrs as [m r s]. cbn [shr_m]. intros H.
  destruct m as [|p|p]; [reflexivity| |lia].
  destruct p as [p|p|]; cbn [shr_1 shr_m].
  - rewrite Pos2Z.inj_xI. apply Z.div_unique with 1; lia.
  - rewrite Pos2Z.inj_xO. apply Z.div_unique with 0; lia.
  - reflexivity.
Qed.

Lemma shr_iter_m (k : nat) (mrs : shr_record) :
  0 <= shr_m mrs ->
  shr_m (Nat.iter k shr_1 mrs) = shr_m mrs / 2 ^ Z.of_nat k.
Proof.
  intros H. induction k as [|k IH].
  - cbn. rewrite Z.div_1_r. reflexivity.
  - rewrite Nat.iter_succ, shr_1_m.
    + rewrite IH, Nat2Z.inj_succ, Z.pow_succ_r by lia.
      rewrite Z.div_div by lia. f_equal. lia.
    + rewrite IH. apply Z.div_pos; lia.
Qed.

(** No bit is lost by [k] shifts of an exact record whose mantissa is a
    multiple of [2^k]. *)
Lemma shr_1_exact (mrs : shr_record) :
  0 <= shr_m mrs -> shr_r mrs = false -> shr_s mrs = false ->
  shr_m mrs mod 2 = 0 ->
  shr_r (shr_1 mrs) = false /\ shr_s (shr_1 mrs) = false.
Proof.
  destruct mrs as [m r s]. cbn [shr_m shr_r shr_s]. intros H -> -> E.
  destruct m as [|p|p]; [split; reflexivity| |lia].
  destruct p as [p|p|]; cbn [shr_1 shr_r shr_s]; [|split; reflexivity|].
  - rewrite Pos2Z.inj_xI in E. exfalso.
    rewrite Z.add_comm, Z.mul_comm, Z.mod_add in E by lia. discriminate E.
  - discriminate E.
Qed.

Lemma shr_iter_exact (k : nat) (mrs : shr_record) :
  0 <= shr_m mrs -> shr_r mrs = false -> shr_s mrs = false ->
  shr_m mrs mod 2 ^ Z.of_nat k = 0 ->
  shr_r (Nat.iter k shr_1 mrs) = false /\ shr_s (Nat.iter k shr_1 mrs) = false.
Proof.
  intros H R S. induction k as [|k IH]; intros E.
  - cbn. tauto.
  - rewrite Nat2Z.inj_succ, Z.pow_succ_r in E by lia.
    assert (E' : shr_m mrs mod 2 ^ Z.of_nat k = 0).
    { apply Z.mod_divide in E; [|lia]. apply Z.mod_divide; [lia|].
      destruct E as [c E]. exists (c * 2). lia. }
    destruct (IH E') as [R' S']. rewrite Nat.iter_succ.
    apply shr_1_exact; try assumption.
    + rewrite shr_iter_m by exact H. apply Z.div_pos; lia.
    + rewrite shr_iter_m by exact H.
      apply Z.mod_divide in E; [|lia]. destruct E as [c E].
      rewrite E. replace (c * (2 * 2 ^ Z.of_nat k)) with (c * 2 * 2 ^ Z.of_nat k) by lia.
      rewrite Z.div_mul by lia. apply Z.mod_mul. lia.
Qed.

Lemma fexp_eq (k : Z) : fexp prec emax k = Z.max (k - 24) emin.
Proof. reflexivity. Qed.

Lemma Zdigits2_nonneg (m : Z) : 0 <= Zdigits2 m.
Proof. destruct m; cbn; lia. Qed.

Lemma Zdigits2_bounds (m : Z) :
  0 < m -> 2 ^ (Zdigits2 m - 1) <= m < 2 ^ Zdigits2 m.
Proof. destruct m as [|p|p]; [lia| |lia]. intros _. apply digits2_pos_bounds. Qed.

Lemma Zdigits2_unique (m k : Z) :
  2 ^ (k - 1) <= m < 2 ^ k -> 0 < m -> Zdigits2 m = k.
Proof.
  intros H Hm. pose proof (Zdigits2_bounds m Hm) as B.
  pose proof (Zdigits2_nonneg m) as N.
  assert (K : 0 < k).
  { destruct (Z_lt_le_dec 0 k) as [L|L]; [exact L|].
    assert (2 ^ k <= 2 ^ 0) by (apply Z.pow_le_mono_r; lia).
    change (2 ^ 0) with 1 in *. lia. }
  destruct (Z.lt_trichotomy (Zdigits2 m) k) as [L|[L|L]]; [|exact L|].
  - assert (2 ^ Zdigits2 m <= 2 ^ (k - 1)) by (apply Z.pow_le_mono_r; lia). lia.
  - assert (2 ^ k <= 2 ^ (Zdigits2 m - 1)) by (apply Z.pow_le_mono_r; lia). lia.
Qed.

Lemma loc_of_record_of_loc (m : Z) (l : location) :
  loc_of_shr_record (shr_record_of_loc m l) = l /\
  shr_m (shr_record_of_loc m l) = m.
Proof. destruct l as [|[| |]]; split; reflexivity. Qed.

Lemma shr_fexp_spec (m e : Z) (l : location) :
  0 <= m ->
  let n := fexp prec emax (Zdigits2 m + e) - e in
  0 <= n ->
  let '(mrs, e') := shr_fexp prec emax m e l in
  e' = e + n /\ shr_m mrs = m / 2 ^ n /\
  (l = loc_Exact -> m mod 2 ^ n = 0 -> loc_of_shr_record mrs = loc_Exact).
Proof.
  intros Hm n Hn. unfold shr_fexp, shr. fold n.
  destruct (loc_of_record_of_loc m l) as [L M].
  destruct n as [|p|p] eqn:En; [| |lia].
  - rewrite Z.add_0_r, M, Z.div_1_r. repeat split. intros -> _. exact L.
  - rewrite iter_pos_nat, shr_iter_m by (rewrite M; exact Hm).
    rewrite positive_nat_Z, M. repeat split.
    intros -> E.
    destruct (shr_iter_exact (Pos.to_nat p) (shr_record_of_loc m loc_Exact))
      as [R S]; try reflexivity; try assumption.
    { rewrite positive_nat_Z. exact E. }
    destruct (Nat.iter _ _ _) as [m' r' s']. cbn in R, S. subst. reflexivity.
Qed.

Lemma shr_fexp_noshift (m e : Z) :
  fexp prec emax (Zdigits2 m + e) - e <= 0 ->
  shr_fexp prec emax m e loc_Exact = (shr_record_of_loc m loc_Exact, e).
Proof.
  intros H. unfold shr_fexp, shr.
  destruct (fexp prec emax (Zdigits2 m + e) - e); [reflexivity|lia|reflexivity].
Qed.

Lemma round_nearest_even_spec (m : Z) (l : location) :
  m <= round_nearest_even m l <= m + 1 /\
  (l = loc_Exact -> round_nearest_even m l = m).
Proof.
  destruct l as [|[| |]]; cbn; try destruct (Z.even m); split; try lia; try discriminate; reflexivity.
Qed.

Lemma round_aux_shape (s : bool) (m e : Z) (l : location) :
  0 <= m ->
  let e1 := fexp prec emax (Zdigits2 m + e) in
  let n := e1 - e in
  let q := m / 2 ^ n in
  0 <= n ->
  emin <= e1 /\ 0 <= q < 2 ^ 24 /\ (emin < e1 -> 2 ^ 23 <= q) /\
  exists m2,
    q <= m2 <= q + 1 /\
    (l = loc_Exact -> m mod 2 ^ n = 0 -> m2 = q) /\
    binary_round_aux prec emax s m e l = pack s m2 e1.
Proof.
  intros Hm e1 n q Hn.
  assert (E1 : emin <= e1) by (unfold e1; rewrite fexp_eq; lia).
  assert (P2 : 0 < 2 ^ n) by (apply Z.pow_pos_nonneg; lia).
  assert (Q0 : 0 <= q) by (apply Z.div_pos; lia).
  assert (Q : q < 2 ^ 24 /\ (emin < e1 -> 2 ^ 23 <= q)).
  { destruct (Z.eq_dec m 0) as [->|M0].
    - unfold q. rewrite Z.div_0_l by lia. split; [lia|].
      intros L. exfalso. unfold n, e1 in *. rewrite fexp_eq in *. cbn [Zdigits2] in *. lia.
    - pose proof (Zdigits2_bounds m ltac:(lia)) as B.
      pose proof (Zdigits2_nonneg m) as D0.
      set (d := Zdigits2 m) in *.
      assert (D1 : 0 < d).
      { destruct (Z.eq_dec d 0) as [Z|Z]; [|lia]. rewrite Z in B. cbn in B. lia. }
      assert (N : d - 24 <= n) by (unfold n, e1; rewrite fexp_eq; lia).
      split.
      + unfold q. apply Z.div_lt_upper_bound; [lia|].
        destruct (Z_le_gt_dec n d) as [L|L].
        * rewrite <- Z.pow_add_r by lia.
          assert (2 ^ d <= 2 ^ (n + 24)) by (apply Z.pow_le_mono_r; lia). lia.
        * assert (2 ^ d <= 2 ^ n) by (apply Z.pow_le_mono_r; lia). lia.
      + intros L. assert (N' : n = d - 24) by (unfold n, e1 in *; rewrite fexp_eq in *; lia).
        unfold q. apply Z.div_le_lower_bound; [lia|].
        rewrite N'. rewrite <- Z.pow_add_r by lia.
        replace (d - 24 + 23) with (d - 1) by lia. lia. }
  split; [exact E1|]. split; [lia|]. split; [tauto|].
  pose proof (shr_fexp_spec m e l Hm Hn) as S1. fold e1 n in S1.
  unfold binary_round_aux.
  destruct (shr_fexp prec emax m e l) as [mrs1 e1'].
  destruct S1 as (Ee & Em & Ex). fold q in Em.
  assert (Ee' : e1' = e1) by (unfold n in Ee; lia). clear Ee. subst e1'.
  destruct (round_nearest_even_spec (shr_m mrs1) (loc_of_shr_record mrs1)) as [R1 R2].
  set (m2 := round_nearest_even (shr_m mrs1) (loc_of_shr_record mrs1)) in *.
  rewrite Em in R1.
  exists m2. split; [exact R1|]. split.
  { intros Hl Hmod. rewrite <- Em. apply R2. apply Ex; assumption. }
  unfold pack.
  destruct (Z.eq_dec m2 0) as [Z2|Z2].
  - rewrite Z2, shr_fexp_noshift; [reflexivity|].
    rewrite fexp_eq. cbn [Zdigits2]. lia.
  - assert (M2 : 0 < m2) by lia.
    replace (m2 =? 0) with false by (symmetry; apply Z.eqb_neq; exact Z2).
    destruct (Z.ltb_spec m2 (2 ^ 24)) as [L|L].
    + pose proof (Zdigits2_bounds m2 M2) as B.
      assert (D : Zdigits2 m2 <= 24).
      { destruct (Z_le_gt_dec (Zdigits2 m2) 24) as [G|G]; [exact G|].
        assert (2 ^ 24 <= 2 ^ (Zdigits2 m2 - 1)) by (apply Z.pow_le_mono_r; lia). lia. }
      rewrite shr_fexp_noshift by (rewrite fexp_eq; lia).
      cbn [shr_m shr_record_of_loc]. destruct m2; [lia| |lia]. reflexivity.
    + assert (M24 : m2 = 2 ^ 24) by lia. rewrite M24.
      unfold shr_fexp, shr.
      change (Zdigits2 (2 ^ 24)) with 25. rewrite fexp_eq.
      replace (Z.max (25 + e1 - 24) emin - e1) with 1 by lia.
      reflexivity.
Qed.

Local Open Scope R_scope.


Lemma bpow_gt_0 (e : Z) : 0 < bpow e.
Proof. apply powerRZ_lt. lra. Qed.

Lemma bpow_add (a b : Z) : bpow (a + b) = bpow a * bpow b.
Proof. apply powerRZ_add. lra. Qed.

Lemma bpow_Z (e : Z) : (0 <= e)%Z -> bpow e = IZR (2 ^ e).
Proof.
  intros H. unfold bpow. destruct e as [|p|p]; [reflexivity| |lia].
  rewrite <- Zpower_pos_powerRZ. reflexivity.
Qed.

Lemma bpow_le (a b : Z) : (a <= b)%Z -> bpow a <= bpow b.
Proof.
  intros H. replace b with (a + (b - a))%Z by lia. rewrite bpow_add.
  assert (1 <= bpow (b - a)).
  { rewrite bpow_Z by lia. apply IZR_le.
    assert (0 < 2 ^ (b - a))%Z by (apply Z.pow_pos_nonneg; lia). lia. }
  pose proof (bpow_gt_0 a). nra.
Qed.

Lemma bpow_lt (a b : Z) : (a < b)%Z -> bpow a < bpow b.
Proof.
  intros H. replace b with (a + (b - a))%Z by lia. rewrite bpow_add.
  assert (2 <= bpow (b - a)).
  { replace 2 with (bpow 1) by (unfold bpow; simpl; lra). apply bpow_le. lia. }
  pose proof (bpow_gt_0 a). nra.
Qed.

Lemma F2R_shift (m e n : Z) : (0 <= n)%Z -> F2R (m * 2 ^ n) e = F2R m (e + n).
Proof.
  intros H. unfold F2R. rewrite mult_IZR, <- bpow_Z by exact H.
  rewrite (Z.add_comm e n), bpow_add. ring.
Qed.

Lemma F2R_le (m1 m2 e : Z) : (m1 <= m2)%Z -> F2R m1 e <= F2R m2 e.
Proof.
  intros H. unfold F2R. apply IZR_le in H. pose proof (bpow_gt_0 e). nra.
Qed.

Lemma F2R_lt_inv (m1 m2 e : Z) : F2R m1 e < F2R m2 e -> (m1 < m2)%Z.
Proof.
  intros H. destruct (Z_lt_le_dec m1 m2) as [L|L]; [exact L|].
  apply (F2R_le _ _ e) in L. lra.
Qed.

Lemma F2R_le_inv (m1 m2 e : Z) : F2R m1 e <= F2R m2 e -> (m1 <= m2)%Z.
Proof.
  intros H. destruct (Z_le_gt_dec m1 m2) as [L|L]; [exact L|].
  assert (m2 + 1 <= m1)%Z as L' by lia.
  apply (F2R_le _ _ e) in L'. unfold F2R in *. rewrite plus_IZR in L'.
  pose proof (bpow_gt_0 e). nra.
Qed.

Lemma F2R_ge_bpow (m e k : Z) : (0 <= k)%Z -> (2 ^ k <= m)%Z -> bpow (k + e) <= F2R m e.
Proof.
  intros Hk H. rewrite bpow_add, bpow_Z by exact Hk.
  apply (F2R_le _ _ e) in H. exact H.
Qed.

Lemma F2R_le_bpow (m e k : Z) : (0 <= k)%Z -> (m <= 2 ^ k)%Z -> F2R m e <= bpow (k + e).
Proof.
  intros Hk H. rewrite bpow_add, bpow_Z by exact Hk.
  apply (F2R_le _ _ e) in H. exact H.
Qed.

Lemma F2R_lt_bpow (m e k : Z) : (0 <= k)%Z -> (m < 2 ^ k)%Z -> F2R m e < bpow (k + e).
Proof.
  intros Hk H. rewrite bpow_add, bpow_Z by exact Hk.
  unfold F2R. apply IZR_lt in H. pose proof (bpow_gt_0 e). nra.
Qed.

Lemma F2R_0 (e : Z) : F2R 0 e = 0.
Proof. unfold F2R. ring. Qed.

(** What [bounded] says of a mantissa and its exponent. *)
Lemma bounded_facts (m : positive) (e : Z) :
  SpecFloat.bounded prec emax m e = true ->
  (emin <= e <= 104)%Z /\ (Zpos m < 2 ^ 24)%Z /\ (emin < e -> 2 ^ 23 <= Zpos m)%Z.
Proof.
  unfold SpecFloat.bounded, canonical_mantissa. rewrite fexp_eq. intros H.
  apply andb_true_iff in H. destruct H as [C B].
  apply Z.eqb_eq in C. apply Z.leb_le in B. change (emax - prec)%Z with 104%Z in B.
  pose proof (digits2_pos_bounds m) as D.
  set (d := Zpos (digits2_pos m)) in *.
  assert (d <= 24)%Z by lia.
  split; [lia|]. split.
  - assert (2 ^ d <= 2 ^ 24)%Z by (apply Z.pow_le_mono_r; lia). lia.
  - intros L. assert (d = 24)%Z by lia. subst d. rewrite H0 in D. lia.
Qed.

Lemma bounded_intro (m e : Z) :
  (0 < m < 2 ^ 24)%Z -> (emin <= e <= 104)%Z -> (emin < e -> 2 ^ 23 <= m)%Z ->
  SpecFloat.bounded prec emax (Z.to_pos m) e = true.
Proof.
  intros Hm He Hn. unfold SpecFloat.bounded, canonical_mantissa. rewrite fexp_eq.
  apply andb_true_iff. split; [|apply Z.leb_le; change (emax - prec)%Z with 104%Z; lia].
  apply Z.eqb_eq.
  pose proof (digits2_pos_bounds (Z.to_pos m)) as D.
  rewrite Z2Pos.id in D by lia.
  set (d := Zpos (digits2_pos (Z.to_pos m))) in *.
  assert (D24 : (d <= 24)%Z).
  { destruct (Z_le_gt_dec d 24) as [G|G]; [exact G|].
    assert (2 ^ 24 <= 2 ^ (d - 1))%Z by (apply Z.pow_le_mono_r; lia). lia. }
  destruct (Z.eq_dec e emin) as [->|Ne]; [lia|].
  assert (2 ^ 23 <= m)%Z by (apply Hn; lia).
  assert (d = 24)%Z; [|lia].
  destruct (Z_le_gt_dec 24 d) as [G|G]; [lia|].
  assert (2 ^ d <= 2 ^ 23)%Z by (apply Z.pow_le_mono_r; unfold d; lia). lia.
Qed.

(** The two halves of the enclosure of a rounded value between the
    representable numbers around the exact one. *)
Section Enclosure.

Variables (m e : Z) (l : location) (x : R).
Hypothesis Hm : (0 <= m)%Z.
Let e1 := fexp prec emax (Zdigits2 m + e).
Let n := (e1 - e)%Z.
Let q := (m / 2 ^ n)%Z.
Hypothesis Hn : (0 <= n)%Z.
Hypothesis Hx : F2R m e <= x < F2R (m + 1) e.
Hypothesis Hl : x = F2R m e -> l = loc_Exact.

Variable m2 : Z.
Hypothesis Hq : (q <= m2 <= q + 1)%Z.
Hypothesis Hex : l = loc_Exact -> (m mod 2 ^ n = 0)%Z -> m2 = q.
Hypothesis He1 : (emin <= e1)%Z.
Hypothesis Hq24 : (0 <= q < 2 ^ 24)%Z.
Hypothesis Hq23 : (emin < e1 -> 2 ^ 23 <= q)%Z.

Lemma q_times : (q * 2 ^ n <= m < (q + 1) * 2 ^ n)%Z.
Proof.
  assert (P : (0 < 2 ^ n)%Z) by (apply Z.pow_pos_nonneg; lia).
  unfold q. pose proof (Z.div_mod m (2 ^ n) ltac:(lia)).
  pose proof (Z.mod_pos_bound m (2 ^ n) P). nia.
Qed.

Lemma F2R_q_le : F2R q e1 <= F2R m e.
Proof.
  replace e1 with (e + n)%Z by (unfold n; lia).
  rewrite <- F2R_shift by exact Hn. apply F2R_le. apply q_times.
Qed.

Lemma F2R_q1_ge : F2R (m + 1) e <= F2R (q + 1) e1.
Proof.
  replace e1 with (e + n)%Z by (unfold n; lia).
  rewrite <- F2R_shift by exact Hn. apply F2R_le.
  pose proof q_times. lia.
Qed.

Lemma enclosure_lower (mg : positive) (eg : Z) :
  SpecFloat.bounded prec emax mg eg = true -> F2R (Zpos mg) eg <= x ->
  F2R (Zpos mg) eg <= F2R m2 e1.
Proof.
  intros B G. destruct (bounded_facts mg eg B) as (Be & Bm & Bn).
  pose proof F2R_q1_ge as Q1. pose proof F2R_q_le as Q0.
  destruct (Z.lt_trichotomy eg e1) as [L|[L|L]].
  - assert (F2R (Zpos mg) eg < bpow (24 + eg)) by (apply F2R_lt_bpow; lia).
    assert (bpow (24 + eg) <= bpow (23 + e1)) by (apply bpow_le; lia).
    assert (bpow (23 + e1) <= F2R q e1) by (apply F2R_ge_bpow; [lia|apply Hq23; lia]).
    assert (F2R q e1 <= F2R m2 e1) by (apply F2R_le; lia).
    lra.
  - subst eg. apply F2R_le.
    assert (F2R (Zpos mg) e1 < F2R (q + 1) e1) by lra.
    apply F2R_lt_inv in H. lia.
  - exfalso.
    assert (bpow (23 + eg) <= F2R (Zpos mg) eg) by (apply F2R_ge_bpow; [lia|apply Bn; lia]).
    assert (bpow (24 + e1) <= bpow (23 + eg)) by (apply bpow_le; lia).
    assert (F2R (q + 1) e1 <= bpow (24 + e1)) by (apply F2R_le_bpow; lia).
    lra.
Qed.

Lemma enclosure_upper (mh : positive) (eh : Z) :
  SpecFloat.bounded prec emax mh eh = true -> x <= F2R (Zpos mh) eh ->
  F2R m2 e1 <= F2R (Zpos mh) eh.
Proof.
  intros B G. destruct (bounded_facts mh eh B) as (Be & Bm & Bn).
  pose proof F2R_q1_ge as Q1. pose proof F2R_q_le as Q0.
  destruct (Z.lt_trichotomy eh e1) as [L|[L|L]].
  - exfalso.
    assert (F2R (Zpos mh) eh < bpow (24 + eh)) by (apply F2R_lt_bpow; lia).
    assert (bpow (24 + eh) <= bpow (23 + e1)) by (apply bpow_le; lia).
    assert (bpow (23 + e1) <= F2R q e1) by (apply F2R_ge_bpow; [lia|apply Hq23; lia]).
    lra.
  - subst eh. apply F2R_le.
    assert (Q : (q <= Zpos mh)%Z) by (apply (F2R_le_inv _ _ e1); lra).
    destruct (Z.eq_dec m2 q) as [E|E]; [lia|].
    destruct (Z.eq_dec (Zpos mh) q) as [E2|E2]; [|lia].
    exfalso. apply E. rewrite E2 in G.
    assert (X : x = F2R m e) by lra.
    apply Hex; [apply Hl; exact X|].
    assert (F2R m e = F2R (q * 2 ^ n) e).
    { rewrite F2R_shift by exact Hn. replace (e + n)%Z with e1 by (unfold n; lia). lra. }
    assert (M : (m = q * 2 ^ n)%Z).
    { apply Z.le_antisymm.
      - apply (F2R_le_inv _ _ e). lra.
      - apply q_times. }
    rewrite M. apply Z.mod_mul. apply Z.pow_nonzero; lia.
  - assert (bpow (23 + eh) <= F2R (Zpos mh) eh) by (apply F2R_ge_bpow; [lia|apply Bn; lia]).
    assert (bpow (24 + e1) <= bpow (23 + eh)) by (apply bpow_le; lia).
    assert (F2R m2 e1 <= bpow (24 + e1)) by (apply F2R_le_bpow; lia).
    lra.
Qed.

End Enclosure.

Lemma bpow_lt_inv (a b : Z) : bpow a < bpow b -> (a < b)%Z.
Proof.
  intros H. destruct (Z_lt_le_dec a b) as [L|L]; [exact L|].
  apply bpow_le in L. lra.
Qed.

Lemma F2R_pos (m : positive) (e : Z) : 0 < F2R (Zpos m) e.
Proof.
  unfold F2R. pose proof (bpow_gt_0 e).
  assert (1 <= IZR (Zpos m)) by (apply IZR_le; lia). nra.
Qed.

Lemma F2R_neg (m : positive) (e : Z) : F2R (Zneg m) e = - F2R (Zpos m) e.
Proof. unfold F2R. change (Zneg m) with (- Zpos m)%Z. rewrite opp_IZR. ring. Qed.

Lemma val_opp (x : float) : val (SFopp x) = - val x.
Proof.
  destruct x as [s|s| |s m e]; cbn [val SFopp]; try lra.
  destruct s; cbn [negb]; rewrite F2R_neg; lra.
Qed.

Lemma wf_opp (x : float) : wf (SFopp x) = wf x.
Proof. destruct x; reflexivity. Qed.

Lemma pack_opp (m2 e1 : Z) : pack true m2 e1 = SFopp (pack false m2 e1).
Proof.
  unfold pack. destruct (m2 =? 0)%Z; [reflexivity|].
  destruct (m2 <? 2 ^ 24)%Z.
  - destruct (e1 <=? 104)%Z; reflexivity.
  - destruct (e1 + 1 <=? 104)%Z; reflexivity.
Qed.

Lemma wf_finite (s : bool) (m : positive) (e : Z) :
  wf (S754_finite s m e) = SpecFloat.bounded prec emax m e.
Proof. reflexivity. Qed.

(** A rounded mantissa with a representable number above it packs into a
    well-formed finite number of the expected value. *)
Lemma pack_finite (m2 e1 : Z) (mh : positive) (eh : Z) :
  (0 <= m2 <= 2 ^ 24)%Z -> (emin <= e1)%Z -> (emin < e1 -> 2 ^ 23 <= m2)%Z ->
  SpecFloat.bounded prec emax mh eh = true ->
  F2R m2 e1 <= F2R (Zpos mh) eh ->
  wf (pack false m2 e1) = true /\ val (pack false m2 e1) = F2R m2 e1.
Proof.
  intros Hm He Hn B U. destruct (bounded_facts mh eh B) as (Be & Bm & _).
  assert (T : F2R (Zpos mh) eh < bpow 128).
  { assert (F2R (Zpos mh) eh < bpow (24 + eh)) by (apply F2R_lt_bpow; lia).
    assert (bpow (24 + eh) <= bpow 128) by (apply bpow_le; lia). lra. }
  unfold pack.
  destruct (Z.eqb_spec m2 0) as [->|Z2].
  { split; [reflexivity|]. cbn [val]. rewrite F2R_0. reflexivity. }
  destruct (Z.ltb_spec m2 (2 ^ 24)) as [L|L].
  - assert (E : (e1 <= 104)%Z).
    { destruct (Z.eq_dec e1 emin) as [->|Ne]; [unfold emin; lia|].
      assert (bpow (23 + e1) <= F2R m2 e1) by (apply F2R_ge_bpow; [lia|apply Hn; lia]).
      assert (23 + e1 < 128)%Z by (apply bpow_lt_inv; lra). lia. }
    replace (e1 <=? 104)%Z with true by (symmetry; apply Z.leb_le; exact E).
    split.
    + rewrite wf_finite. apply bounded_intro; [lia|lia|exact Hn].
    + cbn [val]. rewrite Z2Pos.id by lia. reflexivity.
  - assert (M : m2 = (2 ^ 24)%Z) by lia. subst m2.
    assert (E : (e1 + 1 <= 104)%Z).
    { assert (bpow (24 + e1) <= F2R (2 ^ 24) e1) by (apply F2R_ge_bpow; lia).
      assert (24 + e1 < 128)%Z by (apply bpow_lt_inv; lra). lia. }
    replace (e1 + 1 <=? 104)%Z with true by (symmetry; apply Z.leb_le; exact E).
    split.
    + rewrite wf_finite. apply bounded_intro; [lia|unfold emin in *; lia|lia].
    + cbn [val]. rewrite Z2Pos.id by lia.
      rewrite <- (F2R_shift (2 ^ 23) e1 1) by lia. reflexivity.
Qed.

Lemma val_nonneg_cases (h : float) :
  wf h = true ->
  (val h <= 0) \/
  (exists mh eh, h = S754_finite false mh eh /\
                 SpecFloat.bounded prec emax mh eh = true /\ val h = F2R (Zpos mh) eh).
Proof.
  destruct h as [s|s| |s mh eh]; cbn [val]; intros W; try (left; lra).
  destruct s.
  - left. rewrite F2R_neg. pose proof (F2R_pos mh eh). lra.
  - right. exists mh, eh. repeat split. exact W.
Qed.

(** Rounding a non-negative exact value: the result lies between any two
    representable numbers that enclose the exact value. *)
Lemma round_aux_between_pos (m e : Z) (l : location) (x : R) (g h : float) :
  (0 <= m)%Z -> (e <= fexp prec emax (Zdigits2 m + e))%Z ->
  F2R m e <= x < F2R (m + 1) e -> (x = F2R m e -> l = loc_Exact) ->
  wf g = true -> wf h = true -> val g <= x <= val h ->
  wf (binary_round_aux prec emax false m e l) = true /\
  val g <= val (binary_round_aux prec emax false m e l) <= val h.
Proof.
  intros Hm Hn Hx Hl Wg Wh [G H].
  destruct (round_aux_shape false m e l Hm ltac:(lia))
    as (E1 & Q24 & Q23 & m2 & Hq & Hex & ->).
  set (e1 := fexp prec emax (Zdigits2 m + e)) in *.
  set (n := (e1 - e)%Z) in *. set (q := (m / 2 ^ n)%Z) in *.
  assert (X0 : 0 <= F2R m e).
  { unfold F2R. pose proof (bpow_gt_0 e). apply IZR_le in Hm. nra. }
  assert (P : wf (pack false m2 e1) = true /\ val (pack false m2 e1) = F2R m2 e1).
  { destruct (val_nonneg_cases h Wh) as [N|(mh & eh & -> & B & V)].
    - assert (X : x = F2R m e) by lra.
      assert (M0 : m = 0%Z).
      { apply Z.le_antisymm; [|exact Hm]. apply (F2R_le_inv _ _ e). rewrite F2R_0. lra. }
      assert (m2 = q).
      { apply Hex; [apply Hl; exact X|]. rewrite M0. apply Z.mod_0_l.
        apply Z.pow_nonzero; lia. }
      assert (q = 0%Z) by (unfold q; rewrite M0; apply Z.div_0_l, Z.pow_nonzero; lia).
      replace m2 with 0%Z by lia. split; [reflexivity|].
      unfold pack. cbn [Z.eqb val]. rewrite F2R_0. reflexivity.
    - apply (pack_finite m2 e1 mh eh); [lia|exact E1|intros L; specialize (Q23 L); lia|exact B|].
      apply enclosure_upper with (l := l) (x := x); try assumption; try lia. }
  destruct P as [W V]. split; [exact W|]. rewrite V. split.
  - destruct (val_nonneg_cases g Wg) as [N|(mg & eg & -> & B & Vg)].
    + assert (0 <= F2R m2 e1); [|lra].
      unfold F2R. pose proof (bpow_gt_0 e1).
      assert (0 <= IZR m2) by (apply IZR_le; lia). nra.
    + rewrite Vg.
      apply enclosure_lower with (x := x); try assumption; try lia.
  - destruct (val_nonneg_cases h Wh) as [N|(mh & eh & -> & B & Vh)].
    + assert (X : x = F2R m e) by lra.
      assert (M0 : m = 0%Z).
      { apply Z.le_antisymm; [|exact Hm]. apply (F2R_le_inv _ _ e). rewrite F2R_0. lra. }
      assert (m2 = q).
      { apply Hex; [apply Hl; exact X|]. rewrite M0. apply Z.mod_0_l.
        apply Z.pow_nonzero; lia. }
      assert (q = 0%Z) by (unfold q; rewrite M0; apply Z.div_0_l, Z.pow_nonzero; lia).
      replace m2 with 0%Z by lia. rewrite F2R_0. lra.
    + rewrite Vh.
      apply enclosure_upper with (l := l) (x := x); try assumption; try lia.
Qed.

Lemma round_aux_opp (m e : Z) (l : location) :
  (0 <= m)%Z -> (e <= fexp prec emax (Zdigits2 m + e))%Z ->
  binary_round_aux prec emax true m e l =
  SFopp (binary_round_aux prec emax false m e l).
Proof.
  intros Hm Hn.
  destruct (round_aux_shape false m e l Hm ltac:(lia))
    as (_ & _ & _ & m2 & Hq & _ & E).
  unfold binary_round_aux in *.
  destruct (shr_fexp prec emax m e l) as [mrs1 e1'].
  destruct (shr_fexp prec emax _ e1' loc_Exact) as [mrs2 e2'].
  destruct (shr_m mrs2); [reflexivity| |reflexivity].
  destruct (e2' <=? emax - prec)%Z; reflexivity.
Qed.

(** The same for either sign. *)
Theorem round_aux_between (s : bool) (m e : Z) (l : location) (x : R)
    (g h : float) :
  (0 <= m)%Z -> (e <= fexp prec emax (Zdigits2 m + e))%Z ->
  F2R m e <= x < F2R (m + 1) e -> (x = F2R m e -> l = loc_Exact) ->
  wf g = true -> wf h = true ->
  val g <= (if s then - x else x) <= val h ->
  wf (binary_round_aux prec emax s m e l) = true /\
  val g <= val (binary_round_aux prec emax s m e l) <= val h.
Proof.
  intros Hm Hn Hx Hl Wg Wh B. destruct s.
  - rewrite round_aux_opp by assumption. rewrite wf_opp, val_opp.
    destruct (round_aux_between_pos m e l x (SFopp h) (SFopp g) Hm Hn Hx Hl) as [W V].
    + rewrite wf_opp. exact Wh.
    + rewrite wf_opp. exact Wg.
    + rewrite !val_opp. lra.
    + rewrite !val_opp in V. split; [exact W|lra].
  - apply round_aux_between_pos with x; assumption.
Qed.

(** ** The operations, between representable bounds *)

Lemma wf_finite_facts (s : bool) (m : positive) (e : Z) :
  wf (S754_finite s m e) = true ->
  (emin <= e <= 104)%Z /\ (Zpos m < 2 ^ 24)%Z /\ (emin < e -> 2 ^ 23 <= Zpos m)%Z.
Proof. rewrite wf_finite. apply bounded_facts. Qed.

Lemma val_finite (s : bool) (m : positive) (e : Z) :
  val (S754_finite s m e) = if s then - F2R (Zpos m) e else F2R (Zpos m) e.
Proof. cbn [val]. destruct s; [apply F2R_neg|reflexivity]. Qed.

Lemma Zdigits2_ge (m k : Z) : (0 <= k)%Z -> (2 ^ k <= m)%Z -> (k + 1 <= Zdigits2 m)%Z.
Proof.
  intros Hk H. assert (Hm : (0 < m)%Z).
  { assert (0 < 2 ^ k)%Z by (apply Z.pow_pos_nonneg; lia). lia. }
  pose proof (Zdigits2_bounds m Hm) as B.
  destruct (Z_lt_le_dec k (Zdigits2 m)) as [L|L]; [lia|].
  assert (2 ^ Zdigits2 m <= 2 ^ k)%Z by (apply Z.pow_le_mono_r; [lia|lia]). lia.
Qed.

Lemma F2R_mul (m1 e1 m2 e2 : Z) : F2R m1 e1 * F2R m2 e2 = F2R (m1 * m2) (e1 + e2).
Proof. unfold F2R. rewrite mult_IZR, bpow_add. ring. Qed.

Lemma F2R_succ_gt (m e : Z) : F2R m e < F2R (m + 1) e.
Proof. unfold F2R. rewrite plus_IZR. pose proof (bpow_gt_0 e). nra. Qed.

Theorem mul_between (a b g h : float) :
  wf a = true -> wf b = true -> wf g = true -> wf h = true ->
  val g <= val a * val b <= val h ->
  wf (F32.mul a b) = true /\
  val g <= val (F32.mul a b) <= val h.
Proof.
  intros Wa Wb Wg Wh B. unfold F32.mul.
  destruct a as [sa|sa| |sa ma ea]; try discriminate Wa;
  destruct b as [sb|sb| |sb mb eb]; try discriminate Wb;
    cbn [SFmul]; try (cbn [val] in *; split; [reflexivity|]; cbn [val]; lra).
  destruct (wf_finite_facts _ _ _ Wa) as (Ea & Ma & Na).
  destruct (wf_finite_facts _ _ _ Wb) as (Eb & Mb & Nb).
  change (Z.pos (ma * mb)) with (Zpos ma * Zpos mb)%Z.
  apply round_aux_between with (x := F2R (Zpos ma * Zpos mb) (ea + eb));
    try assumption.
  - lia.
  - rewrite fexp_eq.
    destruct (Z.eq_dec ea emin) as [A|A]; destruct (Z.eq_dec eb emin) as [A'|A'];
      try (unfold emin in *; lia).
    + assert (24 <= Zdigits2 (Zpos ma * Zpos mb))%Z; [|lia].
      apply (Zdigits2_ge _ 23); [lia|]. specialize (Nb ltac:(lia)). nia.
    + assert (24 <= Zdigits2 (Zpos ma * Zpos mb))%Z; [|lia].
      apply (Zdigits2_ge _ 23); [lia|]. specialize (Na ltac:(lia)). nia.
    + assert (24 <= Zdigits2 (Zpos ma * Zpos mb))%Z; [|lia].
      apply (Zdigits2_ge _ 23); [lia|]. specialize (Na ltac:(lia)). nia.
  - split; [lra|apply F2R_succ_gt].
  - reflexivity.
  - rewrite !val_finite in B. rewrite <- F2R_mul.
    destruct sa, sb; cbn [xorb]; lra.
Qed.

Lemma shl_align_spec (mx : positive) (ex ez : Z) :
  let '(mz, ez') := shl_align mx ex ez in
  F2R (Zpos mz) ez' = F2R (Zpos mx) ex /\
  (ez' <= ex)%Z /\ (ez' <= ez \/ ez' = ex)%Z /\ (ez <= ex -> ez' = ez)%Z /\
  (Zpos (digits2_pos mz) + ez' = Zpos (digits2_pos mx) + ex)%Z.
Proof.
  unfold shl_align. destruct (ez - ex)%Z as [|d|d] eqn:D.
  - repeat split; lia.
  - repeat split; lia.
  - change (Pos.iter xO mx d) with (shift_pos d mx).
    assert (S : Zpos (shift_pos d mx) = (Zpos mx * 2 ^ Zpos d)%Z).
    { rewrite shift_pos_correct. change (Z.pow_pos 2 d) with (2 ^ Zpos d)%Z. lia. }
    assert (E : ex = (ez + Zpos d)%Z) by lia.
    split; [|split; [lia|split; [lia|split; [lia|]]]].
    + rewrite S, F2R_shift by lia. f_equal. lia.
    + pose proof (digits2_pos_bounds mx) as B.
      pose proof (digits2_pos_bounds (shift_pos d mx)) as B'.
      rewrite S in B'.
      set (k := Zpos (digits2_pos mx)) in *.
      change (Zpos (digits2_pos (shift_pos d mx))) with (Zdigits2 (Zpos (shift_pos d mx))).
      rewrite S.
      rewrite (Zdigits2_unique (Zpos mx * 2 ^ Zpos d) (k + Zpos d)); [lia| |lia].
      replace (k + Zpos d - 1)%Z with (k - 1 + Zpos d)%Z by lia.
      rewrite !Z.pow_add_r by (unfold k; lia).
      assert (0 < 2 ^ Zpos d)%Z by (apply Z.pow_pos_nonneg; lia). nia.
Qed.

Lemma round_between (s : bool) (mx : positive) (ex : Z) (g h : float) :
  wf g = true -> wf h = true ->
  val g <= (if s then - F2R (Zpos mx) ex else F2R (Zpos mx) ex) <= val h ->
  wf (binary_round prec emax s mx ex) = true /\
  val g <= val (binary_round prec emax s mx ex) <= val h.
Proof.
  intros Wg Wh B. unfold binary_round.
  pose proof (shl_align_spec mx ex (fexp prec emax (Zpos (digits2_pos mx) + ex))) as S.
  destruct (shl_align mx ex _) as [mz ez].
  destruct S as (V & L1 & L2 & L3 & D).
  apply round_aux_between with (x := F2R (Zpos mz) ez); try assumption.
  - lia.
  - cbn [Zdigits2]. rewrite D. lia.
  - split; [lra|apply F2R_succ_gt].
  - reflexivity.
  - rewrite V. exact B.
Qed.

Theorem normalize_between (m e : Z) (g h : float) :
  wf g = true -> wf h = true -> val g <= F2R m e <= val h ->
  wf (binary_normalize prec emax m e false) = true /\
  val g <= val (binary_normalize prec emax m e false) <= val h.
Proof.
  intros Wg Wh B. destruct m as [|p|p]; cbn [binary_normalize].
  - rewrite F2R_0 in B. split; [reflexivity|exact B].
  - apply round_between; assumption.
  - apply round_between; try assumption. rewrite <- F2R_neg. exact B.
Qed.

Lemma F2R_add (m1 m2 e : Z) : F2R m1 e + F2R m2 e = F2R (m1 + m2) e.
Proof. unfold F2R. rewrite plus_IZR. ring. Qed.

Lemma F2R_opp (m e : Z) : - F2R m e = F2R (- m) e.
Proof. unfold F2R. rewrite opp_IZR. ring. Qed.

Lemma aligned_val (s : bool) (m : positive) (e ez : Z) :
  (ez <= e)%Z ->
  F2R (cond_Zopp s (Zpos (fst (shl_align m e ez)))) ez = val (S754_finite s m e).
Proof.
  intros L. pose proof (shl_align_spec m e ez) as S.
  destruct (shl_align m e ez) as [mz ez']. destruct S as (V & _ & _ & E & _).
  rewrite (E L) in V. cbn [fst]. rewrite val_finite.
  destruct s; cbn [cond_Zopp]; [rewrite <- F2R_opp|]; rewrite V; reflexivity.
Qed.

Theorem add_between (a b g h : float) :
  wf a = true -> wf b = true -> wf g = true -> wf h = true ->
  val g <= val a + val b <= val h ->
  wf (F32.add a b) = true /\
  val g <= val (F32.add a b) <= val h.
Proof.
  intros Wa Wb Wg Wh B. unfold F32.add.
  destruct a as [sa|sa| |sa ma ea]; try discriminate Wa;
  destruct b as [sb|sb| |sb mb eb]; try discriminate Wb; cbn [SFadd].
  - cbn [val] in B. destruct sa, sb; (split; [reflexivity|cbn [val]; lra]).
  - split; [exact Wb|]. cbn [val] in B |- *. lra.
  - split; [exact Wa|]. cbn [val] in B |- *. lra.
  - apply normalize_between; try assumption.
    rewrite <- F2R_add, !aligned_val by lia. exact B.
Qed.

Theorem sub_between (a b g h : float) :
  wf a = true -> wf b = true -> wf g = true -> wf h = true ->
  val g <= val a - val b <= val h ->
  wf (F32.sub a b) = true /\
  val g <= val (F32.sub a b) <= val h.
Proof.
  intros Wa Wb Wg Wh B. unfold F32.sub.
  destruct a as [sa|sa| |sa ma ea]; try discriminate Wa;
  destruct b as [sb|sb| |sb mb eb]; try discriminate Wb; cbn [SFsub].
  - cbn [val] in B. destruct sa, sb; (split; [reflexivity|cbn [val]; lra]).
  - split; [exact Wb|].
    change (S754_finite (negb sb) mb eb) with (SFopp (S754_finite sb mb eb)).
    rewrite val_opp. cbn [val] in B |- *. lra.
  - split; [exact Wa|]. cbn [val] in B |- *. lra.
  - apply normalize_between; try assumption.
    unfold Z.sub. rewrite <- F2R_add, <- F2R_opp, !aligned_val by lia. exact B.
Qed.

Theorem of_int_between (n : Z) (g h : float) :
  wf g = true -> wf h = true -> val g <= IZR n <= val h ->
  wf (F32.of_int n) = true /\
  val g <= val (F32.of_int n) <= val h.
Proof.
  intros Wg Wh B. unfold F32.of_int. apply normalize_between; try assumption.
  unfold F2R, bpow. simpl. lra.
Qed.

Lemma new_location_exact (nb : Z) : new_location nb 0 = loc_Exact.
Proof.
  unfold new_location, new_location_even, new_location_odd.
  destruct (Z.even nb); reflexivity.
Qed.

Lemma div_core_spec (ma mb : positive) (ea eb : Z) :
  let '(q, e', l) := SFdiv_core_binary prec emax (Zpos ma) ea (Zpos mb) eb in
  (0 <= q)%Z /\ (e' <= fexp prec emax (Zdigits2 q + e'))%Z /\
  F2R q e' <= F2R (Zpos ma) ea / F2R (Zpos mb) eb < F2R (q + 1) e' /\
  (F2R (Zpos ma) ea / F2R (Zpos mb) eb = F2R q e' -> l = loc_Exact).
Proof.
  unfold SFdiv_core_binary.
  set (d1 := Zdigits2 (Zpos ma)). set (d2 := Zdigits2 (Zpos mb)).
  set (mu := (d1 + ea - (d2 + eb))%Z).
  set (e' := Z.min (fexp prec emax mu) (ea - eb)).
  set (s := (ea - eb - e')%Z).
  assert (S0 : (0 <= s)%Z) by (unfold s, e'; lia).
  set (m' := match s with
             | 0%Z => Zpos ma
             | Zpos _ => Z.shiftl (Zpos ma) s
             | Zneg _ => 0%Z
             end).
  assert (M' : m' = (Zpos ma * 2 ^ s)%Z).
  { unfold m'. destruct s as [|p|p] eqn:Es; [lia| |lia].
    rewrite Z.shiftl_mul_pow2 by lia. reflexivity. }
  pose proof (Z_div_mod m' (Zpos mb) ltac:(lia)) as DM.
  destruct (Z.div_eucl m' (Zpos mb)) as [q r]. destruct DM as [DM Rr].
  assert (P2 : (0 < 2 ^ s)%Z) by (apply Z.pow_pos_nonneg; lia).
  assert (Q0 : (0 <= q)%Z) by nia.
  pose proof (bpow_gt_0 e') as Be. pose proof (bpow_gt_0 eb) as Bb.
  assert (Mb : 0 < IZR (Zpos mb)) by (apply IZR_lt; lia).
  set (x := F2R (Zpos ma) ea / F2R (Zpos mb) eb).
  assert (X : x * IZR (Zpos mb) = IZR m' * bpow e').
  { unfold x, F2R. rewrite M', mult_IZR, <- bpow_Z by exact S0.
    replace ea with (e' + s + eb)%Z by (unfold s; lia).
    rewrite !bpow_add. field. split; lra. }
  assert (IM : IZR m' = IZR (Zpos mb) * IZR q + IZR r).
  { rewrite DM, plus_IZR, mult_IZR. reflexivity. }
  assert (R0 : 0 <= IZR r) by (apply IZR_le; lia).
  assert (R1 : IZR r < IZR (Zpos mb)) by (apply IZR_lt; lia).
  split; [exact Q0|]. split; [|split; [split|]].
  - rewrite fexp_eq.
    destruct (Z_le_gt_dec e' emin) as [L|L]; [lia|].
    assert (E : (e' <= mu - 24)%Z) by (unfold e' in *; rewrite fexp_eq in *; lia).
    assert (24 <= Zdigits2 q)%Z; [|lia].
    apply (Zdigits2_ge _ 23); [lia|].
    pose proof (digits2_pos_bounds ma) as B1. pose proof (digits2_pos_bounds mb) as B2.
    fold (Zdigits2 (Zpos ma)) in B1. fold (Zdigits2 (Zpos mb)) in B2.
    fold d1 in B1. fold d2 in B2.
    assert (D1 : (0 < d1)%Z) by (unfold d1; cbn; lia).
    assert (D2 : (0 < d2)%Z) by (unfold d2; cbn; lia).
    assert (S1 : (23 + d2 <= d1 - 1 + s)%Z) by (unfold s, mu in *; lia).
    assert (T : (2 ^ 23 * Zpos mb <= m')%Z).
    { rewrite M'.
      assert (2 ^ 23 * Zpos mb <= 2 ^ (23 + d2))%Z.
      { rewrite Z.pow_add_r by lia. nia. }
      assert (2 ^ (23 + d2) <= 2 ^ (d1 - 1 + s))%Z by (apply Z.pow_le_mono_r; lia).
      assert (2 ^ (d1 - 1 + s) <= Zpos ma * 2 ^ s)%Z.
      { rewrite Z.pow_add_r by lia. nia. }
      lia. }
    nia.
  - apply Rmult_le_reg_r with (IZR (Zpos mb)); [exact Mb|].
    rewrite X, IM. unfold F2R. nra.
  - apply Rmult_lt_reg_r with (IZR (Zpos mb)); [exact Mb|].
    rewrite X, IM. unfold F2R. rewrite plus_IZR. nra.
  - intros E. assert (Z : r = 0%Z); [|rewrite Z; apply new_location_exact].
    assert (IZR r = 0); [|apply eq_IZR; assumption].
    rewrite E in X. unfold F2R in X. rewrite IM in X. nra.
Qed.

Theorem div_between (a b g h : float) :
  wf a = true -> wf b = true -> val b <> 0 -> wf g = true -> wf h = true ->
  val g <= val a / val b <= val h ->
  wf (F32.div a b) = true /\
  val g <= val (F32.div a b) <= val h.
Proof.
  intros Wa Wb Nb Wg Wh B. unfold F32.div.
  destruct b as [sb|sb| |sb mb eb]; try discriminate Wb; [cbn [val] in Nb; lra|].
  destruct a as [sa|sa| |sa ma ea]; try discriminate Wa; cbn [SFdiv].
  - split; [reflexivity|]. cbn [val] in B |- *.
    replace (0 / F2R (if sb then Z.neg mb else Z.pos mb) eb) with 0 in B; [exact B|].
    unfold Rdiv. ring.
  - pose proof (div_core_spec ma mb ea eb) as S.
    destruct (SFdiv_core_binary prec emax (Zpos ma) ea (Zpos mb) eb) as [[q e'] l].
    destruct S as (Q0 & Pre & Hx & Hl).
    apply round_aux_between with (x := F2R (Zpos ma) ea / F2R (Zpos mb) eb);
      try assumption.
    rewrite !val_finite in B.
    pose proof (F2R_pos mb eb) as Pb.
    destruct sa, sb; cbn [xorb].
    + replace (F2R (Zpos ma) ea / F2R (Zpos mb) eb)
        with (- F2R (Zpos ma) ea / - F2R (Zpos mb) eb) by (field; lra). exact B.
    + replace (- (F2R (Zpos ma) ea / F2R (Zpos mb) eb))
        with (- F2R (Zpos ma) ea / F2R (Zpos mb) eb) by (field; lra). exact B.
    + replace (- (F2R (Zpos ma) ea / F2R (Zpos mb) eb))
        with (F2R (Zpos ma) ea / - F2R (Zpos mb) eb) by (field; lra). exact B.
    + exact B.
Qed.

(** ** Comparisons *)

Lemma canonical_lt (m1 m2 : positive) (e1 e2 : Z) :
  SpecFloat.bounded prec emax m1 e1 = true ->
  SpecFloat.bounded prec emax m2 e2 = true ->
  (e1 < e2)%Z -> F2R (Zpos m1) e1 < F2R (Zpos m2) e2.
Proof.
  intros B1 B2 L.
  destruct (bounded_facts _ _ B1) as (E1 & M1 & _).
  destruct (bounded_facts _ _ B2) as (E2 & _ & N2).
  assert (F2R (Zpos m1) e1 < bpow (24 + e1)) by (apply F2R_lt_bpow; lia).
  assert (bpow (24 + e1) <= bpow (23 + e2)) by (apply bpow_le; lia).
  assert (bpow (23 + e2) <= F2R (Zpos m2) e2) by (apply F2R_ge_bpow; [lia|apply N2; lia]).
  lra.
Qed.

Lemma compare_pos (m1 m2 : positive) (e1 e2 : Z) :
  SpecFloat.bounded prec emax m1 e1 = true ->
  SpecFloat.bounded prec emax m2 e2 = true ->
  match (match (e1 ?= e2)%Z with
         | Lt => Lt
         | Gt => Gt
         | Eq => Pos.compare_cont Eq m1 m2
         end) with
  | Lt => F2R (Zpos m1) e1 < F2R (Zpos m2) e2
  | Eq => F2R (Zpos m1) e1 = F2R (Zpos m2) e2
  | Gt => F2R (Zpos m2) e2 < F2R (Zpos m1) e1
  end.
Proof.
  intros B1 B2. destruct (Z.compare_spec e1 e2) as [E|L|L].
  - subst e2. change (Pos.compare_cont Eq m1 m2) with (Pos.compare m1 m2).
    destruct (Pos.compare_spec m1 m2) as [E|L|L].
    + subst. reflexivity.
    + assert (Zpos m1 + 1 <= Zpos m2)%Z as L' by lia.
      apply (F2R_le _ _ e1) in L'. pose proof (F2R_succ_gt (Zpos m1) e1). lra.
    + assert (Zpos m2 + 1 <= Zpos m1)%Z as L' by lia.
      apply (F2R_le _ _ e1) in L'. pose proof (F2R_succ_gt (Zpos m2) e1). lra.
  - apply canonical_lt; assumption.
  - apply canonical_lt; assumption.
Qed.

Theorem compare_val (a b : float) :
  wf a = true -> wf b = true ->
  match SFcompare a b with
  | Some Lt => val a < val b
  | Some Eq => val a = val b
  | Some Gt => val b < val a
  | None => False
  end.
Proof.
  intros Wa Wb.
  destruct a as [sa|sa| |sa ma ea]; try discriminate Wa;
  destruct b as [sb|sb| |sb mb eb]; try discriminate Wb; cbn [SFcompare].
  - reflexivity.
  - rewrite val_finite. pose proof (F2R_pos mb eb). cbn [val]. destruct sb; lra.
  - rewrite val_finite. pose proof (F2R_pos ma ea). cbn [val]. destruct sa; lra.
  - rewrite !val_finite. rewrite wf_finite in Wa, Wb.
    pose proof (F2R_pos ma ea). pose proof (F2R_pos mb eb).
    pose proof (compare_pos ma mb ea eb Wa Wb) as C.
    destruct sa, sb; try lra.
    + destruct (ea ?= eb)%Z; [|lra|lra].
      destruct (Pos.compare_cont Eq ma mb); cbn [CompOpp]; lra.
    + exact C.
Qed.

End F32Facts.

(** ** Machine integers *)

Lemma wrap_int_small (z : Z) : INT_MIN <= z <= INT_MAX -> wrap_int z = z.
Proof.
  unfold INT_MIN, INT_MAX, wrap_int, DWORD_MOD. intros H.
  rewrite Z.mod_small; lia.
Qed.

Lemma wrap_int_above (z : Z) :
  INT_MAX < z <= INT_MAX + DWORD_MOD -> wrap_int z = z - DWORD_MOD.
Proof.
  unfold INT_MIN, INT_MAX, wrap_int, DWORD_MOD. intros H.
  replace (z + 2147483648) with (z - 2147483648 + 1 * 4294967296) by lia.
  rewrite Z.mod_add by lia. rewrite Z.mod_small; lia.
Qed.

Lemma wrap_int_range (z : Z) : INT_MIN <= wrap_int z <= INT_MAX.
Proof.
  unfold INT_MIN, INT_MAX, wrap_int, DWORD_MOD.
  pose proof (Z.mod_pos_bound (z + 2147483648) 4294967296). lia.
Qed.

(** ** The run of bytes splits as the buffer and the DSP *)

Lemma feed_bytes_app (b : line_buf) (xs ys : list ascii) :
  feed_bytes b (xs ++ ys) =
  let '(b1, r1) := feed_bytes b xs in
  let '(b2, r2) := feed_bytes b1 ys in
  (b2, r1 ++ r2).
Proof.
  revert b. induction xs as [|x xs IH]; intros b; simpl.
  - destruct (feed_bytes b ys); reflexivity.
  - destruct (feed_byte b x) as [b1 r]. rewrite IH.
    destruct (feed_bytes b1 xs) as [b2 r1].
    destruct (feed_bytes b2 ys) as [b3 r2]. reflexivity.
Qed.

Lemma process_bytes_app (s : state) (xs ys : list ascii) :
  process_bytes s (xs ++ ys) =
  let '(s1, e1) := process_bytes s xs in
  let '(s2, e2) := process_bytes s1 ys in
  (s2, e1 ++ e2).
Proof.
  revert s. induction xs as [|x xs IH]; intros s; simpl.
  - destruct (process_bytes s ys); reflexivity.
  - destruct (process_byte s x) as [s1 e]. rewrite IH.
    destruct (process_bytes s1 xs) as [s2 e1].
    destruct (process_bytes s2 ys) as [s3 e2].
    rewrite app_assoc. reflexivity.
Qed.


(** The byte loop is the buffer followed by the DSP on what it yields. *)
Lemma process_bytes_split (s : state) (cs : list ascii) :
  process_bytes s cs =
  let '(b, rs) := feed_bytes (st_buf s) cs in
  let '(d, ev) := run_results (st_dsp s) rs in
  ({| st_dsp := d; st_buf := b |}, ev).
Proof.
  revert s. induction cs as [|c cs IH]; intros [d b]; simpl.
  - reflexivity.
  - unfold process_byte; simpl.
    destruct (feed_byte b c) as [b1 r].
    destruct r as [line| |].
    + destruct (process_line d line) as [d1 e1] eqn:E.
      rewrite IH; cbn [st_buf st_dsp].
      destruct (feed_bytes b1 cs) as [b2 rs]. cbn [run_results]. rewrite E.
      destruct (run_results d1 rs) as [d2 e2]. reflexivity.
    + rewrite IH; cbn [st_buf st_dsp].
      destruct (feed_bytes b1 cs) as [b2 rs]. cbn [run_results].
      destruct (run_results d rs) as [d2 e2]. reflexivity.
    + rewrite IH; cbn [st_buf st_dsp].
      destruct (feed_bytes b1 cs) as [b2 rs]. cbn [run_results].
      destruct (run_results d rs) as [d2 e2]. reflexivity.
Qed.

Lemma lines_of_app (xs ys : list feed_result) :
  lines_of (xs ++ ys) = lines_of xs ++ lines_of ys.
Proof.
  induction xs as [|[l| |] xs IH]; simpl; [reflexivity| |assumption|assumption].
  rewrite IH. reflexivity.
Qed.

Lemma overflows_of_app (xs ys : list feed_result) :
  overflows_of (xs ++ ys) = (overflows_of xs + overflows_of ys)%nat.
Proof.
  induction xs as [|[l| |] xs IH]; simpl; [reflexivity|assumption| |assumption].
  rewrite IH. reflexivity.
Qed.

(** ** Polls that deliver bytes *)

Lemma take_deliver (cs : list ascii) :
  take (Z.to_nat (n_bytes (deliver cs))) (chunk (deliver cs)) = cs.
Proof. simpl. rewrite Nat2Z.id. apply firstn_all. Qed.

Lemma loop_iter_deliver (s : state) (cs : list ascii) :
  loop_iter s (deliver cs) =
  let '(s', ev) := process_bytes s cs in (s', ev, false).
Proof.
  unfold loop_iter. rewrite take_deliver.
  destruct cs as [|c cs].
  - reflexivity.
  - replace (0 <? n_bytes (deliver (c :: cs))) with true; [reflexivity|].
    symmetry. apply Z.ltb_lt. simpl. lia.
Qed.

Lemma main_loop_deliver (s : state) (chunks : list (list ascii)) (a b : Z) :
  main_loop s (map deliver chunks) a b =
  let '(s', ev) := process_bytes s (concat chunks) in (s', ev, None).
Proof.
  revert s. induction chunks as [|cs chunks IH]; intros s.
  - reflexivity.
  - cbn [map main_loop concat]. rewrite loop_iter_deliver, process_bytes_app.
    destruct (process_bytes s cs) as [s1 e1]. rewrite IH.
    destruct (process_bytes s1 (concat chunks)) as [s2 e2]. reflexivity.
Qed.

Lemma feed_polls_deliver (b : line_buf) (chunks : list (list ascii)) :
  feed_polls b (map deliver chunks) = feed_bytes b (concat chunks).
Proof.
  revert b. induction chunks as [|cs chunks IH]; intros b.
  - reflexivity.
  - cbn [map feed_polls concat]. rewrite take_deliver, feed_bytes_app.
    destruct cs as [|c cs].
    + simpl. rewrite IH. destruct (feed_bytes b (concat chunks)); reflexivity.
    + replace (0 <? n_bytes (deliver (c :: cs))) with true
        by (symmetry; apply Z.ltb_lt; simpl; lia).
      destruct (feed_bytes b (c :: cs)) as [b1 r1]. rewrite IH.
      destruct (feed_bytes b1 (concat chunks)); reflexivity.
Qed.

(** The buffer side of the polling loop is what the loop does to the buffer. *)
Lemma main_loop_buffer (s : state) (chunks : list (list ascii)) (a b : Z) :
  st_buf (main_loop s (map deliver chunks) a b).1.1 =
  (feed_polls (st_buf s) (map deliver chunks)).1.
Proof.
  rewrite main_loop_deliver, feed_polls_deliver, process_bytes_split.
  destruct (feed_bytes (st_buf s) (concat chunks)) as [b1 rs].
  destruct (run_results (st_dsp s) rs); reflexivity.
Qed.

(** C4. Chunk-boundary invariance: however a byte sequence is cut into the
    chunks of successive polls, empty polls included, the line buffer yields
    the same completed lines, in the same order, as when the bytes come in a
    single chunk, and ends in the same state; so does the whole loop, with the
    same trace. *)
Theorem chunk_boundary_invariance (b : line_buf) (s : state)
    (chunks : list (list ascii)) (a c : Z) :
  lines_of (feed_polls b (map deliver chunks)).2 =
    lines_of (feed_polls b [deliver (concat chunks)]).2 /\
  feed_polls b (map deliver chunks) = feed_polls b [deliver (concat chunks)] /\
  main_loop s (map deliver chunks) a c =
    main_loop s [deliver (concat chunks)] a c.
Proof.
  assert (E : feed_polls b (map deliver chunks) =
              feed_polls b [deliver (concat chunks)]).
  { rewrite feed_polls_deliver.
    change [deliver (concat chunks)] with (map deliver [concat chunks]).
    rewrite feed_polls_deliver. simpl. rewrite app_nil_r. reflexivity. }
  split; [rewrite E; reflexivity|]. split; [exact E|].
  rewrite main_loop_deliver.
  change [deliver (concat chunks)] with (map deliver [concat chunks]).
  rewrite main_loop_deliver. simpl. rewrite app_nil_r. reflexivity.
Qed.

(** ** One line: what [sscanf] leaves, and what the sample does *)

Lemma sscanf_short (line : list ascii) (n r i : Z) :
  sscanf_d_comma_d line 0 0 = (n, r, i) -> n < 2 ->
  i = 0 /\ (n = 0 -> r = 0).
Proof.
  unfold sscanf_d_comma_d. intros E Hn.
  destruct (scan_d line) as [[r1 rest]|].
  - destruct rest as [|c rest'].
    + inversion E; subst. split; [reflexivity|lia].
    + destruct (Ascii.eqb c ","%char).
      * destruct (scan_d rest') as [[i1 rest2]|]; inversion E; subst;
          [lia | split; [reflexivity|lia]].
      * inversion E; subst. split; [reflexivity|lia].
  - inversion E; subst. split; reflexivity.
Qed.

Lemma feed_byte_LF (b : line_buf) :
  feed_byte b LF =
  ({| buffer := <[buffer_index b := NUL]> (buffer b); buffer_index := 0 |},
   Line (current_line b)).
Proof. reflexivity. Qed.

Lemma process_byte_LF (s : state) :
  process_byte s LF =
  let '(d', ev) := process_line (st_dsp s) (current_line (st_buf s)) in
  ({| st_dsp := d';
      st_buf := {| buffer := <[buffer_index (st_buf s) := NUL]> (buffer (st_buf s));
                   buffer_index := 0 |} |}, ev).
Proof. unfold process_byte. rewrite feed_byte_LF. reflexivity. Qed.

(** The heart-rate estimate touches the two heart-rate fields only. *)
Lemma estimate_hr_frame (d : dsp) :
  let d' := (estimate_hr d).1 in
  red_raw d' = red_raw d /\ ir_raw d' = ir_raw d /\ ir_filt d' = ir_filt d /\
  sample_idx d' = sample_idx d /\ last_peak d' = last_peak d /\
  prev_peak d' = prev_peak d /\ prev_ir_filt d' = prev_ir_filt d /\
  proc_val d' = proc_val d /\
  csv_of (estimate_hr d).2 = [] /\ peaks_of (estimate_hr d).2 = [].
Proof.
  unfold estimate_hr.
  destruct (0 <=? prev_peak d); [|cbn; tauto].
  destruct (plausible _); cbn; tauto.
Qed.

(** The detector leaves the filter and the sample counter alone, and writes
    nothing to the file. *)
Lemma detect_peak_frame (d : dsp) :
  let d' := (detect_peak d).1 in
  red_raw d' = red_raw d /\ ir_raw d' = ir_raw d /\ ir_filt d' = ir_filt d /\
  sample_idx d' = sample_idx d /\ prev_ir_filt d' = prev_ir_filt d /\
  proc_val d' = proc_val d /\ csv_of (detect_peak d).2 = [].
Proof.
  unfold detect_peak.
  destruct (crossing d); [|cbn; tauto].
  destruct (outside_refractory d); [|cbn; tauto].
  match goal with |- context [estimate_hr ?x] =>
    pose proof (estimate_hr_frame x) as F; destruct (estimate_hr x) as [d2 ev]
  end.
  cbn in *. tauto.
Qed.

Lemma csv_of_app (xs ys : list event) :
  csv_of (xs ++ ys) = csv_of xs ++ csv_of ys.
Proof. apply omap_app. Qed.

Lemma peaks_of_app (xs ys : list event) :
  peaks_of (xs ++ ys) = peaks_of xs ++ peaks_of ys.
Proof. apply omap_app. Qed.

Lemma process_sample_facts (d : dsp) (r i : Z) :
  let d' := (process_sample d r i).1 in
  d' = end_sample (detect_peak (load_sample d r i)).1 /\
  red_raw d' = F32.of_int r /\ ir_raw d' = F32.of_int i /\
  ir_filt d' = low_pass (ir_filt d) (F32.of_int i) /\
  prev_ir_filt d' = ir_filt d' /\ proc_val d' = ir_filt d' /\
  sample_idx d' = wrap_int (sample_idx d + 1) /\
  csv_of (process_sample d r i).2 = [ir_filt d'].
Proof.
  unfold process_sample.
  pose proof (detect_peak_frame (load_sample d r i)) as F.
  destruct (detect_peak (load_sample d r i)) as [d2 ev].
  cbn [fst snd] in F. destruct F as (F1 & F2 & F3 & F4 & F5 & F6 & F7).
  cbn [fst snd end_sample red_raw ir_raw ir_filt prev_ir_filt proc_val sample_idx].
  rewrite F1, F2, F3, F4.
  repeat split; try reflexivity.
  change (csv_of (ev ++ [Csv_write (low_pass (ir_filt d) (F32.of_int i))]) =
          [low_pass (ir_filt d) (F32.of_int i)]).
  rewrite csv_of_app, F7. reflexivity.
Qed.

(** A newline on a line from which fewer than two integers are read: the
    missing ones are 0, and the line goes through [process_sample]. *)
Lemma short_record_facts (s : state) (n r i : Z) :
  sscanf_d_comma_d (current_line (st_buf s)) 0 0 = (n, r, i) -> n < 2 ->
  i = 0 /\ (n = 0 -> r = 0) /\
  let '(s', ev) := process_byte s LF in
  let d := st_dsp s in
  let d' := st_dsp s' in
  (d', ev) = process_sample d r 0 /\
  d' = end_sample (detect_peak (load_sample d r 0)).1 /\
  red_raw d' = F32.of_int r /\ ir_raw d' = F32.of_int 0 /\
  ir_filt d' = low_pass (ir_filt d) (F32.of_int 0) /\
  prev_ir_filt d' = ir_filt d' /\
  csv_of ev = [ir_filt d'] /\
  sample_idx d' = wrap_int (sample_idx d + 1).
Proof.
  intros E Hn. destruct (sscanf_short _ _ _ _ E Hn) as [Hi Hr]. subst i.
  split; [reflexivity|]. split; [exact Hr|].
  rewrite process_byte_LF. unfold process_line. rewrite E.
  pose proof (process_sample_facts (st_dsp s) r 0) as F.
  destruct (process_sample (st_dsp s) r 0) as [d' ev].
  cbn [fst snd] in F. cbn [st_dsp]. tauto.
Qed.

(** C1, as stated, fails: on "abc,def" after the sample "0,50", the filtered
    value goes from 10 to 8, a value is written to the file and the sample
    index goes from 1 to 2. *)
Lemma malformed_record_not_skipped : ~ malformed_records_skipped.
Proof.
  intros H. specialize (H before_abc_def).
  assert (L : items (current_line (st_buf before_abc_def)) < 2)
    by (vm_compute; reflexivity).
  specialize (H L). vm_compute in H. destruct H as [_ H]. discriminate H.
Qed.

(** ** The refractory gate *)

Lemma feed_bytes_length (b : line_buf) (cs : list ascii) :
  length (feed_bytes b cs).2 = length cs.
Proof.
  revert b. induction cs as [|c cs IH]; intros b; simpl; [reflexivity|].
  destruct (feed_byte b c) as [b1 r]. specialize (IH b1).
  destruct (feed_bytes b1 cs) as [b2 rs]. simpl in *. lia.
Qed.

(** With the counter in range and the last peak behind it, passing the test
    of line 149 means a true distance above [refractory_n]. *)
Lemma outside_refractory_true (d : dsp) :
  0 <= sample_idx d <= INT_MAX -> NO_PEAK <= last_peak d < sample_idx d ->
  outside_refractory d = true -> refractory_n < sample_idx d - last_peak d.
Proof.
  unfold outside_refractory, NO_PEAK, INT_MAX. rewrite refractory_n_eq.
  intros Hs Hl H. apply Z.ltb_lt in H.
  destruct (Z_le_gt_dec (sample_idx d - last_peak d) INT_MAX) as [Hle|Hgt].
  - rewrite wrap_int_small in H; [exact H|]. unfold INT_MIN, INT_MAX in *. lia.
  - rewrite wrap_int_above in H; unfold INT_MIN, INT_MAX, DWORD_MOD in *; lia.
Qed.

(** What one sample does to the peak indices. *)
Lemma process_sample_peak (d : dsp) (r i : Z) :
  let d' := (process_sample d r i).1 in
  let pk := peaks_of (process_sample d r i).2 in
  sample_idx d' = wrap_int (sample_idx d + 1) /\
  ((pk = [] /\ last_peak d' = last_peak d /\ prev_peak d' = prev_peak d /\
    crossing (load_sample d r i) && outside_refractory (load_sample d r i) = false) \/
   (pk = [sample_idx d] /\ last_peak d' = sample_idx d /\
    prev_peak d' = last_peak d /\
    crossing (load_sample d r i) = true /\
    outside_refractory (load_sample d r i) = true)).
Proof.
  unfold process_sample, detect_peak.
  destruct (crossing (load_sample d r i)) eqn:Hc;
    [destruct (outside_refractory (load_sample d r i)) eqn:Ho|].
  - match goal with |- context [estimate_hr ?x] =>
      pose proof (estimate_hr_frame x) as F; destruct (estimate_hr x) as [d2 ev]
    end.
    cbn [fst snd] in F.
    destruct F as (_ & _ & _ & F4 & F5 & F6 & _ & _ & _ & F10).
    cbn [fst snd end_sample sample_idx last_peak prev_peak load_sample] in *.
    rewrite F4. split; [reflexivity|]. right.
    rewrite F5, F6. repeat split.
    change (peaks_of ((Peak_accepted (sample_idx d) :: ev) ++ [Csv_write (ir_filt d2)])
            = [sample_idx d]).
    rewrite peaks_of_app.
    change (peaks_of (Peak_accepted (sample_idx d) :: ev))
      with (sample_idx d :: peaks_of ev).
    rewrite F10. reflexivity.
  - cbn. split; [reflexivity|]. left. repeat split.
  - cbn. split; [reflexivity|]. left. repeat split.
Qed.

Lemma peaks_apart_cons (p : Z) (pk : list Z) :
  Forall (fun q => refractory_n < q - p) pk -> peaks_apart pk ->
  peaks_apart (p :: pk).
Proof.
  intros Hall Hpk i j a b Hij Hi Hj.
  destruct j as [|j]; [lia|]. cbn in Hj.
  destruct i as [|i]; cbn in Hi.
  - inversion Hi; subst a.
    rewrite Forall_forall in Hall. apply Hall.
    apply list_elem_of_lookup. exists j. exact Hj.
  - apply (Hpk i j); [lia|assumption|assumption].
Qed.

Lemma run_results_peaks (rs : list feed_result) (d : dsp) :
  0 <= sample_idx d -> sample_idx d + Z.of_nat (length rs) <= INT_MAX ->
  NO_PEAK <= last_peak d < sample_idx d ->
  let pk := peaks_of (run_results d rs).2 in
  peaks_apart pk /\ Forall (fun q => refractory_n < q - last_peak d) pk.
Proof.
  revert d. induction rs as [|r rs IH]; intros d H0 Hlen Hl.
  - cbn. split; [|constructor]. intros i j p q _ Hi. destruct i; discriminate Hi.
  - cbn [run_results]. cbn [length] in Hlen.
    destruct r as [line| |].
    + unfold process_line.
      destruct (sscanf_d_comma_d line 0 0) as [[n r] i].
      pose proof (process_sample_peak d r i) as P.
      assert (Ho := outside_refractory_true (load_sample d r i)).
      destruct (process_sample d r i) as [d1 ev1]. cbn [fst snd] in P.
      destruct P as [Hidx P].
      rewrite wrap_int_small in Hidx by (unfold INT_MIN, INT_MAX in *; lia).
      specialize (IH d1).
      destruct (run_results d1 rs) as [d2 ev2]. cbn [fst snd] in *.
      rewrite peaks_of_app.
      destruct P as [(Hpk & Hlp & _) | (Hpk & Hlp & _ & _ & Hout)].
      * rewrite Hpk, Hlp in *. cbn [app]. apply IH; lia.
      * rewrite Hpk. cbn [app]. rewrite Hlp in IH.
        destruct IH as [IH1 IH2]; [lia..|].
        cbn [load_sample sample_idx last_peak] in Ho.
        assert (G : refractory_n < sample_idx d - last_peak d)
          by (apply Ho; [lia|lia|exact Hout]).
        split.
        -- apply peaks_apart_cons; assumption.
        -- constructor; [exact G|].
           eapply Forall_impl; [exact IH2|]. cbn. intros q Hq.
           rewrite refractory_n_eq in *. lia.
    + specialize (IH d). destruct (run_results d rs) as [d2 ev2].
      cbn [fst snd] in *. apply IH; lia.
    + specialize (IH d). destruct (run_results d rs) as [d2 ev2].
      cbn [fst snd] in *. apply IH; lia.
Qed.

(** C2. In a run from the initial state (short enough for [sample_idx] to stay
    an [int]) any two accepted peaks are more than [refractory_n] = 30 sample
    indices apart; and a threshold crossing at a sample whose distance to
    [last_peak] is at most [refractory_n] leaves [last_peak] and [prev_peak]
    as they were, and accepts no peak. *)
Theorem refractory_invariant (mem cs : list ascii) :
  Z.of_nat (length cs) <= INT_MAX ->
  peaks_apart (peaks_of (process_bytes (init_state mem) cs).2) /\
  refractory_n = 30 /\
  forall (d : dsp) (r i : Z),
    crossing (load_sample d r i) = true ->
    wrap_int (sample_idx d - last_peak d) <= refractory_n ->
    last_peak (process_sample d r i).1 = last_peak d /\
    prev_peak (process_sample d r i).1 = prev_peak d /\
    peaks_of (process_sample d r i).2 = [].
Proof.
  intros Hlen. split; [|split; [reflexivity|]].
  - rewrite process_bytes_split. cbn [init_state st_buf st_dsp].
    pose proof (feed_bytes_length {| buffer := mem; buffer_index := 0 |} cs) as L.
    destruct (feed_bytes {| buffer := mem; buffer_index := 0 |} cs) as [b rs].
    cbn [snd] in L.
    pose proof (run_results_peaks rs init_dsp) as P.
    destruct (run_results init_dsp rs) as [d ev]. cbn [fst snd] in *.
    apply P; cbn; unfold NO_PEAK; lia.
  - intros d r i Hc Hw.
    pose proof (process_sample_peak d r i) as P. cbn zeta in P.
    destruct P as [_ [(Hpk & Hl & Hp) | (_ & _ & _ & _ & Hout)]]; [tauto|].
    unfold outside_refractory in Hout. cbn [load_sample sample_idx last_peak] in Hout.
    apply Z.ltb_lt in Hout. lia.
Qed.

Example two_beats_peaks :
  peaks_of (process_bytes (init_state (replicate BUFFER_SIZE NUL)) two_beats).2
  = [0; 41].
Proof. vm_compute. reflexivity. Qed.

Lemma refractory_invariant_witness :
  Z.of_nat (length two_beats) <= INT_MAX /\
  peaks_apart
    (peaks_of (process_bytes (init_state (replicate BUFFER_SIZE NUL)) two_beats).2).
Proof.
  split; [vm_compute; discriminate|].
  apply (refractory_invariant (replicate BUFFER_SIZE NUL) two_beats).
  vm_compute; discriminate.
Defined.

(** ** The heart-rate estimate *)

(** What one sample does to the two heart-rate fields: either a peak was
    accepted after an earlier one and its rate is plausible, and both fields
    are set from it; or both fields are as before. *)
Lemma process_sample_hr (d : dsp) (r i : Z) :
  let d' := (process_sample d r i).1 in
  let ev := (process_sample d r i).2 in
  let hr := inst_hr (wrap_int (sample_idx d - last_peak d)) in
  (In (Peak_accepted (sample_idx d)) ev /\ 0 <= last_peak d /\
   plausible hr = true /\
   hr_bpm d' = hr /\ hr_bpm_filt d' = smooth_hr (hr_bpm_filt d) hr /\
   In (Print_hr (hr_bpm_filt d')) ev) \/
  (hr_bpm d' = hr_bpm d /\ hr_bpm_filt d' = hr_bpm_filt d /\
   (plausible hr = true ->
    crossing (load_sample d r i) = true ->
    outside_refractory (load_sample d r i) = true -> last_peak d < 0)).
Proof.
  unfold process_sample, detect_peak.
  destruct (crossing (load_sample d r i)) eqn:Hc;
    [destruct (outside_refractory (load_sample d r i)) eqn:Ho|];
    [|right; cbn; repeat split; discriminate..].
  unfold estimate_hr.
  cbn [load_sample prev_peak last_peak sample_idx hr_bpm_filt].
  destruct (0 <=? last_peak d) eqn:Hp.
  - destruct (plausible (inst_hr (wrap_int (sample_idx d - last_peak d)))) eqn:Hpl.
    + left. cbn. apply Z.leb_le in Hp.
      repeat split; try assumption; auto.
    + right. cbn. repeat split. discriminate.
  - right. cbn. repeat split. intros _ _ _. apply Z.leb_gt in Hp. exact Hp.
Qed.

Lemma process_byte_not_LF (s : state) (c : ascii) :
  Ascii.eqb c LF = false ->
  st_dsp (process_byte s c).1 = st_dsp s.
Proof.
  intros H. unfold process_byte, feed_byte. rewrite H.
  destruct (buffer_index (st_buf s) <? BUFFER_SIZE - 1)%nat; reflexivity.
Qed.

Lemma plausible_split (hr : float) :
  plausible hr = true -> F32.gt hr min_hr_bpm = true /\ F32.lt hr max_hr_bpm = true.
Proof. unfold plausible. intros H. apply andb_true_iff in H. exact H. Qed.

(** C3. [hr_bpm_filt] changes across a byte only if that byte is the newline
    of a sample at which a peak was accepted, an earlier peak exists, and the
    instantaneous rate is above 40 and below 200, both strictly; 40 and 200
    themselves are rejected; and whenever the instantaneous rate is outside
    the open range, [hr_bpm] and [hr_bpm_filt] are both left as they were. *)
Theorem smoothed_hr_changes_only_on_plausible_peak (s : state) (c : ascii) :
  let '(s', ev) := process_byte s c in
  let d := st_dsp s in
  let d' := st_dsp s' in
  let hr := inst_hr (wrap_int (sample_idx d - last_peak d)) in
  (hr_bpm_filt d' <> hr_bpm_filt d ->
     c = LF /\ In (Peak_accepted (sample_idx d)) ev /\ 0 <= last_peak d /\
     F32.gt hr min_hr_bpm = true /\ F32.lt hr max_hr_bpm = true /\
     hr_bpm d' = hr /\ hr_bpm_filt d' = smooth_hr (hr_bpm_filt d) hr) /\
  (plausible hr = false ->
     hr_bpm d' = hr_bpm d /\ hr_bpm_filt d' = hr_bpm_filt d) /\
  plausible min_hr_bpm = false /\ plausible max_hr_bpm = false.
Proof.
  destruct (Ascii.eqb c LF) eqn:Hc.
  - apply Ascii.eqb_eq in Hc. subst c. rewrite process_byte_LF.
    unfold process_line.
    destruct (sscanf_d_comma_d (current_line (st_buf s)) 0 0) as [[n r] i].
    pose proof (process_sample_hr (st_dsp s) r i) as P.
    destruct (process_sample (st_dsp s) r i) as [d' ev].
    cbn [fst snd st_dsp] in *. cbn zeta in P.
    destruct P as [(P1 & P2 & P3 & P4 & P5 & _) | (P1 & P2 & _)].
    + apply plausible_split in P3 as P3'. destruct P3' as [G L].
      split; [intros _; tauto|].
      split; [|split; reflexivity].
      intros E. rewrite P3 in E. discriminate E.
    + split; [intros E; contradiction|].
      split; [|split; reflexivity].
      intros _. tauto.
  - pose proof (process_byte_not_LF s c Hc) as P.
    destruct (process_byte s c) as [s' ev]. cbn [fst] in P. rewrite P.
    split; [intros E; contradiction|].
    split; [|split; reflexivity].
    intros _. tauto.
Qed.

Lemma smoothed_hr_changes_only_on_plausible_peak_witness :
  (let '(s', ev) := process_byte (after_peak_at_10 60) LF in
   hr_bpm_filt (st_dsp s') <> F32.zero /\
   hr_bpm (st_dsp s') = inst_hr (wrap_int (60 - 10)) /\
   hr_bpm_filt (st_dsp s') = smooth_hr F32.zero (inst_hr (wrap_int (60 - 10)))) /\
  (let '(s', ev) := process_byte (after_peak_at_10 160) LF in
   plausible (inst_hr (wrap_int (160 - 10))) = false /\
   hr_bpm (st_dsp s') = F32.zero /\ hr_bpm_filt (st_dsp s') = F32.zero).
Proof.
  split.
  - pose proof (smoothed_hr_changes_only_on_plausible_peak (after_peak_at_10 60) LF) as H.
    destruct (process_byte (after_peak_at_10 60) LF) as [s' ev] eqn:E.
    assert (N : hr_bpm_filt (st_dsp s') <> F32.zero).
    { replace s' with (process_byte (after_peak_at_10 60) LF).1 by (rewrite E; reflexivity).
      vm_compute. discriminate. }
    split; [exact N|]. apply H in N. tauto.
  - pose proof (smoothed_hr_changes_only_on_plausible_peak (after_peak_at_10 160) LF) as H.
    destruct (process_byte (after_peak_at_10 160) LF) as [s' ev].
    assert (N : plausible (inst_hr (wrap_int (160 - 10))) = false)
      by (vm_compute; reflexivity).
    split; [exact N|]. apply H in N. exact N.
Defined.

(** ** Leaving the loop *)

(** Whatever count [ReadFile] stores in the [DWORD], the [break] is not
    reached: a count that reads as a negative [int] is a positive [DWORD]
    and takes the first branch. *)
Lemma loop_iter_never_breaks (s : state) (p : poll) :
  0 <= n_bytes p < DWORD_MOD -> (loop_iter s p).2 = false.
Proof.
  intros H. unfold loop_iter.
  destruct (0 <? n_bytes p) eqn:E.
  - destruct (process_bytes s _); reflexivity.
  - apply Z.ltb_ge in E. assert (n_bytes p = 0) as -> by lia. reflexivity.
Qed.

Lemma main_loop_never_exits (ps : list poll) (s : state) (a b : Z) :
  Forall (fun p => 0 <= n_bytes p < DWORD_MOD) ps ->
  (main_loop s ps a b).2 = None.
Proof.
  revert s. induction ps as [|p ps IH]; intros s H; [reflexivity|].
  inversion H as [|? ? Hp Hps]; subst. cbn [main_loop].
  pose proof (loop_iter_never_breaks s p Hp) as L.
  destruct (loop_iter s p) as [[s1 ev1] brk]. cbn [snd] in L. subst brk.
  specialize (IH s1 Hps).
  destruct (main_loop s1 ps a b) as [[s2 ev2] st]. exact IH.
Qed.

(** C8, on the code. A failed read, whether it leaves 0 in [n_bytes] or a
    count whose [int] reading is -1, does not end the loop: the first is
    taken as "no data", the second as 4294967295 bytes to process.  And the
    shutdown sequence, were it reached, returns 0 and calls [fclose] only when
    [CloseHandle] has failed. *)
Theorem read_error_does_not_stop (s : state) (cs : list ascii) (a b : Z) :
  (loop_iter s {| n_bytes := 0; chunk := cs |}).2 = false /\
  wrap_int 4294967295 = -1 /\
  (loop_iter s {| n_bytes := 4294967295; chunk := cs |}).2 = false /\
  (main_loop s [ {| n_bytes := 0; chunk := cs |};
                 {| n_bytes := 4294967295; chunk := cs |} ] a b).2 = None /\
  (shutdown a b).2 = 0 /\
  shutdown 1 b = ([Call_CloseHandle], 0).
Proof.
  split; [reflexivity|]. split; [reflexivity|].
  split; [apply loop_iter_never_breaks; cbn; unfold DWORD_MOD; lia|].
  split.
  - apply main_loop_never_exits.
    repeat constructor; cbn; unfold DWORD_MOD; lia.
  - split; reflexivity.
Qed.

(** ** The line buffer: storing, overflowing, closing a line *)

Lemma c_str_app_NUL (xs ys : list ascii) :
  c_str (xs ++ NUL :: ys) = c_str xs.
Proof.
  induction xs as [|x xs IH]; [reflexivity|]. cbn.
  destruct (Ascii.eqb x NUL); [reflexivity|]. rewrite IH. reflexivity.
Qed.

Lemma c_str_no_NUL (xs : list ascii) :
  Forall (fun c => c <> NUL) xs -> c_str xs = xs.
Proof.
  induction 1 as [|x xs Hx _ IH]; [reflexivity|]. cbn.
  destruct (Ascii.eqb x NUL) eqn:E.
  - apply Ascii.eqb_eq in E. contradiction.
  - rewrite IH. reflexivity.
Qed.

(** The line handed to [sscanf] is what was stored since the buffer was last
    emptied, up to its first NUL: older cells do not show. *)
Lemma current_line_stored (b : line_buf) :
  (buffer_index b < length (buffer b))%nat ->
  current_line b = c_str (take (buffer_index b) (buffer b)).
Proof.
  intros H. unfold current_line.
  rewrite insert_take_drop by exact H. apply c_str_app_NUL.
Qed.

(** Bytes that are not newlines and fit below the last cell are stored one
    after the other. *)
Lemma feed_bytes_stored (cs : list ascii) (b : line_buf) :
  Forall (fun c => c <> LF) cs ->
  length (buffer b) = BUFFER_SIZE ->
  (buffer_index b + length cs <= BUFFER_SIZE - 1)%nat ->
  feed_bytes b cs =
  ({| buffer := take (buffer_index b) (buffer b) ++ cs
                ++ drop (buffer_index b + length cs) (buffer b);
      buffer_index := buffer_index b + length cs |},
   replicate (length cs) Pending).
Proof.
  revert b. induction cs as [|c cs IH]; intros [mem k] Hlf Hmem Hk.
  - cbn in *. rewrite Nat.add_0_r, take_drop. reflexivity.
  - inversion Hlf as [|? ? Hc Hcs]; subst. cbn [length] in Hk.
    cbn [buffer buffer_index] in *.
    cbn [feed_bytes]. unfold feed_byte. cbn [buffer buffer_index].
    destruct (Ascii.eqb c LF) eqn:E; [apply Ascii.eqb_eq in E; contradiction|].
    destruct (k <? BUFFER_SIZE - 1)%nat eqn:K;
      [|apply Nat.ltb_ge in K; lia].
    rewrite IH;
      [|assumption|cbn [buffer]; rewrite length_insert; assumption
       |cbn [buffer_index]; lia].
    cbn [buffer buffer_index length replicate].
    f_equal. f_equal; [|lia].
    rewrite drop_insert_lt by lia.
    rewrite insert_take_drop by lia.
    replace (S k) with (k + 1)%nat at 1 by lia.
    rewrite take_app_add' by (rewrite length_take; lia).
    cbn [take]. rewrite <- app_assoc. cbn [app].
    replace (S k + length cs)%nat with (k + S (length cs))%nat by lia.
    reflexivity.
Qed.

(** A byte that is not a newline and finds the index on the last cell is
    dropped with everything stored so far. *)
Lemma feed_byte_overflow (b : line_buf) (c : ascii) :
  c <> LF -> buffer_index b = (BUFFER_SIZE - 1)%nat ->
  feed_byte b c = ({| buffer := buffer b; buffer_index := 0 |}, Overflow).
Proof.
  intros Hc Hk. unfold feed_byte.
  destruct (Ascii.eqb c LF) eqn:E; [apply Ascii.eqb_eq in E; contradiction|].
  rewrite Hk. reflexivity.
Qed.

(** The array keeps its size and the index stays on one of its cells. *)
Lemma feed_bytes_wf (cs : list ascii) (b : line_buf) :
  length (buffer b) = BUFFER_SIZE -> (buffer_index b < BUFFER_SIZE)%nat ->
  length (buffer (feed_bytes b cs).1) = BUFFER_SIZE /\
  (buffer_index (feed_bytes b cs).1 < BUFFER_SIZE)%nat.
Proof.
  revert b. induction cs as [|c cs IH]; intros b Hm Hk; [split; assumption|].
  cbn [feed_bytes].
  assert (W : length (buffer (feed_byte b c).1) = BUFFER_SIZE /\
              (buffer_index (feed_byte b c).1 < BUFFER_SIZE)%nat).
  { unfold feed_byte. destruct (Ascii.eqb c LF).
    - cbn [fst buffer buffer_index]. rewrite length_insert.
      split; [exact Hm|unfold BUFFER_SIZE; lia].
    - destruct (buffer_index b <? BUFFER_SIZE - 1)%nat eqn:K;
        cbn [fst buffer buffer_index].
      + apply Nat.ltb_lt in K. rewrite length_insert. split; [exact Hm|lia].
      + split; [exact Hm|unfold BUFFER_SIZE; lia]. }
  destruct (feed_byte b c) as [b1 r]. cbn [fst] in W. destruct W as [W1 W2].
  specialize (IH b1 W1 W2). destruct (feed_bytes b1 cs) as [b2 rs]. exact IH.
Qed.

(** A full block of [BUFFER_SIZE] bytes without a newline, from an empty
    buffer: all but the last are stored, the last one overflows. *)
Lemma feed_bytes_block (cs : list ascii) (mem : list ascii) :
  Forall (fun c => c <> LF) cs ->
  length mem = BUFFER_SIZE -> length cs = BUFFER_SIZE ->
  exists mem',
    length mem' = BUFFER_SIZE /\
    feed_bytes {| buffer := mem; buffer_index := 0 |} cs =
    ({| buffer := mem'; buffer_index := 0 |},
     replicate (BUFFER_SIZE - 1) Pending ++ [Overflow]).
Proof.
  intros Hlf Hmem Hcs.
  rewrite <- (take_drop (BUFFER_SIZE - 1) cs) in Hlf |- *.
  apply Forall_app in Hlf. destruct Hlf as [H1 H2].
  assert (L1 : length (take (BUFFER_SIZE - 1) cs) = (BUFFER_SIZE - 1)%nat)
    by (rewrite length_take; unfold BUFFER_SIZE in *; lia).
  destruct (drop (BUFFER_SIZE - 1) cs) as [|c [|c' t]] eqn:D;
    pose proof (f_equal length D) as LD; rewrite length_drop in LD;
    cbn [length] in LD; unfold BUFFER_SIZE in LD, Hcs; try lia.
  inversion H2 as [|? ? Hc _]; subst.
  rewrite feed_bytes_app, feed_bytes_stored;
    [|assumption|assumption|cbn [buffer_index]; lia].
  cbn [buffer_index buffer]. cbn [feed_bytes].
  rewrite feed_byte_overflow; [|assumption|cbn [buffer_index]; lia].
  cbn [buffer]. rewrite L1. eexists. split; [|reflexivity].
  rewrite !length_app, length_take, length_drop.
  unfold BUFFER_SIZE in *. lia.
Qed.

(** Any run of bytes without a newline, from an empty buffer: one overflow
    per full block of [BUFFER_SIZE] bytes, no line, and the buffer holds what
    came after the last full block. *)
Lemma feed_bytes_junk (q : nat) (junk mem : list ascii) :
  Forall (fun c => c <> LF) junk ->
  length mem = BUFFER_SIZE ->
  (length junk / BUFFER_SIZE)%nat = q ->
  exists mem' rs,
    feed_bytes {| buffer := mem; buffer_index := 0 |} junk =
      ({| buffer := mem'; buffer_index := (length junk mod BUFFER_SIZE)%nat |}, rs) /\
    length mem' = BUFFER_SIZE /\
    take (length junk mod BUFFER_SIZE)%nat mem' = drop (q * BUFFER_SIZE) junk /\
    lines_of rs = [] /\ overflows_of rs = q.
Proof.
  revert junk mem. induction q as [|q IH]; intros junk mem Hlf Hmem Hq.
  - assert (S : (length junk < BUFFER_SIZE)%nat).
    { apply Nat.div_small_iff in Hq; [exact Hq|discriminate]. }
    rewrite Nat.mod_small by exact S.
    rewrite feed_bytes_stored; [|assumption|assumption|cbn [buffer_index]; lia].
    cbn [buffer buffer_index Nat.add].
    eexists; eexists. split; [reflexivity|].
    change (take 0 mem) with (@nil ascii). cbn [app Nat.mul]. rewrite drop_0.
    split; [rewrite length_app, length_drop; lia|].
    split; [apply take_app_length|].
    split.
    + clear. induction (length junk); [reflexivity|assumption].
    + clear. induction (length junk); [reflexivity|assumption].
  - assert (G : (BUFFER_SIZE <= length junk)%nat).
    { destruct (Nat.lt_ge_cases (length junk) BUFFER_SIZE) as [S|S]; [|exact S].
      rewrite Nat.div_small in Hq by exact S. discriminate Hq. }
    rewrite <- (take_drop BUFFER_SIZE junk) in Hlf.
    apply Forall_app in Hlf. destruct Hlf as [H1 H2].
    destruct (feed_bytes_block (take BUFFER_SIZE junk) mem H1 Hmem) as (mem1 & Lm & E1).
    { rewrite length_take. lia. }
    assert (Ld : length (drop BUFFER_SIZE junk) = (length junk - BUFFER_SIZE)%nat)
      by apply length_drop.
    assert (Dq : (length (drop BUFFER_SIZE junk) / BUFFER_SIZE)%nat = q).
    { rewrite Ld.
      replace (length junk) with ((length junk - BUFFER_SIZE) + 1 * BUFFER_SIZE)%nat in Hq by lia.
      rewrite Nat.div_add in Hq by discriminate. lia. }
    assert (Dm : (length (drop BUFFER_SIZE junk) mod BUFFER_SIZE)%nat
                 = (length junk mod BUFFER_SIZE)%nat).
    { rewrite Ld.
      replace (length junk) with ((length junk - BUFFER_SIZE) + 1 * BUFFER_SIZE)%nat at 2 by lia.
      rewrite Nat.Div0.mod_add. reflexivity. }
    destruct (IH (drop BUFFER_SIZE junk) mem1 H2 Lm Dq)
      as (mem2 & rs2 & E2 & Lm2 & T2 & Ln2 & Ov2).
    exists mem2, ((replicate (BUFFER_SIZE - 1) Pending ++ [Overflow]) ++ rs2).
    split.
    { rewrite <- (take_drop BUFFER_SIZE junk) at 1.
      rewrite feed_bytes_app, E1, E2, Dm. reflexivity. }
    split; [exact Lm2|].
    split.
    { rewrite <- Dm, T2, drop_drop. f_equal; lia. }
    rewrite lines_of_app, overflows_of_app, Ln2, Ov2. split.
    + rewrite lines_of_app. cbn [lines_of app].
      clear. induction (BUFFER_SIZE - 1)%nat; [reflexivity|assumption].
    + rewrite overflows_of_app. cbn [overflows_of].
      assert (Z : overflows_of (replicate (BUFFER_SIZE - 1) Pending) = 0%nat).
      { clear. induction (BUFFER_SIZE - 1)%nat; [reflexivity|assumption]. }
      rewrite Z. lia.
Qed.

(** ** Reading a well-formed record *)

Lemma digit_char_cases (k : Z) (P : ascii -> Prop) :
  0 <= k <= 9 ->
  P "0"%char -> P "1"%char -> P "2"%char -> P "3"%char -> P "4"%char ->
  P "5"%char -> P "6"%char -> P "7"%char -> P "8"%char -> P "9"%char ->
  P (digit_char k).
Proof.
  intros Hk.
  assert (C : k = 0 \/ k = 1 \/ k = 2 \/ k = 3 \/ k = 4 \/ k = 5 \/ k = 6 \/
              k = 7 \/ k = 8 \/ k = 9) by lia.
  intros; repeat (destruct C as [->|C]; [assumption|]); subst; assumption.
Qed.

Lemma code_digit_char (k : Z) : 0 <= k <= 9 -> code (digit_char k) = 48 + k.
Proof.
  intros Hk.
  assert (C : k = 0 \/ k = 1 \/ k = 2 \/ k = 3 \/ k = 4 \/ k = 5 \/ k = 6 \/
              k = 7 \/ k = 8 \/ k = 9) by lia.
  repeat (destruct C as [->|C]; [reflexivity|]); subst; reflexivity.
Qed.

Lemma isdigit_digit_char (k : Z) : 0 <= k <= 9 -> isdigit (digit_char k) = true.
Proof.
  intros Hk. unfold isdigit. rewrite code_digit_char by exact Hk.
  apply andb_true_iff. split; apply Z.leb_le; lia.
Qed.

Lemma scan_digits_text (ds : list Z) (acc : Z) (rest : list ascii) :
  is_digits ds -> no_digit_ahead rest ->
  scan_digits acc (map digit_char ds ++ rest) =
  (fold_left (fun a k => 10 * a + k) ds acc, rest).
Proof.
  intros Hds Hrest. revert acc.
  induction Hds as [|k ds Hk _ IH]; intros acc.
  - cbn. destruct rest as [|c rest']; [reflexivity|].
    cbn in Hrest. cbn. rewrite Hrest. reflexivity.
  - cbn [map app scan_digits fold_left].
    rewrite isdigit_digit_char by exact Hk.
    rewrite code_digit_char by exact Hk.
    rewrite IH. f_equal. f_equal. lia.
Qed.

Lemma scan_d_int_text (neg : bool) (ds : list Z) (rest : list ascii) :
  is_digits ds -> ds <> [] -> no_digit_ahead rest ->
  scan_d (int_text neg ds ++ rest) = Some (wrap_int (int_value neg ds), rest).
Proof.
  intros Hds Hne Hrest.
  destruct ds as [|k ds]; [contradiction|].
  inversion Hds as [|? ? Hk Hds']; subst.
  pose proof (scan_digits_text (k :: ds) 0 rest Hds Hrest) as S.
  pose proof (isdigit_digit_char k Hk) as D.
  unfold scan_d, int_text, int_value.
  destruct neg.
  - cbn [app skip_space map]. change (isspace "-"%char) with false. cbv iota.
    change (Ascii.eqb "-" "-")%char with true. cbv iota.
    cbn [map app] in S. rewrite D, S. reflexivity.
  - cbn [app skip_space map].
    assert (E : isspace (digit_char k) = false /\
                Ascii.eqb (digit_char k) "-" = false /\
                Ascii.eqb (digit_char k) "+" = false).
    { apply digit_char_cases; [exact Hk|repeat split..]. }
    destruct E as (E1 & E2 & E3). rewrite E1, E2, E3.
    cbn [map app] in S. rewrite D, S. reflexivity.
Qed.



(** From an empty buffer, a record that fits and its newline yield the record
    itself as the line. *)
Lemma feed_bytes_record (w mem : list ascii) :
  Forall (fun c => c <> LF /\ c <> NUL) w ->
  length mem = BUFFER_SIZE -> (length w < BUFFER_SIZE)%nat ->
  exists b,
    feed_bytes {| buffer := mem; buffer_index := 0 |} (w ++ [LF]) =
    (b, replicate (length w) Pending ++ [Line w]).
Proof.
  intros Hw Hmem Hlen.
  assert (H1 : Forall (fun c => c <> LF) w)
    by (eapply Forall_impl; [exact Hw|]; cbn; tauto).
  assert (H2 : Forall (fun c => c <> NUL) w)
    by (eapply Forall_impl; [exact Hw|]; cbn; tauto).
  rewrite feed_bytes_app, feed_bytes_stored;
    [|assumption|assumption|cbn [buffer_index]; lia].
  cbn [buffer buffer_index Nat.add feed_bytes]. rewrite feed_byte_LF.
  rewrite current_line_stored
    by (cbn [buffer buffer_index]; rewrite !length_app, length_drop; lia).
  cbn [buffer buffer_index].
  change (take 0 mem) with (@nil ascii). cbn [app].
  rewrite take_app_length, c_str_no_NUL by exact H2.
  eexists. reflexivity.
Qed.



(** ** Concrete binary32 numbers and their values *)

Lemma bpow_neg_Z (k : Z) : 0 <= k -> F32.bpow (- k) = (/ IZR (2 ^ k))%R.
Proof.
  intros H. unfold F32.bpow. rewrite powerRZ_neg'.
  f_equal. apply F32Facts.bpow_Z. exact H.
Qed.

(** Evaluates the value of a literal float and closes a linear goal on it. *)
Ltac val_lra :=
  cbn [F32.val]; unfold F32.F2R;
  repeat match goal with
    | |- context [F32.bpow (Zneg ?p)] =>
        change (F32.bpow (Zneg p)) with (F32.bpow (- Zpos p));
        rewrite (bpow_neg_Z (Zpos p)) by lia
    | |- context [F32.bpow (Zpos ?p)] =>
        rewrite (F32Facts.bpow_Z (Zpos p)) by lia
    | |- context [F32.bpow 0] =>
        rewrite (F32Facts.bpow_Z 0) by lia
    end;
  cbn [Z.pow Z.pow_pos Pos.iter Z.mul Pos.mul Pos.add Pos.succ];
  lra.

Example val_FS : F32.val FS = 100%R.
Proof. unfold FS. val_lra. Qed.

Example val_alpha_filt : (0 < F32.val alpha_filt <= 1 / 2)%R.
Proof. unfold alpha_filt. val_lra. Qed.

Lemma lt_of_val (a b : float) :
  F32.wf a = true -> F32.wf b = true -> (F32.val a < F32.val b)%R ->
  F32.lt a b = true.
Proof.
  intros Wa Wb L. pose proof (F32Facts.compare_val a b Wa Wb) as C.
  unfold F32.lt. destruct (SFcompare a b) as [[| |]|]; try reflexivity; lra.
Qed.

Lemma val_of_lt (a b : float) :
  F32.wf a = true -> F32.wf b = true -> F32.lt a b = true ->
  (F32.val a < F32.val b)%R.
Proof.
  intros Wa Wb L. pose proof (F32Facts.compare_val a b Wa Wb) as C.
  unfold F32.lt in L. destruct (SFcompare a b) as [[| |]|]; try discriminate L.
  exact C.
Qed.

(** The period and the rate for a peak distance of 31 samples or more. *)
Lemma period_inst_bounds (n : Z) :
  31 <= n <= INT_MAX ->
  F32.wf (period_sec n) = true /\ (0 < F32.val (period_sec n))%R /\
  F32.wf (inst_hr n) = true /\ (0 <= F32.val (inst_hr n) <= 6000 / 31)%R.
Proof.
  intros [L U]. destruct (Z.eq_dec n 31) as [->|N].
  - assert (P : period_sec 31 = S754_finite false 10401874 (-25)) by reflexivity.
    assert (I : inst_hr 31 = S754_finite false 12684387 (-16)) by reflexivity.
    rewrite P, I. split; [reflexivity|]. split; [val_lra|].
    split; [reflexivity|]. split; val_lra.
  - set (f32 := S754_finite false 8388608 (-18)).
    set (fmax := S754_finite false 8388608 8).
    destruct (F32Facts.of_int_between n f32 fmax) as [Wa [A1 A2]]; [reflexivity..| |].
    { split.
      - replace (F32.val f32) with (IZR 32) by (unfold f32; val_lra).
        apply IZR_le. lia.
      - replace (F32.val fmax) with (IZR 2147483648) by (unfold fmax; val_lra).
        apply IZR_le. unfold INT_MAX in U. lia. }
    assert (V32 : F32.val f32 = 32%R) by (unfold f32; val_lra).
    assert (Vmax : F32.val fmax = 2147483648%R) by (unfold fmax; val_lra).
    rewrite V32 in A1. rewrite Vmax in A2.
    set (plo := S754_finite false 10485760 (-25)).
    set (phi := S754_finite false 8388608 2).
    assert (Vlo : F32.val plo = (5 / 16)%R) by (unfold plo; val_lra).
    assert (Vhi : F32.val phi = 33554432%R) by (unfold phi; val_lra).
    destruct (F32Facts.div_between (F32.of_int n) FS plo phi) as [Wp [P1 P2]];
      [exact Wa|reflexivity|rewrite val_FS; lra|reflexivity|reflexivity| |].
    { rewrite val_FS, Vlo, Vhi. clear -A1 A2.
      set (v := F32.val (F32.of_int n)) in *. clearbody v. split; lra. }
    fold (period_sec n) in Wp, P1, P2. rewrite Vlo in P1.
    set (hi := S754_finite false 12582912 (-16)).
    assert (Vh : F32.val hi = 192%R) by (unfold hi; val_lra).
    assert (V60 : F32.val sixty = 60%R) by (unfold sixty; val_lra).
    destruct (F32Facts.div_between sixty (period_sec n) F32.zero hi) as [Wi [I1 I2]];
      [reflexivity|exact Wp|intros E; rewrite E in P1; lra
      |reflexivity|reflexivity| |].
    { rewrite V60, Vh. cbn [F32.val F32.zero]. split.
      - apply Rlt_le, Rdiv_lt_0_compat; lra.
      - replace 192%R with (60 / (5 / 16))%R by lra.
        unfold Rdiv at 1 2. apply Rmult_le_compat_l; [lra|].
        apply Rinv_le_contravar; lra. }
    fold (inst_hr n) in Wi, I1, I2. rewrite Vh in I2. cbn [F32.val F32.zero] in I1.
    split; [exact Wp|]. split; [lra|]. split; [exact Wi|]. lra.
Qed.

(** C10. Whenever the heart-rate computation runs (a crossing passed the
    refractory test and the peak before it is not the initial -1000), the
    distance between the two peak indices is at least [refractory_n] + 1 = 31;
    so the period is a strictly positive number and 60 is not divided by
    zero, the instantaneous rate is at most 6000/31, and its test against
    [max_hr_bpm] always succeeds: only the lower bound can reject it. *)
Theorem hr_period_positive_and_rate_bounded (d : dsp) (r i : Z) :
  crossing (load_sample d r i) = true ->
  outside_refractory (load_sample d r i) = true ->
  0 <= last_peak d ->
  let d' := (process_sample d r i).1 in
  let delta_n := wrap_int (last_peak d' - prev_peak d') in
  last_peak d' = sample_idx d /\ prev_peak d' = last_peak d /\
  refractory_n + 1 = 31 /\ 31 <= delta_n /\
  F32.lt F32.zero (period_sec delta_n) = true /\
  (0 < F32.val (period_sec delta_n))%R /\
  (F32.val (inst_hr delta_n) <= 6000 / 31)%R /\
  F32.lt (inst_hr delta_n) max_hr_bpm = true /\
  plausible (inst_hr delta_n) = F32.gt (inst_hr delta_n) min_hr_bpm.
Proof.
  intros Hc Ho Hl.
  pose proof (process_sample_peak d r i) as P. cbn zeta in P.
  destruct P as [_ [(_ & _ & _ & F) | (_ & P1 & P2 & _)]].
  { rewrite Hc, Ho in F. discriminate F. }
  cbn zeta. rewrite P1, P2.
  assert (D : 31 <= wrap_int (sample_idx d - last_peak d) <= INT_MAX).
  { split; [|apply wrap_int_range].
    unfold outside_refractory in Ho. cbn [load_sample sample_idx last_peak] in Ho.
    apply Z.ltb_lt in Ho. rewrite refractory_n_eq in Ho. lia. }
  destruct (period_inst_bounds _ D) as (Wp & Pp & Wi & I1 & I2).
  assert (L : F32.lt (inst_hr (wrap_int (sample_idx d - last_peak d))) max_hr_bpm = true).
  { apply lt_of_val; [exact Wi|reflexivity|].
    replace (F32.val max_hr_bpm) with 200%R by (unfold max_hr_bpm; val_lra). lra. }
  split; [reflexivity|]. split; [reflexivity|]. split; [reflexivity|].
  split; [apply D|]. split; [apply lt_of_val; [reflexivity|exact Wp|exact Pp]|].
  split; [exact Pp|]. split; [exact I2|]. split; [exact L|].
  unfold plausible. rewrite L. apply andb_true_r.
Qed.

(** ** The low-pass filter never passes its input *)

Module FilterFacts.

Import F32 F32Facts.
Local Open Scope R_scope.

(** Half of a number above the lowest binade is a number. *)
Lemma half_wf (s : bool) (m : positive) (e : Z) :
  wf (S754_finite s m e) = true -> (emin < e)%Z ->
  wf (S754_finite s m (e - 1)) = true /\
  val (S754_finite s m (e - 1)) = val (S754_finite s m e) / 2.
Proof.
  intros W L. destruct (wf_finite_facts s m e W) as (E & M & N).
  split.
  - rewrite wf_finite. rewrite <- (Pos2Z.id m). apply bounded_intro.
    + lia.
    + lia.
    + intros _. apply N. exact L.
  - rewrite !val_finite.
    assert (H : F2R (Zpos m) e = 2 * F2R (Zpos m) (e - 1)).
    { unfold F2R. replace e with (1 + (e - 1))%Z at 1 by lia.
      rewrite bpow_add. replace (bpow 1) with 2 by (unfold bpow; simpl; lra). ring. }
    destruct s; lra.
Qed.

(** Every number is a multiple of [2^emin]. *)
Lemma val_multiple (x : float) :
  wf x = true -> exists K : Z, val x = F2R K emin.
Proof.
  destruct x as [s|s| |s m e]; intros W; try discriminate W.
  - exists 0%Z. cbn [val]. rewrite F2R_0. reflexivity.
  - destruct (wf_finite_facts s m e W) as (E & _ & _).
    exists ((if s then Zneg m else Zpos m) * 2 ^ (e - emin))%Z.
    cbn [val]. rewrite F2R_shift by lia. f_equal. lia.
Qed.

(** Every multiple of [2^emin] below [2^24] of them is a number. *)
Lemma small_float (K : Z) :
  (- 2 ^ 24 < K < 2 ^ 24)%Z -> exists f : float, wf f = true /\ val f = F2R K emin.
Proof.
  intros H. destruct K as [|p|p].
  - exists (S754_zero false). split; [reflexivity|]. cbn [val]. rewrite F2R_0. reflexivity.
  - exists (S754_finite false p emin). split; [|reflexivity].
    rewrite wf_finite. rewrite <- (Pos2Z.id p). apply bounded_intro; unfold emin; lia.
  - exists (S754_finite true p emin). split; [|reflexivity].
    rewrite wf_finite. rewrite <- (Pos2Z.id p). apply bounded_intro; unfold emin; lia.
Qed.

Lemma val_second_binade : val second_binade = F2R (2 ^ 24) emin.
Proof.
  unfold second_binade. cbn [val].
  change (F2R 8388608 (-148)) with (F2R (2 ^ 23) (emin + 1)).
  rewrite <- (F2R_shift (2 ^ 23) emin 1) by lia. reflexivity.
Qed.

Section Step.

Variables (alpha x y H : float).
Hypothesis Ha : 0 < val alpha <= 1 / 2.
Hypothesis Wx : wf x = true.
Hypothesis Wy : wf y = true.
Hypothesis WH : wf H = true.
Hypothesis Hb : - val H <= val x - val y <= val H.

Let z : R := val x - val y.
Let d : float := F32.sub x y.

Lemma WoH : wf (SFopp H) = true.
Proof. rewrite wf_opp. exact WH. Qed.

Lemma wf_d : wf d = true.
Proof.
  destruct (sub_between x y (SFopp H) H Wx Wy WoH WH) as [W _]; [|exact W].
  rewrite val_opp. exact Hb.
Qed.

Lemma d_sign : (0 <= z -> 0 <= val d) /\ (z <= 0 -> val d <= 0).
Proof.
  split; intros S.
  - destruct (sub_between x y (S754_zero false) H Wx Wy eq_refl WH) as [_ [L _]].
    + cbn [val]. unfold z in S. lra.
    + exact L.
  - destruct (sub_between x y (SFopp H) (S754_zero false) Wx Wy WoH eq_refl) as [_ [_ U]].
    + rewrite val_opp. cbn [val]. unfold z in S. lra.
    + exact U.
Qed.

(** A number between the exact difference and the scaled rounded one. *)
Lemma scaled_within :
  exists t : float, wf t = true /\
    (0 <= z -> val alpha * val d <= val t <= z) /\
    (z <= 0 -> z <= val t <= val alpha * val d).
Proof.
  pose proof wf_d as Wd. pose proof d_sign as [Sp Sn].
  assert (Hz : - val H <= z <= val H) by exact Hb.
  assert (Pa : 0 <= val d -> 0 <= val alpha * val d <= val d / 2) by (intros; nra).
  assert (Na : val d <= 0 -> val d / 2 <= val alpha * val d <= 0) by (intros; nra).
  set (ad := val alpha * val d) in *.
  fold d in Wd. destruct d as [s|s| |s m e] eqn:Ed; try discriminate Wd.
  - exists (S754_zero false). split; [reflexivity|].
    cbn [val] in Pa, Na |- *. split; intros S; lra.
  - destruct (wf_finite_facts s m e Wd) as (E & M & N).
    pose proof (F2R_pos m e) as Pm.
    destruct (Z.eq_dec e emin) as [->|Ne].
    + (* lowest binade: the subtraction is exact *)
      assert (Small : Rabs (val (S754_finite s m emin)) < F2R (2 ^ 24) emin).
      { rewrite val_finite.
        assert (F2R (Zpos m) emin < F2R (2 ^ 24) emin).
        { unfold F2R. apply IZR_lt in M. pose proof (bpow_gt_0 emin). nra. }
        destruct s; [rewrite Rabs_Ropp|]; rewrite Rabs_pos_eq; lra. }
      destruct (val_multiple x Wx) as [Kx Vx]. destruct (val_multiple y Wy) as [Ky Vy].
      assert (Vz : z = F2R (Kx - Ky) emin).
      { unfold z. rewrite Vx, Vy. unfold Z.sub. rewrite <- F2R_add, <- F2R_opp. lra. }
      assert (Ex : val (S754_finite s m emin) = z).
      { destruct (Z_lt_le_dec (Kx - Ky) (2 ^ 24)) as [U|U];
          [destruct (Z_lt_le_dec (- 2 ^ 24) (Kx - Ky)) as [L|L]|].
        - destruct (small_float (Kx - Ky) ltac:(lia)) as (f & Wf & Vf).
          destruct (sub_between x y f f Wx Wy Wf Wf) as [_ B].
          + fold z. rewrite Vf, Vz. lra.
          + fold d in B. rewrite Ed, Vf, <- Vz in B. lra.
        - exfalso.
          assert (Wt : wf (SFopp second_binade) = true) by reflexivity.
          destruct (sub_between x y (SFopp H) (SFopp second_binade) Wx Wy WoH Wt)
            as [_ [_ B]].
          + fold z. rewrite !val_opp, val_second_binade. split; [lra|].
            rewrite Vz, F2R_opp. apply F2R_le. lia.
          + fold d in B. rewrite Ed, val_opp, val_second_binade in B.
            apply Rabs_def2 in Small. lra.
        - exfalso.
          assert (Wt : wf second_binade = true) by reflexivity.
          destruct (sub_between x y second_binade H Wx Wy Wt WH) as [_ [B _]].
          + fold z. rewrite val_second_binade. split; [|lra].
            rewrite Vz. apply F2R_le. exact U.
          + fold d in B. rewrite Ed, val_second_binade in B.
            apply Rabs_def2 in Small. lra. }
      exists (S754_finite s m emin). split; [exact Wd|].
      rewrite Ex. split; intros S; lra.
    + destruct (half_wf s m e Wd ltac:(lia)) as [Wt Vt].
      exists (S754_finite s m (e - 1)). split; [exact Wt|]. rewrite Vt.
      assert (Nz : val (S754_finite s m e) <> 0)
        by (rewrite val_finite; destruct s; lra).
      split; intros S.
      * specialize (Sp S). split; [lra|].
        destruct (Rle_lt_dec (val (S754_finite s m e) / 2) z) as [G|G]; [exact G|].
        exfalso.
        destruct (sub_between x y (S754_zero false) (S754_finite s m (e - 1))
                    Wx Wy eq_refl Wt) as [_ [_ B]].
        -- fold z. rewrite Vt. change (val (S754_zero false)) with 0. lra.
        -- fold d in B. rewrite Ed, Vt in B. lra.
      * specialize (Sn S). split; [|lra].
        destruct (Rle_lt_dec z (val (S754_finite s m e) / 2)) as [G|G]; [exact G|].
        exfalso.
        destruct (sub_between x y (S754_finite s m (e - 1)) (S754_zero false)
                    Wx Wy Wt eq_refl) as [_ [B _]].
        -- fold z. rewrite Vt. change (val (S754_zero false)) with 0. lra.
        -- fold d in B. rewrite Ed, Vt in B. lra.
Qed.

End Step.

End FilterFacts.

(** One step of [y + alpha * (x - y)], for a weight [alpha] of at most one
    half, lands between [y] and [x]. *)
Lemma blend_between (alpha y x H : float) :
  F32.wf alpha = true -> (0 < F32.val alpha <= 1 / 2)%R ->
  F32.wf x = true -> F32.wf y = true -> F32.wf H = true ->
  (- F32.val H <= F32.val x - F32.val y <= F32.val H)%R ->
  let y' := F32.add y (F32.mul alpha (F32.sub x y)) in
  F32.wf y' = true /\
  (F32.val y <= F32.val x -> F32.val y <= F32.val y' <= F32.val x)%R /\
  (F32.val x <= F32.val y -> F32.val x <= F32.val y' <= F32.val y)%R.
Proof.
  intros Wa Va Wx Wy WH Hb.
  destruct (FilterFacts.scaled_within alpha x y H Va Wx Wy WH Hb)
    as (t & Wt & Tp & Tn).
  pose proof (FilterFacts.wf_d x y H Wx Wy WH Hb) as Wd.
  pose proof (FilterFacts.d_sign x y H Wx Wy WH Hb) as [Sp Sn].
  set (d := F32.sub x y) in *. set (z := (F32.val x - F32.val y)%R) in *.
  assert (Z0 : F32.val (S754_zero false) = 0%R) by reflexivity.
  assert (P : F32.wf (F32.mul alpha d) = true /\
              (0 <= z -> 0 <= F32.val (F32.mul alpha d) <= z)%R /\
              (z <= 0 -> z <= F32.val (F32.mul alpha d) <= 0)%R).
  { destruct (Rle_lt_dec 0 z) as [S|S].
    - specialize (Tp S). specialize (Sp S).
      destruct (F32Facts.mul_between alpha d (S754_zero false) t Wa Wd eq_refl Wt)
        as [Wp [P1 P2]].
      + rewrite Z0. split; [|apply Tp]. apply Rmult_le_pos; lra.
      + rewrite Z0 in P1. split; [exact Wp|]. split; intros S'; lra.
    - assert (S' : (z <= 0)%R) by lra. specialize (Tn S'). specialize (Sn S').
      destruct (F32Facts.mul_between alpha d t (S754_zero false) Wa Wd Wt eq_refl)
        as [Wp [P1 P2]].
      + rewrite Z0. split; [apply Tn|].
        assert (0 <= F32.val alpha * - F32.val d)%R by (apply Rmult_le_pos; lra).
        lra.
      + rewrite Z0 in P2. split; [exact Wp|]. split; intros S''; lra. }
  destruct P as (Wp & Pp & Pn). cbn zeta.
  set (p := F32.mul alpha d) in *.
  destruct (Rle_lt_dec 0 z) as [S|S].
  - specialize (Pp S).
    destruct (F32Facts.add_between y p y x Wy Wp Wy Wx) as [W [A1 A2]];
      [unfold z in *; lra|].
    split; [exact W|]. split; intros S'; [lra|].
    assert (Zz : z = 0%R) by (unfold z in *; lra). unfold z in *. lra.
  - assert (S' : (z <= 0)%R) by lra. specialize (Pn S').
    destruct (F32Facts.add_between y p x y Wy Wp Wx Wy) as [W [A1 A2]];
      [unfold z in *; lra|].
    split; [exact W|]. split; intros S''; [|lra].
    unfold z in *. lra.
Qed.

(** One step of the filter lands between the old value and the input. *)
Lemma low_pass_between (y x H : float) :
  F32.wf x = true -> F32.wf y = true -> F32.wf H = true ->
  (- F32.val H <= F32.val x - F32.val y <= F32.val H)%R ->
  F32.wf (low_pass y x) = true /\
  (F32.val y <= F32.val x ->
   F32.val y <= F32.val (low_pass y x) <= F32.val x)%R /\
  (F32.val x <= F32.val y ->
   F32.val x <= F32.val (low_pass y x) <= F32.val y)%R.
Proof.
  intros Wx Wy WH Hb.
  apply (blend_between alpha_filt y x H); try assumption; [reflexivity|].
  apply val_alpha_filt.
Qed.

(** The same for the smoothing of the heart rate, whose weight is 0.3f. *)
Lemma smooth_hr_between (h hr H : float) :
  F32.wf hr = true -> F32.wf h = true -> F32.wf H = true ->
  (- F32.val H <= F32.val hr - F32.val h <= F32.val H)%R ->
  F32.wf (smooth_hr h hr) = true /\
  (F32.val h <= F32.val hr ->
   F32.val h <= F32.val (smooth_hr h hr) <= F32.val hr)%R /\
  (F32.val hr <= F32.val h ->
   F32.val hr <= F32.val (smooth_hr h hr) <= F32.val h)%R.
Proof.
  intros Wx Wy WH Hb.
  apply (blend_between alpha_hr h hr H); try assumption; [reflexivity|].
  unfold alpha_hr. split; val_lra.
Qed.

(** ** The filtered value stays a number within the range of [int] *)

Lemma of_int_in_range (i : Z) :
  INT_MIN <= i <= INT_MAX ->
  F32.wf (F32.of_int i) = true /\
  (- 2147483648 <= F32.val (F32.of_int i) <= 2147483648)%R.
Proof.
  intros [L U].
  assert (V : F32.val two_31 = 2147483648%R) by (unfold two_31; val_lra).
  destruct (F32Facts.of_int_between i (SFopp two_31) two_31) as [W B];
    [reflexivity|reflexivity| |].
  - rewrite F32Facts.val_opp, V. unfold INT_MIN, INT_MAX in *.
    split; [apply (IZR_le (-2147483648) i)|apply (IZR_le i 2147483648)]; lia.
  - rewrite F32Facts.val_opp, V in B. split; [exact W|exact B].
Qed.

Lemma low_pass_in_range (y : float) (i : Z) :
  F32.wf y = true -> (- 2147483648 <= F32.val y <= 2147483648)%R ->
  INT_MIN <= i <= INT_MAX ->
  F32.wf (low_pass y (F32.of_int i)) = true /\
  (- 2147483648 <= F32.val (low_pass y (F32.of_int i)) <= 2147483648)%R /\
  (F32.val y <= F32.val (F32.of_int i) ->
   F32.val y <= F32.val (low_pass y (F32.of_int i)) <= F32.val (F32.of_int i))%R /\
  (F32.val (F32.of_int i) <= F32.val y ->
   F32.val (F32.of_int i) <= F32.val (low_pass y (F32.of_int i)) <= F32.val y)%R.
Proof.
  intros Wy By Hi. destruct (of_int_in_range i Hi) as [Wx Bx].
  assert (V : F32.val two_32 = 4294967296%R) by (unfold two_32; val_lra).
  destruct (low_pass_between y (F32.of_int i) two_32 Wx Wy eq_refl) as (W & Up & Dn).
  { rewrite V. lra. }
  split; [exact W|]. split; [|split; assumption].
  destruct (Rle_lt_dec (F32.val y) (F32.val (F32.of_int i))) as [S|S].
  - specialize (Up S). lra.
  - assert (S' : (F32.val (F32.of_int i) <= F32.val y)%R) by lra.
    specialize (Dn S'). lra.
Qed.

Lemma scan_d_in_range (s : list ascii) (v : Z) (rest : list ascii) :
  scan_d s = Some (v, rest) -> INT_MIN <= v <= INT_MAX.
Proof.
  unfold scan_d. intros E.
  match type of E with
  | context [let '(_, _) := ?t in _] => destruct t as [neg s2]
  end.
  destruct s2 as [|c t]; [discriminate E|].
  destruct (isdigit c); [|discriminate E].
  destruct (scan_digits 0 (c :: t)) as [v' rest'].
  inversion E; subst. apply wrap_int_range.
Qed.

Lemma sscanf_in_range (line : list ascii) (n r i : Z) :
  sscanf_d_comma_d line 0 0 = (n, r, i) -> INT_MIN <= i <= INT_MAX.
Proof.
  unfold sscanf_d_comma_d. intros E.
  assert (Z0 : INT_MIN <= 0 <= INT_MAX) by (unfold INT_MIN, INT_MAX; lia).
  destruct (scan_d line) as [[r1 rest]|]; [|inversion E; subst; exact Z0].
  destruct rest as [|c rest']; [inversion E; subst; exact Z0|].
  destruct (Ascii.eqb c ","%char); [|inversion E; subst; exact Z0].
  destruct (scan_d rest') as [[i1 rest2]|] eqn:S; [|inversion E; subst; exact Z0].
  inversion E; subst. eapply scan_d_in_range. exact S.
Qed.

Lemma process_sample_in_range (d : dsp) (r i : Z) :
  filt_in_range d -> INT_MIN <= i <= INT_MAX ->
  filt_in_range (process_sample d r i).1.
Proof.
  intros [W B] Hi. unfold filt_in_range.
  destruct (process_sample_facts d r i) as (_ & _ & _ & -> & _).
  destruct (low_pass_in_range (ir_filt d) i W B Hi) as (W' & B' & _).
  split; assumption.
Qed.

Lemma run_results_in_range (rs : list feed_result) (d : dsp) :
  filt_in_range d -> filt_in_range (run_results d rs).1.
Proof.
  revert d. induction rs as [|r rs IH]; intros d I; [exact I|].
  cbn [run_results]. destruct r as [line| |].
  - unfold process_line.
    destruct (sscanf_d_comma_d line 0 0) as [[n r] i] eqn:E.
    pose proof (process_sample_in_range d r i I (sscanf_in_range _ _ _ _ E)) as I1.
    destruct (process_sample d r i) as [d1 e1]. specialize (IH d1 I1).
    destruct (run_results d1 rs) as [d2 e2]. exact IH.
  - specialize (IH d I). destruct (run_results d rs) as [d2 e2]. exact IH.
  - specialize (IH d I). destruct (run_results d rs) as [d2 e2]. exact IH.
Qed.

Lemma reachable_in_range (mem cs : list ascii) :
  filt_in_range (st_dsp (process_bytes (init_state mem) cs).1).
Proof.
  rewrite process_bytes_split. cbn [init_state st_buf st_dsp].
  destruct (feed_bytes _ cs) as [b rs].
  pose proof (run_results_in_range rs init_dsp) as I.
  destruct (run_results init_dsp rs) as [d ev]. cbn [fst st_dsp] in *.
  apply I. split; [reflexivity|]. cbn. lra.
Qed.

Lemma hold_in_range (d : dsp) (r i : Z) (k : nat) :
  filt_in_range d -> INT_MIN <= i <= INT_MAX -> filt_in_range (hold d r i k).
Proof.
  intros I Hi. induction k as [|k IH]; [exact I|].
  unfold hold. rewrite Nat.iter_succ. apply process_sample_in_range; assumption.
Qed.

Lemma hold_step (d : dsp) (r i : Z) (k : nat) :
  ir_filt (hold d r i (S k)) = low_pass (ir_filt (hold d r i k)) (F32.of_int i) /\
  ir_raw (hold d r i (S k)) = F32.of_int i.
Proof.
  unfold hold. rewrite Nat.iter_succ.
  destruct (process_sample_facts (Nat.iter k (fun d' => (process_sample d' r i).1) d) r i)
    as (_ & _ & E1 & E2 & _).
  split; assumption.
Qed.

(** While the same IR integer comes in, each step leaves the filtered value
    between its previous value and the input. *)
Lemma low_pass_steps_between (mem cs : list ascii) (r i : Z) :
  INT_MIN <= i <= INT_MAX ->
  let d0 := st_dsp (process_bytes (init_state mem) cs).1 in
  let x := F32.of_int i in
  let y := fun k => ir_filt (hold d0 r i k) in
  alpha_filt = F32.div (F32.of_int 2) (F32.of_int 10) /\
  (forall k, ir_raw (hold d0 r i (S k)) = x /\
             y (S k) = F32.add (y k) (F32.mul alpha_filt (F32.sub x (y k)))) /\
  ((F32.val (y 0%nat) <= F32.val x)%R ->
   forall k, (F32.val (y k) <= F32.val (y (S k)) <= F32.val x)%R) /\
  ((F32.val x <= F32.val (y 0%nat))%R ->
   forall k, (F32.val x <= F32.val (y (S k)) <= F32.val (y k))%R) /\
  (forall k, (Rabs (F32.val x - F32.val (y (S k)))
              <= Rabs (F32.val x - F32.val (y k)))%R).
Proof.
  intros Hi d0 x y.
  pose proof (reachable_in_range mem cs) as I0. fold d0 in I0.
  assert (Step : forall k,
            (F32.val (y k) <= F32.val x ->
             F32.val (y k) <= F32.val (y (S k)) <= F32.val x)%R /\
            (F32.val x <= F32.val (y k) ->
             F32.val x <= F32.val (y (S k)) <= F32.val (y k))%R).
  { intros k. destruct (hold_in_range d0 r i k I0 Hi) as [W B].
    destruct (low_pass_in_range _ i W B Hi) as (_ & _ & Up & Dn).
    unfold y. destruct (hold_step d0 r i k) as [-> _]. split; assumption. }
  assert (Up : (F32.val (y 0%nat) <= F32.val x)%R ->
               forall k, (F32.val (y k) <= F32.val (y (S k)) <= F32.val x)%R).
  { intros S k. induction k as [|k IH]; [apply Step; exact S|].
    apply Step. apply IH. }
  assert (Dn : (F32.val x <= F32.val (y 0%nat))%R ->
               forall k, (F32.val x <= F32.val (y (S k)) <= F32.val (y k))%R).
  { intros S k. induction k as [|k IH]; [apply Step; exact S|].
    apply Step. apply IH. }
  split; [reflexivity|]. split; [|split; [exact Up|split; [exact Dn|]]].
  - intros k. destruct (hold_step d0 r i k) as [E1 E2]. split; [exact E2|exact E1].
  - intros k.
    destruct (Rle_lt_dec (F32.val (y 0%nat)) (F32.val x)) as [S|S].
    + specialize (Up S k). rewrite !Rabs_pos_eq; lra.
    + assert (S' : (F32.val x <= F32.val (y 0%nat))%R) by lra.
      specialize (Dn S' k).
      rewrite (Rabs_minus_sym (F32.val x)), (Rabs_minus_sym (F32.val x) (F32.val (y k))).
      rewrite !Rabs_pos_eq; lra.
Qed.

Lemma hr_period_positive_and_rate_bounded_witness :
  let d := st_dsp (after_peak_at_10 60) in
  crossing (load_sample d 0 100) = true /\
  outside_refractory (load_sample d 0 100) = true /\
  0 <= last_peak d /\
  let d' := (process_sample d 0 100).1 in
  let delta_n := wrap_int (last_peak d' - prev_peak d') in
  31 <= delta_n /\
  F32.lt F32.zero (period_sec delta_n) = true /\
  (F32.val (inst_hr delta_n) <= 6000 / 31)%R /\
  F32.lt (inst_hr delta_n) max_hr_bpm = true.
Proof.
  cbn zeta.
  assert (C : crossing (load_sample (st_dsp (after_peak_at_10 60)) 0 100) = true)
    by (vm_compute; reflexivity).
  assert (O : outside_refractory (load_sample (st_dsp (after_peak_at_10 60)) 0 100) = true)
    by (vm_compute; reflexivity).
  assert (P : 0 <= last_peak (st_dsp (after_peak_at_10 60)))
    by (vm_compute; discriminate).
  split; [exact C|]. split; [exact O|]. split; [exact P|].
  destruct (hr_period_positive_and_rate_bounded
              (st_dsp (after_peak_at_10 60)) 0 100 C O P)
    as (_ & _ & _ & H4 & H5 & _ & H7 & H8 & _).
  split; [exact H4|]. split; [exact H5|]. split; [exact H7|exact H8].
Defined.

(** ** Two peaks fifty samples apart *)

(** C6. With the previous peak at index 10 and a crossing at index 60, the
    peak is accepted, the period is 50/100 = 0.5 s, the instantaneous rate is
    60/0.5 = 120, which is plausible, [hr_bpm] becomes 120 and
    [hr_bpm_filt] becomes [h + 0.3f * (120 - h)] for its previous value [h],
    in binary32, a value between [h] and 120 whenever [h] is a number within
    the range of [int]; from 0 it is 36, from 100 it is 106. *)
Theorem scenario_peaks_10_and_60 (d : dsp) (r i : Z) :
  last_peak d = 10 -> sample_idx d = 60 ->
  crossing (load_sample d r i) = true ->
  period_sec (60 - 10) = F32.div (F32.of_int 1) (F32.of_int 2) /\
  inst_hr (60 - 10) = F32.of_int 120 /\
  plausible (F32.of_int 120) = true /\
  alpha_hr = F32.div (F32.of_int 3) (F32.of_int 10) /\
  let '(d', ev) := process_sample d r i in
  In (Peak_accepted 60) ev /\
  prev_peak d' = 10 /\ last_peak d' = 60 /\
  hr_bpm d' = F32.of_int 120 /\
  hr_bpm_filt d' =
    F32.add (hr_bpm_filt d)
      (F32.mul alpha_hr (F32.sub (F32.of_int 120) (hr_bpm_filt d))) /\
  In (Print_hr (hr_bpm_filt d')) ev /\
  (hr_bpm_filt d = F32.zero -> hr_bpm_filt d' = F32.of_int 36) /\
  (hr_bpm_filt d = F32.of_int 100 -> hr_bpm_filt d' = F32.of_int 106) /\
  (F32.wf (hr_bpm_filt d) = true ->
   (- 2147483648 <= F32.val (hr_bpm_filt d) <= 2147483648)%R ->
   (F32.val (hr_bpm_filt d) <= 120 ->
    F32.val (hr_bpm_filt d) <= F32.val (hr_bpm_filt d') <= 120)%R /\
   (120 <= F32.val (hr_bpm_filt d) ->
    120 <= F32.val (hr_bpm_filt d') <= F32.val (hr_bpm_filt d))%R).
Proof.
  intros Hl Hs Hc.
  split; [reflexivity|]. split; [reflexivity|]. split; [reflexivity|].
  split; [reflexivity|].
  pose proof (process_sample_hr d r i) as P.
  pose proof (process_sample_peak d r i) as Q.
  destruct (process_sample d r i) as [d' ev]. cbn [fst snd] in *. cbn zeta in *.
  rewrite Hl, Hs in *.
  assert (I : inst_hr (wrap_int (60 - 10)) = F32.of_int 120) by reflexivity.
  assert (O : outside_refractory (load_sample d r i) = true).
  { unfold outside_refractory. cbn [load_sample sample_idx last_peak].
    rewrite Hl, Hs. reflexivity. }
  rewrite I in P.
  assert (T : F32.wf (hr_bpm_filt d) = true ->
              (- 2147483648 <= F32.val (hr_bpm_filt d) <= 2147483648)%R ->
              (F32.val (hr_bpm_filt d) <= 120 ->
               F32.val (hr_bpm_filt d)
               <= F32.val (smooth_hr (hr_bpm_filt d) (F32.of_int 120)) <= 120)%R /\
              (120 <= F32.val (hr_bpm_filt d) ->
               120 <= F32.val (smooth_hr (hr_bpm_filt d) (F32.of_int 120))
               <= F32.val (hr_bpm_filt d))%R).
  { intros W B.
    assert (V : F32.val (F32.of_int 120) = 120%R).
    { replace (F32.of_int 120) with (S754_finite false 15728640 (-17)) by reflexivity.
      val_lra. }
    assert (V2 : F32.val two_32 = 4294967296%R) by (unfold two_32; val_lra).
    destruct (smooth_hr_between (hr_bpm_filt d) (F32.of_int 120) two_32)
      as (_ & Up & Dn); [reflexivity|exact W|reflexivity|rewrite V, V2; lra|].
    rewrite V in Up, Dn. split; assumption. }
  destruct P as [(P1 & _ & _ & P4 & P5 & P6) | (_ & _ & P3)].
  - destruct Q as [_ [(Q1 & _) | (_ & Q2 & Q3 & _)]].
    + rewrite <- Hs in P1. exfalso.
      assert (M : sample_idx d ∈ peaks_of ev).
      { unfold peaks_of. apply list_elem_of_omap.
        exists (Peak_accepted (sample_idx d)). split; [|reflexivity].
        apply list_elem_of_In. exact P1. }
      rewrite Q1 in M. inversion M.
    + refine (conj _ (conj _ (conj _ (conj _ (conj _ (conj _ (conj _ (conj _ _))))))));
        try assumption.
      * intros E. rewrite P5, E. reflexivity.
      * intros E. rewrite P5, E. reflexivity.
      * intros W B. rewrite P5. apply T; assumption.
  - exfalso. specialize (P3 eq_refl Hc O). lia.
Qed.

Lemma scenario_peaks_10_and_60_witness :
  let d := st_dsp (after_peak_at_10 60) in
  last_peak d = 10 /\ sample_idx d = 60 /\
  crossing (load_sample d 0 100) = true /\
  let '(d', ev) := process_sample d 0 100 in
  hr_bpm d' = F32.of_int 120 /\ hr_bpm_filt d' = F32.of_int 36.
Proof.
  cbn zeta.
  split; [reflexivity|]. split; [reflexivity|]. split; [reflexivity|].
  pose proof (scenario_peaks_10_and_60 (st_dsp (after_peak_at_10 60)) 0 100
                eq_refl eq_refl eq_refl) as H.
  destruct (process_sample (st_dsp (after_peak_at_10 60)) 0 100) as [d' ev].
  destruct H as (_ & _ & _ & _ & _ & _ & _ & H1 & _ & _ & H2 & _ & _).
  split; [exact H1|]. apply H2. reflexivity.
Defined.

(** ** Start-up: the port, the file, and what is held *)

Lemma held_port (h : HANDLE) (held : list resource) :
  bool_decide (Port h ∈ Port h :: held) = true.
Proof. apply bool_decide_eq_true_2. left. Qed.

Lemma give_back_port (h : HANDLE) :
  list_difference [Port h] [Port h] = [].
Proof.
  cbn [list_difference].
  destruct (decide_rel _ _ _) as [|N]; [reflexivity|]. exfalso. apply N. left.
Qed.

Lemma give_back_port_file (h : HANDLE) (f : Z) :
  list_difference [File f; Port h] [Port h] = [File f].
Proof.
  cbn [list_difference].
  destruct (decide_rel _ (File f) _) as [M|_].
  { apply list_elem_of_singleton in M. discriminate. }
  destruct (decide_rel _ _ _) as [|N]; [reflexivity|]. exfalso. apply N. left.
Qed.

Lemma resources_app (xs ys : list sys_event) (held : list resource) :
  resources (xs ++ ys) held =
  match resources xs held with
  | Some held' => resources ys held'
  | None => None
  end.
Proof.
  revert held. induction xs as [|e xs IH]; intros held; [reflexivity|].
  cbn [app resources].
  destruct e; try apply IH; destruct (bool_decide _); try apply IH; reflexivity.
Qed.

(** What [setup_serial_port] does on each of its five paths. *)
Lemma setup_serial_port_paths (w : win32) (name : string) :
  let access := Z.lor GENERIC_READ GENERIC_WRITE in
  let h := CreateFile w name access 0 OPEN_EXISTING in
  let got := GetCommState w h dcb_init in
  let dcb := dcb_8N1 got.2 in
  let '(r, ev) := setup_serial_port w name in
  (h = INVALID_HANDLE_VALUE /\ r = INVALID_HANDLE_VALUE /\
   ev = [Sys_CreateFile name access 0 OPEN_EXISTING h;
         Sys_printf (msg_name "Error opening serial port " name)]) \/
  (h <> INVALID_HANDLE_VALUE /\
   exists done failed,
     ev = Sys_CreateFile name access 0 OPEN_EXISTING h ::
          Sys_printf (msg_name "Serial Port opened: " name) :: done ++ failed /\
     resources done [Port h] = Some [Port h] /\ Forall config_call done /\
     ((r = INVALID_HANDLE_VALUE /\
       (exists text, failed = [Sys_printf text; Sys_CloseHandle h]) /\
       (got.1 = 0 \/ SetCommState w h dcb = 0 \/
        SetCommTimeouts w h timeouts_init = 0)) \/
      (r = h /\ failed = [] /\
       done = [Sys_GetCommState h; Sys_SetCommState h dcb;
               Sys_SetCommTimeouts h timeouts_init] /\
       got.1 <> 0 /\ SetCommState w h dcb <> 0 /\
       SetCommTimeouts w h timeouts_init <> 0))).
Proof.
  cbn zeta. unfold setup_serial_port.
  destruct (Z.eqb_spec (CreateFile w name (Z.lor GENERIC_READ GENERIC_WRITE) 0
                          OPEN_EXISTING) INVALID_HANDLE_VALUE) as [E|E].
  { left. rewrite E. repeat split; reflexivity. }
  set (h := CreateFile w name (Z.lor GENERIC_READ GENERIC_WRITE) 0 OPEN_EXISTING) in *.
  destruct (GetCommState w h dcb_init) as [got dcb0] eqn:G. cbn [fst snd].
  destruct (Z.eqb_spec got 0) as [G0|G0].
  { right. split; [exact E|].
    exists [Sys_GetCommState h], [Sys_printf (msg "Error getting serial port state");
                                  Sys_CloseHandle h].
    split; [reflexivity|]. split; [|split].
    - cbn [resources]. rewrite held_port. reflexivity.
    - repeat constructor.
    - left. split; [reflexivity|]. split; [eexists; reflexivity|]. left. exact G0. }
  destruct (Z.eqb_spec (SetCommState w h (dcb_8N1 dcb0)) 0) as [S0|S0].
  { right. split; [exact E|].
    exists [Sys_GetCommState h; Sys_SetCommState h (dcb_8N1 dcb0)],
           [Sys_printf (msg "Error setting serial port parameters");
            Sys_CloseHandle h].
    split; [reflexivity|]. split; [|split].
    - cbn [resources]. rewrite !held_port. reflexivity.
    - repeat constructor.
    - left. split; [reflexivity|]. split; [eexists; reflexivity|].
      right. left. exact S0. }
  destruct (Z.eqb_spec (SetCommTimeouts w h timeouts_init) 0) as [T0|T0].
  { right. split; [exact E|].
    exists [Sys_GetCommState h; Sys_SetCommState h (dcb_8N1 dcb0);
            Sys_SetCommTimeouts h timeouts_init],
           [Sys_printf (msg "Error setting serial port timeouts");
            Sys_CloseHandle h].
    split; [reflexivity|]. split; [|split].
    - cbn [resources]. rewrite !held_port. reflexivity.
    - repeat constructor.
    - left. split; [reflexivity|]. split; [eexists; reflexivity|].
      right. right. exact T0. }
  right. split; [exact E|].
  exists [Sys_GetCommState h; Sys_SetCommState h (dcb_8N1 dcb0);
          Sys_SetCommTimeouts h timeouts_init], [].
  split; [reflexivity|]. split; [|split].
  - cbn [resources]. rewrite !held_port. reflexivity.
  - repeat constructor.
  - right. repeat split; assumption.
Qed.

Lemma setup_serial_port_resources (w : win32) (name : string) :
  let '(r, ev) := setup_serial_port w name in
  resources ev [] = Some (if r =? INVALID_HANDLE_VALUE then [] else [Port r]) /\
  forall n m f, ~ In (Sys_fopen n m f) ev.
Proof.
  pose proof (setup_serial_port_paths w name) as P. cbn zeta in P.
  destruct (setup_serial_port w name) as [r ev].
  set (h := CreateFile w name (Z.lor GENERIC_READ GENERIC_WRITE) 0 OPEN_EXISTING) in *.
  destruct P as [(E & -> & ->) | (E & done & failed & -> & R & C & P)].
  - split.
    + cbn [resources]. rewrite E. reflexivity.
    + intros n m f [M|[M|[]]]; discriminate.
  - assert (E' : (h =? INVALID_HANDLE_VALUE) = false) by (apply Z.eqb_neq; exact E).
    destruct P as [(-> & (text & ->) & F) | (-> & -> & -> & G & S & T)].
    + split.
      * cbn [resources]. rewrite E'. rewrite resources_app, R.
        cbn [resources]. rewrite held_port, give_back_port. reflexivity.
      * intros n m f [M|[M|M]]; try discriminate.
        apply in_app_or in M. destruct M as [M|[M|[M|[]]]]; try discriminate.
        apply (proj1 (List.Forall_forall _ _) C) in M. exact M.
    + split.
      * rewrite E'. cbn [resources app]. rewrite E'. cbn [resources]. rewrite !held_port. reflexivity.
      * intros n m f M. cbn in M. intuition discriminate.
Qed.

(** X1. [setup_serial_port] never leaks the port and never touches a handle
    it does not hold: on every path the calls are made on the handle that
    [CreateFile] returned while it is open; when the function returns
    [INVALID_HANDLE_VALUE] nothing is held any more, otherwise exactly the
    returned handle is.  It returns a handle exactly when [CreateFile],
    [GetCommState], [SetCommState] and [SetCommTimeouts] all succeeded, and
    the port was then set to 115200 baud, 8 data bits, no parity, one stop
    bit, the other members being those read by [GetCommState], with the read
    timeouts 50 (interval), 10 (per byte) and 50 (constant) ms and no write
    timeout. *)
Theorem setup_serial_port_holds_or_releases (w : win32) (name : string) :
  let access := Z.lor GENERIC_READ GENERIC_WRITE in
  let h := CreateFile w name access 0 OPEN_EXISTING in
  let got := GetCommState w h dcb_init in
  let dcb := dcb_8N1 got.2 in
  let '(r, ev) := setup_serial_port w name in
  resources ev [] = Some (if r =? INVALID_HANDLE_VALUE then [] else [Port r]) /\
  (r <> INVALID_HANDLE_VALUE <->
   h <> INVALID_HANDLE_VALUE /\ got.1 <> 0 /\ SetCommState w h dcb <> 0 /\
   SetCommTimeouts w h timeouts_init <> 0) /\
  (r <> INVALID_HANDLE_VALUE ->
   r = h /\
   ev = [Sys_CreateFile name access 0 OPEN_EXISTING h;
         Sys_printf (msg_name "Serial Port opened: " name);
         Sys_GetCommState h; Sys_SetCommState h dcb;
         Sys_SetCommTimeouts h timeouts_init] /\
   BaudRate dcb = 115200 /\ ByteSize dcb = 8 /\ Parity dcb = 0 /\
   StopBits dcb = 0 /\ fFlags dcb = fFlags got.2 /\
   XonLim dcb = XonLim got.2 /\ XoffLim dcb = XoffLim got.2 /\
   XonChar dcb = XonChar got.2 /\ XoffChar dcb = XoffChar got.2 /\
   ReadIntervalTimeout timeouts_init = 50 /\
   ReadTotalTimeoutMultiplier timeouts_init = 10 /\
   ReadTotalTimeoutConstant timeouts_init = 50 /\
   WriteTotalTimeoutMultiplier timeouts_init = 0 /\
   WriteTotalTimeoutConstant timeouts_init = 0).
Proof.
  cbn zeta. pose proof (setup_serial_port_paths w name) as P. cbn zeta in P.
  pose proof (setup_serial_port_resources w name) as Q.
  destruct (setup_serial_port w name) as [r ev].
  set (h := CreateFile w name (Z.lor GENERIC_READ GENERIC_WRITE) 0 OPEN_EXISTING) in *.
  destruct Q as [Q _]. split; [exact Q|]. clear Q.
  destruct P as [(E & -> & ->) | (E & done & failed & -> & R & C & P)].
  - split.
    + split; [intros N; contradiction|intros (N & _); contradiction].
    + intros N. contradiction.
  - destruct P as [(-> & (text & ->) & F) | (-> & -> & -> & G & S & T)].
    + split.
      * split; [intros N; contradiction|].
        intros (_ & G & S & T). destruct F as [F|[F|F]]; contradiction.
      * intros N. contradiction.
    + split.
      * split; [intros _; repeat split; assumption|intros _; exact E].
      * intros _. repeat split; reflexivity.
Qed.

(** X2. [main] never returns 0 and never leaves the loop: it returns 1
    before the loop when the port or the file cannot be opened, having
    given back the port handle if it had one and without opening the file
    when the port failed; once both are open it holds both and is still
    running after any number of polls, whatever [ReadFile] stores in
    [n_bytes]. *)
Theorem main_returns_only_on_failed_start (w : win32) (mem : list ascii)
    (ps : list poll) (a b : Z) :
  Forall (fun p => 0 <= n_bytes p < DWORD_MOD) ps ->
  let '(ev, ev', status) := main w mem ps a b in
  let port := (setup_serial_port w "COM5").1 in
  let file := fopen w "../Export/data.csv" "w" in
  (status = Some 1 /\ ev' = [] /\ resources ev [] = Some [] /\
   (port = INVALID_HANDLE_VALUE \/ file = NULL) /\
   (port = INVALID_HANDLE_VALUE ->
    forall name mode f, ~ In (Sys_fopen name mode f) ev)) \/
  (status = None /\ port <> INVALID_HANDLE_VALUE /\ file <> NULL /\
   resources ev [] = Some [File file; Port port] /\
   ev' = (main_loop (init_state mem) ps a b).1.2).
Proof.
  intros Hps. unfold main, main_start.
  pose proof (setup_serial_port_resources w "COM5") as P.
  destruct (setup_serial_port w "COM5") as [r ev1]. cbn [fst].
  destruct P as (R & Hno).
  destruct (Z.eqb_spec r INVALID_HANDLE_VALUE) as [E|E].
  - left. split; [reflexivity|]. split; [reflexivity|]. split; [exact R|].
    split; [left; exact E|]. intros _ name mode f M.
    apply Hno in M. exact M.
  - destruct (Z.eqb_spec (fopen w "../Export/data.csv" "w") NULL) as [F|F].
    + left. split; [reflexivity|]. split; [reflexivity|]. split.
      * rewrite !resources_app, R. cbn [resources]. rewrite F. cbn [Z.eqb NULL].
        rewrite held_port, give_back_port. reflexivity.
      * split; [right; exact F|]. intros N. contradiction.
    + pose proof (main_loop_never_exits ps (init_state mem) a b Hps) as L.
      destruct (main_loop (init_state mem) ps a b) as [[s' ev'] st].
      cbn [fst snd] in *. subst st. right.
      split; [reflexivity|]. split; [exact E|]. split; [exact F|]. split.
      * rewrite !resources_app, R. cbn [resources].
        apply Z.eqb_neq in F. rewrite F. reflexivity.
      * reflexivity.
Qed.

Lemma main_returns_only_on_failed_start_witness :
  let ps := [deliver (chars "1,50" ++ [LF]); {| n_bytes := 0; chunk := [] |}] in
  let mem := replicate BUFFER_SIZE NUL in
  Forall (fun p => 0 <= n_bytes p < DWORD_MOD) ps /\
  (main win32_ok mem ps 0 0).2 = None /\
  (main win32_no_port mem ps 0 0).2 = Some 1.
Proof.
  cbn zeta.
  assert (H : Forall (fun p => 0 <= n_bytes p < DWORD_MOD)
                [deliver (chars "1,50" ++ [LF]); {| n_bytes := 0; chunk := [] |}])
    by (repeat constructor; cbn; unfold DWORD_MOD; lia).
  split; [exact H|]. split.
  - pose proof (main_returns_only_on_failed_start win32_ok
                  (replicate BUFFER_SIZE NUL) _ 0 0 H) as T.
    destruct (main win32_ok _ _ 0 0) as [[ev ev'] st]. cbn [snd].
    destruct T as [(_ & _ & _ & [E|E] & _)|(T & _)]; [| |exact T].
    + vm_compute in E. discriminate E.
    + vm_compute in E. discriminate E.
  - pose proof (main_returns_only_on_failed_start win32_no_port
                  (replicate BUFFER_SIZE NUL) _ 0 0 H) as T.
    destruct (main win32_no_port _ _ 0 0) as [[ev ev'] st]. cbn [snd].
    destruct T as [(T & _)|(_ & E & _)]; [exact T|].
    exfalso. apply E. vm_compute. reflexivity.
Defined.

(** ** The line buffer: bounds, stale contents, records of any length *)

Lemma c_str_checked_found (mem : list ascii) (i : nat) :
  mem !! i = Some NUL ->
  c_str_checked mem = Some (c_str mem) /\ (length (c_str mem) <= i)%nat.
Proof.
  revert i. induction mem as [|c mem IH]; intros i H; [discriminate|].
  cbn [c_str_checked c_str].
  destruct (Ascii.eqb c NUL) eqn:E; [split; [reflexivity|cbn; lia]|].
  destruct i as [|i]; cbn in H.
  - injection H as ->. discriminate.
  - destruct (IH i H) as [-> L]. split; [reflexivity|cbn [length]; lia].
Qed.

Lemma feed_byte_checked_ok (b : line_buf) (c : ascii) :
  length (buffer b) = BUFFER_SIZE -> (buffer_index b < BUFFER_SIZE)%nat ->
  feed_byte_checked b c = Some (feed_byte b c) /\
  length (buffer (feed_byte b c).1) = BUFFER_SIZE /\
  (buffer_index (feed_byte b c).1 < BUFFER_SIZE)%nat /\
  match (feed_byte b c).2 with
  | Line l => (length l <= buffer_index b)%nat
  | _ => True
  end.
Proof.
  intros L I. unfold feed_byte_checked, feed_byte, store.
  assert (T : (buffer_index b <? length (buffer b))%nat = true)
    by (apply Nat.ltb_lt; lia).
  rewrite T.
  destruct (Ascii.eqb c LF).
  - assert (N : <[buffer_index b := NUL]> (buffer b) !! buffer_index b = Some NUL)
      by (apply list_lookup_insert_eq; lia).
    destruct (c_str_checked_found _ _ N) as [-> Hl].
    cbn [fst snd buffer buffer_index]. rewrite length_insert.
    unfold BUFFER_SIZE in *. repeat split; try lia.
  - destruct (buffer_index b <? BUFFER_SIZE - 1)%nat eqn:Lt;
      cbn [fst snd buffer buffer_index].
    + apply Nat.ltb_lt in Lt. rewrite length_insert.
      unfold BUFFER_SIZE in *. repeat split; lia.
    + unfold BUFFER_SIZE in *. repeat split; lia.
Qed.

Lemma feed_bytes_checked_ok (cs : list ascii) (b : line_buf) :
  length (buffer b) = BUFFER_SIZE -> (buffer_index b < BUFFER_SIZE)%nat ->
  feed_bytes_checked b cs = Some (feed_bytes b cs) /\
  Forall (fun l => (length l < BUFFER_SIZE)%nat) (lines_of (feed_bytes b cs).2).
Proof.
  revert b. induction cs as [|c cs IH]; intros b L I.
  - split; [reflexivity|constructor].
  - cbn [feed_bytes_checked feed_bytes].
    destruct (feed_byte_checked_ok b c L I) as (-> & L1 & I1 & Hl).
    destruct (feed_byte b c) as [b1 r]. cbn [fst snd] in *.
    destruct (IH b1 L1 I1) as [-> F].
    destruct (feed_bytes b1 cs) as [b2 rs]. cbn [fst snd] in *.
    split; [reflexivity|].
    destruct r as [l| |]; cbn [lines_of]; try exact F.
    constructor; [lia|exact F].
Qed.

(** X3. No input makes the program write or read outside of [buffer]: from
    the empty buffer, over any run of bytes, every store [buffer[buffer_index]]
    falls inside the 1024 cells, [sscanf] always finds the NUL that ends the
    line inside the array, the index stays below [BUFFER_SIZE], and no line
    handed to [sscanf] is longer than [BUFFER_SIZE - 1] characters. *)
Theorem buffer_accesses_stay_in_bounds (mem cs : list ascii) :
  length mem = BUFFER_SIZE ->
  let b0 := {| buffer := mem; buffer_index := 0 |} in
  feed_bytes_checked b0 cs = Some (feed_bytes b0 cs) /\
  length (buffer (feed_bytes b0 cs).1) = BUFFER_SIZE /\
  (buffer_index (feed_bytes b0 cs).1 <= BUFFER_SIZE - 1)%nat /\
  Forall (fun l => (length l <= BUFFER_SIZE - 1)%nat)
         (lines_of (feed_bytes b0 cs).2).
Proof.
  intros L b0.
  assert (I : (buffer_index b0 < BUFFER_SIZE)%nat) by (cbn; unfold BUFFER_SIZE; lia).
  destruct (feed_bytes_checked_ok cs b0 L I) as [C F].
  destruct (feed_bytes_wf cs b0 L I) as [L' I'].
  split; [exact C|]. split; [exact L'|]. split; [lia|].
  eapply List.Forall_impl; [|exact F]. cbn beta. intros l. lia.
Qed.

Lemma buffer_accesses_stay_in_bounds_witness :
  let mem := replicate BUFFER_SIZE "x"%char in
  let cs := replicate 2050 "y"%char ++ [LF] in
  length mem = BUFFER_SIZE /\
  feed_bytes_checked {| buffer := mem; buffer_index := 0 |} cs =
    Some (feed_bytes {| buffer := mem; buffer_index := 0 |} cs) /\
  lines_of (feed_bytes {| buffer := mem; buffer_index := 0 |} cs).2 = [["y"; "y"]%char].
Proof.
  cbn zeta. split; [reflexivity|]. split.
  - apply (buffer_accesses_stay_in_bounds
             (replicate BUFFER_SIZE "x"%char) (replicate 2050 "y"%char ++ [LF])).
    reflexivity.
  - vm_compute. reflexivity.
Defined.

(** Two buffers that hold the same pending bytes. *)
Lemma feed_byte_same_pending (b1 b2 : line_buf) (c : ascii) :
  length (buffer b1) = BUFFER_SIZE -> length (buffer b2) = BUFFER_SIZE ->
  (buffer_index b1 < BUFFER_SIZE)%nat ->
  buffer_index b1 = buffer_index b2 ->
  take (buffer_index b1) (buffer b1) = take (buffer_index b1) (buffer b2) ->
  let r1 := feed_byte b1 c in
  let r2 := feed_byte b2 c in
  r1.2 = r2.2 /\ buffer_index r1.1 = buffer_index r2.1 /\
  take (buffer_index r1.1) (buffer r1.1) = take (buffer_index r1.1) (buffer r2.1).
Proof.
  intros L1 L2 I E T. cbn zeta. unfold feed_byte. rewrite <- E.
  destruct (Ascii.eqb c LF).
  - cbn [fst snd buffer buffer_index]. split; [|split; reflexivity].
    f_equal.
    change (current_line b1 =
            current_line {| buffer := buffer b2; buffer_index := buffer_index b1 |}).
    rewrite !current_line_stored by (cbn [buffer buffer_index]; lia).
    cbn [buffer buffer_index]. rewrite T. reflexivity.
  - destruct (buffer_index b1 <? BUFFER_SIZE - 1)%nat;
      cbn [fst snd buffer buffer_index].
    + split; [reflexivity|]. split; [reflexivity|].
      rewrite !(take_S_r _ _ c) by (apply list_lookup_insert_eq; lia).
      rewrite !take_insert_ge by lia. rewrite T. reflexivity.
    + split; [reflexivity|]. split; reflexivity.
Qed.

Lemma feed_bytes_same_pending (cs : list ascii) (b1 b2 : line_buf) :
  length (buffer b1) = BUFFER_SIZE -> length (buffer b2) = BUFFER_SIZE ->
  (buffer_index b1 < BUFFER_SIZE)%nat ->
  buffer_index b1 = buffer_index b2 ->
  take (buffer_index b1) (buffer b1) = take (buffer_index b1) (buffer b2) ->
  let r1 := feed_bytes b1 cs in
  let r2 := feed_bytes b2 cs in
  r1.2 = r2.2 /\ buffer_index r1.1 = buffer_index r2.1 /\
  take (buffer_index r1.1) (buffer r1.1) = take (buffer_index r1.1) (buffer r2.1).
Proof.
  revert b1 b2. induction cs as [|c cs IH]; intros b1 b2 L1 L2 I E T; cbn zeta.
  - cbn [feed_bytes fst snd]. repeat split; assumption.
  - cbn [feed_bytes].
    destruct (feed_byte_same_pending b1 b2 c L1 L2 I E T) as (R & E' & T').
    assert (I2 : (buffer_index b2 < BUFFER_SIZE)%nat) by lia.
    destruct (feed_bytes_wf [c] b1 L1 I) as [L1' I1'].
    destruct (feed_bytes_wf [c] b2 L2 I2) as [L2' _].
    cbn [feed_bytes] in L1', I1', L2'.
    destruct (feed_byte b1 c) as [b1' r1]. destruct (feed_byte b2 c) as [b2' r2].
    cbn [fst snd] in *.
    specialize (IH b1' b2' L1' L2' I1' E' T'). cbn zeta in IH.
    destruct (feed_bytes b1' cs) as [b1'' rs1].
    destruct (feed_bytes b2' cs) as [b2'' rs2].
    cbn [fst snd] in *. destruct IH as (-> & IH). subst r2. split; [reflexivity|exact IH].
Qed.

(** X4. The program never initialises [buffer], and its output does not
    depend on what the array holds at the start: two runs over the same
    bytes from any two initial contents print and write the same things,
    end with the same DSP variables and with the same pending line. *)
Theorem stale_buffer_contents_do_not_matter (mem1 mem2 cs : list ascii) :
  length mem1 = BUFFER_SIZE -> length mem2 = BUFFER_SIZE ->
  let '(s1, ev1) := process_bytes (init_state mem1) cs in
  let '(s2, ev2) := process_bytes (init_state mem2) cs in
  ev1 = ev2 /\ st_dsp s1 = st_dsp s2 /\
  buffer_index (st_buf s1) = buffer_index (st_buf s2) /\
  current_line (st_buf s1) = current_line (st_buf s2).
Proof.
  intros L1 L2. rewrite !process_bytes_split. cbn [init_state st_buf st_dsp].
  set (b1 := {| buffer := mem1; buffer_index := 0 |}).
  set (b2 := {| buffer := mem2; buffer_index := 0 |}).
  assert (I : (buffer_index b1 < BUFFER_SIZE)%nat) by (cbn; unfold BUFFER_SIZE; lia).
  destruct (feed_bytes_same_pending cs b1 b2 L1 L2 I eq_refl eq_refl) as (R & E & T).
  destruct (feed_bytes_wf cs b1 L1 I) as [L1' I1'].
  destruct (feed_bytes_wf cs b2 L2 I) as [L2' I2'].
  destruct (feed_bytes b1 cs) as [b1' rs1]. destruct (feed_bytes b2 cs) as [b2' rs2].
  cbn [fst snd] in *. subst rs2.
  destruct (run_results init_dsp rs1) as [d ev]. cbn [st_dsp st_buf].
  split; [reflexivity|]. split; [reflexivity|]. split; [exact E|].
  rewrite !current_line_stored by lia. rewrite <- E, T. reflexivity.
Qed.

Lemma stale_buffer_contents_do_not_matter_witness :
  let mem1 := replicate BUFFER_SIZE NUL in
  let mem2 := replicate BUFFER_SIZE "7"%char in
  let cs := chars "12,50" ++ LF :: chars "3,4" in
  length mem1 = BUFFER_SIZE /\ length mem2 = BUFFER_SIZE /\
  (process_bytes (init_state mem1) cs).2 = (process_bytes (init_state mem2) cs).2.
Proof.
  cbn zeta. split; [reflexivity|]. split; [reflexivity|].
  pose proof (stale_buffer_contents_do_not_matter
                (replicate BUFFER_SIZE NUL) (replicate BUFFER_SIZE "7"%char)
                (chars "12,50" ++ LF :: chars "3,4") eq_refl eq_refl) as H.
  destruct (process_bytes (init_state (replicate BUFFER_SIZE NUL)) _) as [s1 ev1].
  destruct (process_bytes (init_state (replicate BUFFER_SIZE "7"%char)) _) as [s2 ev2].
  exact (proj1 H).
Defined.

(** One record of any length, followed by its newline, on an empty buffer. *)
Lemma feed_bytes_any_record (w mem : list ascii) :
  Forall (fun c => c <> LF) w -> length mem = BUFFER_SIZE ->
  exists mem' rs,
    feed_bytes {| buffer := mem; buffer_index := 0 |} (w ++ [LF]) =
      ({| buffer := mem'; buffer_index := 0 |}, rs) /\
    length mem' = BUFFER_SIZE /\
    lines_of rs = [line_of_record w] /\
    overflows_of rs = (length w / BUFFER_SIZE)%nat.
Proof.
  intros Hw L.
  destruct (feed_bytes_junk _ w mem Hw L eq_refl) as (mem1 & rs1 & F & L1 & T & Hl & Ho).
  rewrite feed_bytes_app, F. cbn [feed_bytes]. rewrite feed_byte_LF.
  assert (I : (length w mod BUFFER_SIZE < BUFFER_SIZE)%nat)
    by (apply Nat.mod_upper_bound; discriminate).
  rewrite current_line_stored by (cbn [buffer buffer_index]; lia).
  cbn [buffer buffer_index]. rewrite T.
  eexists _, _. split; [reflexivity|]. split; [rewrite length_insert; exact L1|].
  rewrite lines_of_app, overflows_of_app, Hl, Ho. cbn [lines_of overflows_of app].
  split; [reflexivity|lia].
Qed.

Lemma feed_bytes_stream (ws : list (list ascii)) (mem : list ascii) :
  Forall (Forall (fun c => c <> LF)) ws -> length mem = BUFFER_SIZE ->
  exists mem' rs,
    feed_bytes {| buffer := mem; buffer_index := 0 |} (stream_of ws) =
      ({| buffer := mem'; buffer_index := 0 |}, rs) /\
    length mem' = BUFFER_SIZE /\
    lines_of rs = map line_of_record ws /\
    overflows_of rs = sum_list (map (fun w => (length w / BUFFER_SIZE)%nat) ws).
Proof.
  revert mem. induction ws as [|w ws IH]; intros mem Hws L.
  - exists mem, []. repeat split; [exact L].
  - apply Forall_cons in Hws. destruct Hws as [Hw Hws].
    destruct (feed_bytes_any_record w mem Hw L) as (mem1 & rs1 & F1 & L1 & Hl1 & Ho1).
    destruct (IH mem1 Hws L1) as (mem2 & rs2 & F2 & L2 & Hl2 & Ho2).
    exists mem2, (rs1 ++ rs2).
    unfold stream_of in *. cbn [map concat]. rewrite feed_bytes_app, F1, F2.
    split; [reflexivity|]. split; [exact L2|].
    rewrite lines_of_app, overflows_of_app, Hl1, Hl2, Ho1, Ho2. split; reflexivity.
Qed.

(** X5. What the reassembler makes of records of any length.  A stream of
    records, each closed by a newline, yields one line per record, in order;
    the line of a record is what follows its last full block of
    [BUFFER_SIZE] bytes, cut at the first NUL, so a record shorter than
    [BUFFER_SIZE] with no NUL comes out whole and the bytes after a NUL are
    never seen by [sscanf]; a record prints the overflow diagnostic once per
    full block; bytes after the last newline yield nothing, and the buffer
    is empty again after each newline. *)
Theorem lines_of_a_stream (ws : list (list ascii)) (tail mem : list ascii) :
  Forall (Forall (fun c => c <> LF)) ws -> Forall (fun c => c <> LF) tail ->
  length mem = BUFFER_SIZE ->
  let b0 := {| buffer := mem; buffer_index := 0 |} in
  lines_of (feed_bytes b0 (stream_of ws ++ tail)).2 = map line_of_record ws /\
  buffer_index (feed_bytes b0 (stream_of ws)).1 = 0%nat /\
  overflows_of (feed_bytes b0 (stream_of ws)).2
    = sum_list (map (fun w => (length w / BUFFER_SIZE)%nat) ws) /\
  (forall w, (length w < BUFFER_SIZE)%nat -> Forall (fun c => c <> NUL) w ->
             line_of_record w = w) /\
  (forall a b, (length (a ++ NUL :: b) < BUFFER_SIZE)%nat ->
               line_of_record (a ++ NUL :: b) = line_of_record a).
Proof.
  intros Hws Ht L b0.
  destruct (feed_bytes_stream ws mem Hws L) as (mem1 & rs1 & F & L1 & Hl & Ho).
  destruct (feed_bytes_junk _ tail mem1 Ht L1 eq_refl) as (mem2 & rs2 & F2 & _ & _ & Hl2 & _).
  unfold b0. rewrite feed_bytes_app, F, F2. cbn [fst snd buffer_index].
  rewrite lines_of_app, Hl, Hl2, app_nil_r.
  split; [reflexivity|]. split; [reflexivity|]. split; [exact Ho|]. split.
  - intros w Hlen Hn. unfold line_of_record.
    rewrite Nat.div_small by exact Hlen. cbn [Nat.mul]. rewrite drop_0.
    apply c_str_no_NUL. exact Hn.
  - intros a b Hlen. unfold line_of_record.
    rewrite Nat.div_small by exact Hlen.
    rewrite length_app in Hlen. cbn [length] in Hlen.
    rewrite Nat.div_small by lia. cbn [Nat.mul]. rewrite !drop_0.
    apply c_str_app_NUL.
Qed.

Lemma lines_of_a_stream_witness :
  let ws := [chars "12,50"; replicate 1030 "x"%char; chars "7," ++ NUL :: chars "9"] in
  Forall (Forall (fun c => c <> LF)) ws /\
  lines_of (feed_bytes {| buffer := replicate BUFFER_SIZE NUL; buffer_index := 0 |}
              (stream_of ws ++ chars "34")).2
  = [chars "12,50"; replicate 6 "x"%char; chars "7,"].
Proof.
  cbn zeta.
  assert (H : Forall (Forall (fun c => c <> LF))
                [chars "12,50"; replicate 1030 "x"%char; chars "7," ++ NUL :: chars "9"]).
  { constructor; [repeat constructor; discriminate|].
    constructor; [apply Forall_replicate; discriminate|].
    constructor; [repeat constructor; discriminate|constructor]. }
  split; [exact H|].
  destruct (lines_of_a_stream _ (chars "34") (replicate BUFFER_SIZE NUL) H)
    as [E _].
  - repeat constructor; discriminate.
  - reflexivity.
  - rewrite E. vm_compute. reflexivity.
Defined.

(** ** One sample in closed form, and invariants of a whole run *)

Lemma pairs_of_app (xs ys : list event) :
  pairs_of (xs ++ ys) = pairs_of xs ++ pairs_of ys.
Proof. apply omap_app. Qed.

Lemma hrs_of_app (xs ys : list event) :
  hrs_of (xs ++ ys) = hrs_of xs ++ hrs_of ys.
Proof. apply omap_app. Qed.

(** What one sample does, with the two tests of the detector and the three
    of the estimate written out. *)
Lemma process_sample_cases (d : dsp) (r i : Z) :
  let y := low_pass (ir_filt d) (F32.of_int i) in
  let acc := F32.lt (prev_ir_filt d) peak_thr && F32.ge y peak_thr
             && (refractory_n <? wrap_int (sample_idx d - last_peak d)) in
  let hr := inst_hr (wrap_int (sample_idx d - last_peak d)) in
  let pr := acc && (0 <=? last_peak d) && plausible hr in
  process_sample d r i =
  ({| red_raw := F32.of_int r; ir_raw := F32.of_int i; ir_filt := y;
      hr_bpm := if pr then hr else hr_bpm d;
      hr_bpm_filt := if pr then smooth_hr (hr_bpm_filt d) hr else hr_bpm_filt d;
      sample_idx := wrap_int (sample_idx d + 1);
      last_peak := if acc then sample_idx d else last_peak d;
      prev_peak := if acc then last_peak d else prev_peak d;
      prev_ir_filt := y; proc_val := y |},
   Print_pair r i ::
     (if acc then [Peak_accepted (sample_idx d)] else []) ++
     (if pr then [Print_hr (smooth_hr (hr_bpm_filt d) hr)] else []) ++
     [Csv_write y]).
Proof.
  cbn zeta. unfold process_sample, detect_peak, estimate_hr.
  unfold crossing at 1. unfold outside_refractory at 1.
  cbn [load_sample prev_ir_filt ir_filt sample_idx last_peak prev_peak hr_bpm_filt].
  destruct (F32.lt (prev_ir_filt d) peak_thr); [|reflexivity].
  destruct (F32.ge (low_pass (ir_filt d) (F32.of_int i)) peak_thr); [|reflexivity].
  destruct (refractory_n <? wrap_int (sample_idx d - last_peak d)); [|reflexivity].
  cbn [andb].
  destruct (0 <=? last_peak d); [|reflexivity].
  destruct (plausible (inst_hr (wrap_int (sample_idx d - last_peak d))));
    reflexivity.
Qed.

(** A property of the state and of the trace so far that every sample and
    every overflow keeps holds along any run of bytes.  The integers of a
    sample are those [sscanf] left in the two targets, so they are within
    the range of [int]. *)
Lemma scan_d_range_red (line : list ascii) (n r i : Z) :
  sscanf_d_comma_d line 0 0 = (n, r, i) ->
  INT_MIN <= r <= INT_MAX /\ INT_MIN <= i <= INT_MAX.
Proof.
  intros H. split; [|exact (sscanf_in_range line n r i H)].
  unfold sscanf_d_comma_d in H.
  destruct (scan_d line) as [[v rest]|] eqn:E.
  - pose proof (scan_d_in_range line v rest E) as Rg.
    destruct rest as [|c rest']; [injection H as _ <- _; exact Rg|].
    destruct (Ascii.eqb c ","); [|injection H as _ <- _; exact Rg].
    destruct (scan_d rest') as [[v2 rest2]|]; injection H as _ <- _; exact Rg.
  - injection H as _ <- _. unfold INT_MIN, INT_MAX. lia.
Qed.

Lemma process_bytes_invariant (J : dsp -> list event -> Prop) :
  (forall d ev, J d ev -> J d (ev ++ [Stderr_overflow])) ->
  (forall d ev r i, J d ev ->
     INT_MIN <= r <= INT_MAX -> INT_MIN <= i <= INT_MAX ->
     J (process_sample d r i).1 (ev ++ (process_sample d r i).2)) ->
  forall (cs : list ascii) (s : state) (ev0 : list event),
    J (st_dsp s) ev0 ->
    J (st_dsp (process_bytes s cs).1) (ev0 ++ (process_bytes s cs).2).
Proof.
  intros Hov Hsm. induction cs as [|c cs IH]; intros s ev0 H.
  - cbn [process_bytes fst snd]. rewrite app_nil_r. exact H.
  - cbn [process_bytes].
    assert (H1 : J (st_dsp (process_byte s c).1) (ev0 ++ (process_byte s c).2)).
    { unfold process_byte. destruct (feed_byte (st_buf s) c) as [b' [line| |]].
      - unfold process_line.
        destruct (sscanf_d_comma_d line 0 0) as [[n r] i] eqn:E.
        destruct (scan_d_range_red line n r i E) as [Rr Ri].
        specialize (Hsm (st_dsp s) ev0 r i H Rr Ri).
        destruct (process_sample (st_dsp s) r i) as [d' ev]. exact Hsm.
      - cbn [fst snd st_dsp]. apply Hov. exact H.
      - cbn [fst snd st_dsp]. rewrite app_nil_r. exact H. }
    destruct (process_byte s c) as [s1 ev1]. cbn [fst snd] in H1.
    specialize (IH s1 (ev0 ++ ev1) H1).
    destruct (process_bytes s1 cs) as [s2 ev2]. cbn [fst snd] in *.
    rewrite app_assoc. exact IH.
Qed.

Lemma wrap_int_add_l (a b : Z) : wrap_int (wrap_int a + b) = wrap_int (a + b).
Proof.
  unfold wrap_int, DWORD_MOD.
  replace ((a + 2147483648) mod 4294967296 - 2147483648 + b + 2147483648)
    with ((a + 2147483648) mod 4294967296 + b) by lia.
  rewrite Z.add_mod_idemp_l by lia. f_equal. f_equal. lia.
Qed.

Lemma process_byte_counts (s : state) (c : ascii) :
  INT_MIN <= sample_idx (st_dsp s) <= INT_MAX ->
  let '(s', ev) := process_byte s c in
  let k := if Ascii.eqb c LF then 1%nat else 0%nat in
  length (csv_of ev) = k /\ length (pairs_of ev) = k /\
  sample_idx (st_dsp s') = wrap_int (sample_idx (st_dsp s) + Z.of_nat k) /\
  (k = 0%nat -> st_dsp s' = st_dsp s) /\
  (k = 1%nat -> last (csv_of ev) = Some (proc_val (st_dsp s')) /\
                proc_val (st_dsp s') = ir_filt (st_dsp s')).
Proof.
  intros Rg. unfold process_byte, feed_byte.
  destruct (Ascii.eqb c LF).
  - unfold process_line.
    destruct (sscanf_d_comma_d _ 0 0) as [[n r] i].
    rewrite process_sample_cases. cbn zeta.
    cbn [st_dsp sample_idx proc_val ir_filt].
    destruct (_ && _ && (_ <? _)); cbn [andb]; [destruct (_ && _)|];
      cbn; repeat split; discriminate.
  - destruct (buffer_index (st_buf s) <? BUFFER_SIZE - 1)%nat;
      cbn [st_dsp]; cbn; rewrite Z.add_0_r;
      (repeat split; try discriminate);
      symmetry; apply wrap_int_small; exact Rg.
Qed.

(** X6. Every newline is one sample, whatever the line holds: over any run
    of bytes from the start, the number of values written to the file and
    the number of pairs printed both equal the number of newlines received,
    [sample_idx] is that number (as an [int]), bytes without a newline
    change no DSP variable, and the last value written is the current
    filtered value. *)
Theorem one_sample_per_newline (mem cs : list ascii) :
  let '(s', ev) := process_bytes (init_state mem) cs in
  length (csv_of ev) = newlines cs /\
  length (pairs_of ev) = newlines cs /\
  sample_idx (st_dsp s') = wrap_int (Z.of_nat (newlines cs)) /\
  (Z.of_nat (length cs) <= INT_MAX ->
   sample_idx (st_dsp s') = Z.of_nat (newlines cs)) /\
  (newlines cs = 0%nat -> st_dsp s' = init_dsp) /\
  ((0 < newlines cs)%nat ->
   last (csv_of ev) = Some (ir_filt (st_dsp s')) /\
   proc_val (st_dsp s') = ir_filt (st_dsp s')).
Proof.
  assert (G : forall cs s,
    INT_MIN <= sample_idx (st_dsp s) <= INT_MAX ->
    let '(s', ev) := process_bytes s cs in
    length (csv_of ev) = newlines cs /\
    length (pairs_of ev) = newlines cs /\
    sample_idx (st_dsp s') = wrap_int (sample_idx (st_dsp s) + Z.of_nat (newlines cs)) /\
    (newlines cs <= length cs)%nat /\
    (newlines cs = 0%nat -> st_dsp s' = st_dsp s) /\
    ((0 < newlines cs)%nat ->
     last (csv_of ev) = Some (proc_val (st_dsp s')) /\
     proc_val (st_dsp s') = ir_filt (st_dsp s'))).
  { clear. induction cs as [|c cs' IH]; intros s Rg.
    - cbn. rewrite Z.add_0_r, wrap_int_small by exact Rg.
      repeat split; try reflexivity; lia.
    - cbn [process_bytes newlines].
      pose proof (process_byte_counts s c Rg) as B.
      destruct (process_byte s c) as [s1 ev1]. cbn zeta in B.
      destruct B as (B1 & B2 & B3 & B4 & B5).
      assert (Rg1 : INT_MIN <= sample_idx (st_dsp s1) <= INT_MAX)
        by (rewrite B3; apply wrap_int_range).
      specialize (IH s1 Rg1).
      destruct (process_bytes s1 cs') as [s2 ev2].
      destruct IH as (I1 & I2 & I3 & I4 & I5 & I6).
      rewrite csv_of_app, pairs_of_app, !length_app, B1, B2, I1, I2, I3, B3.
      rewrite wrap_int_add_l. cbn [length].
      destruct (Ascii.eqb c LF).
      + split; [reflexivity|]. split; [reflexivity|]. split; [f_equal; lia|].
        split; [lia|]. split; [discriminate|]. intros _.
        destruct (newlines cs') as [|n] eqn:N.
        * specialize (I5 eq_refl). rewrite I5.
          destruct (B5 eq_refl) as [B6 B7].
          assert (Z0 : csv_of ev2 = []) by (destruct (csv_of ev2); [reflexivity|discriminate]).
          rewrite Z0, app_nil_r. split; assumption.
        * destruct I6 as [I6 I7]; [lia|]. split; [|exact I7].
          rewrite last_app, I6. reflexivity.
      + rewrite (B4 eq_refl) in I5. split; [reflexivity|]. split; [reflexivity|].
        split; [f_equal; lia|]. split; [lia|]. split; [exact I5|].
        intros P. destruct (I6 P) as [I7 I8]. split; [|exact I8].
        assert (Z0 : csv_of ev1 = []) by (destruct (csv_of ev1); [reflexivity|discriminate]).
        rewrite Z0. exact I7. }
  specialize (G cs (init_state mem)).
  destruct (process_bytes (init_state mem) cs) as [s' ev].
  destruct G as (G1 & G2 & G3 & G4 & G5 & G6); [cbn; unfold INT_MIN, INT_MAX; lia|].
  cbn [init_state st_dsp init_dsp sample_idx] in G3. rewrite Z.add_0_l in G3.
  split; [exact G1|]. split; [exact G2|]. split; [exact G3|]. split.
  - intros Hlen. rewrite G3. apply wrap_int_small. unfold INT_MIN. lia.
  - split; [exact G5|]. intros P. destruct (G6 P) as [G7 G8].
    rewrite <- G8. split; [exact G7|reflexivity].
Qed.

(** ** What [sscanf] accepts, and the echo read back *)

Lemma skip_space_run (ws t : list ascii) :
  Forall (fun c => isspace c = true) ws -> skip_space (ws ++ t) = skip_space t.
Proof.
  induction 1 as [|c ws Hc _ IH]; [reflexivity|].
  cbn [app skip_space]. rewrite Hc. exact IH.
Qed.

Lemma skip_space_idem (t : list ascii) : skip_space (skip_space t) = skip_space t.
Proof.
  induction t as [|c t IH]; [reflexivity|].
  cbn [skip_space]. destruct (isspace c) eqn:E; [exact IH|].
  cbn [skip_space]. rewrite E. reflexivity.
Qed.

Lemma scan_d_skip (ws t : list ascii) :
  Forall (fun c => isspace c = true) ws -> scan_d (ws ++ t) = scan_d t.
Proof.
  intros H. unfold scan_d. rewrite skip_space_run by exact H. reflexivity.
Qed.

Lemma scan_d_number (ws : list ascii) (sg : sign) (ds : list Z) (rest : list ascii) :
  Forall (fun c => isspace c = true) ws ->
  is_digits ds -> ds <> [] -> no_digit_ahead rest ->
  scan_d (number_text ws sg ds ++ rest) =
  Some (wrap_int (signed sg (dec_value ds)), rest).
Proof.
  intros Hws Hds Hne Hrest. unfold number_text.
  rewrite <- !app_assoc. rewrite scan_d_skip by exact Hws.
  destruct sg; cbn [sign_text signed app].
  - exact (scan_d_int_text false ds rest Hds Hne Hrest).
  - destruct ds as [|k ds]; [contradiction|].
    inversion Hds as [|? ? Hk Hds']; subst.
    pose proof (scan_digits_text (k :: ds) 0 rest Hds Hrest) as S.
    pose proof (isdigit_digit_char k Hk) as D.
    unfold scan_d. cbn [skip_space map app].
    change (isspace "+"%char) with false. cbv iota.
    change (Ascii.eqb "+" "-")%char with false.
    change (Ascii.eqb "+" "+")%char with true. cbv iota.
    cbn [map app] in S. rewrite D, S. reflexivity.
  - exact (scan_d_int_text true ds rest Hds Hne Hrest).
Qed.

(** X7. The lines [sscanf] reads in full, and where it stops, for numbers
    that fit an [int].  White space and one sign are accepted in front of
    each of the two numbers, and what follows the second number is ignored
    (a carriage return, or anything that is not a digit): both integers are
    assigned, with the values the digits denote.  Nothing is accepted
    between the first number and the comma, not even a blank: the call then
    stops after one item and leaves [ir_int] as it was; so it does when the
    line ends there. *)
Theorem sscanf_accepted_lines (ws1 ws2 : list ascii) (sg1 sg2 : sign)
    (ds1 ds2 : list Z) (tail : list ascii) (a b : Z) :
  Forall (fun c => isspace c = true) ws1 ->
  Forall (fun c => isspace c = true) ws2 ->
  is_digits ds1 -> ds1 <> [] -> is_digits ds2 -> ds2 <> [] ->
  no_digit_ahead tail ->
  INT_MIN <= signed sg1 (dec_value ds1) <= INT_MAX ->
  INT_MIN <= signed sg2 (dec_value ds2) <= INT_MAX ->
  let v1 := signed sg1 (dec_value ds1) in
  let v2 := signed sg2 (dec_value ds2) in
  sscanf_d_comma_d
    (number_text ws1 sg1 ds1 ++ ","%char :: number_text ws2 sg2 ds2 ++ tail) a b
    = (2, v1, v2) /\
  sscanf_d_comma_d (number_text ws1 sg1 ds1) a b = (1, v1, b) /\
  (forall c t, isdigit c = false -> c <> ","%char ->
     sscanf_d_comma_d (number_text ws1 sg1 ds1 ++ c :: t) a b = (1, v1, b)).
Proof.
  intros W1 W2 D1 N1 D2 N2 Ht R1 R2. cbn zeta. unfold sscanf_d_comma_d.
  split; [|split].
  - rewrite scan_d_number; [|assumption|assumption|assumption|reflexivity].
    change (Ascii.eqb "," ",")%char with true. cbv iota.
    rewrite scan_d_number by assumption.
    rewrite !wrap_int_small by assumption. reflexivity.
  - rewrite <- (app_nil_r (number_text ws1 sg1 ds1)).
    rewrite scan_d_number; [|assumption|assumption|assumption|exact I].
    rewrite wrap_int_small by assumption. reflexivity.
  - intros c t Hd Hc.
    rewrite scan_d_number; [|assumption|assumption|assumption|exact Hd].
    rewrite wrap_int_small by assumption.
    destruct (Ascii.eqb_spec c ","%char) as [->|_]; [contradiction|reflexivity].
Qed.

Lemma sscanf_accepted_lines_witness :
  sscanf_d_comma_d (chars " -12, +7" ++ ["013"%char]) 0 0 = (2, -12, 7) /\
  sscanf_d_comma_d (chars " -12") 0 0 = (1, -12, 0) /\
  sscanf_d_comma_d (chars " -12 ,7") 0 0 = (1, -12, 0).
Proof.
  assert (W : Forall (fun c => isspace c = true) [" "%char])
    by (repeat constructor).
  assert (D1 : is_digits [1; 2]) by (repeat constructor; lia).
  assert (D2 : is_digits [7]) by (repeat constructor; lia).
  destruct (sscanf_accepted_lines [" "%char] [" "%char] Minus Plus [1; 2] [7]
              ["013"%char] 0 0 W W D1 ltac:(discriminate) D2 ltac:(discriminate)
              ltac:(reflexivity) ltac:(vm_compute; split; discriminate)
              ltac:(vm_compute; split; discriminate)) as (H1 & H2 & H3).
  split; [exact H1|]. split; [exact H2|].
  apply (H3 " "%char (chars ",7")); [reflexivity|discriminate].
Defined.

Lemma digits_of_spec (fuel : nat) :
  forall (n : Z) (acc : list Z),
    0 <= n < 10 ^ Z.of_nat (S fuel) -> is_digits acc ->
    is_digits (digits_of (S fuel) n acc) /\ digits_of (S fuel) n acc <> [] /\
    (length (digits_of (S fuel) n acc) <= S fuel + length acc)%nat /\
    fold_left (fun a k => 10 * a + k) (digits_of (S fuel) n acc) 0
    = fold_left (fun a k => 10 * a + k) acc n.
Proof.
  induction fuel as [|fuel IH]; intros n acc Hn Hacc.
  - cbn [digits_of]. change (10 ^ Z.of_nat 1) with 10 in Hn.
    rewrite Z.div_small by lia. cbn [Z.eqb].
    rewrite Z.mod_small by lia.
    split; [constructor; [lia|exact Hacc]|]. split; [discriminate|].
    split; [cbn [length]; lia|]. cbn [fold_left]. f_equal. 
  - change (digits_of (S (S fuel)) n acc)
      with (if n / 10 =? 0 then n mod 10 :: acc
            else digits_of (S fuel) (n / 10) (n mod 10 :: acc)).
    pose proof (Z.mod_pos_bound n 10 ltac:(lia)) as M.
    destruct (Z.eqb_spec (n / 10) 0) as [E|E].
    + split; [constructor; [lia|exact Hacc]|]. split; [discriminate|].
      split; [cbn [length]; lia|]. cbn [fold_left]. f_equal.
      pose proof (Z.div_mod n 10 ltac:(lia)). lia.
    + assert (Hq : 0 <= n / 10 < 10 ^ Z.of_nat (S fuel)).
      { split; [apply Z.div_pos; lia|].
        apply Z.div_lt_upper_bound; [lia|].
        replace (Z.of_nat (S (S fuel))) with (Z.of_nat (S fuel) + 1) in Hn by lia.
        rewrite Z.pow_add_r in Hn by lia. lia. }
      assert (Hacc' : is_digits (n mod 10 :: acc)) by (constructor; [lia|exact Hacc]).
      destruct (IH (n / 10) (n mod 10 :: acc) Hq Hacc') as (I1 & I2 & I3 & I4).
      split; [exact I1|]. split; [exact I2|].
      split; [cbn [length] in I3; lia|]. rewrite I4. cbn [fold_left]. f_equal.
      pose proof (Z.div_mod n 10 ltac:(lia)). lia.
Qed.

Lemma print_d_spec (z : Z) :
  INT_MIN <= z <= INT_MAX ->
  let ds := digits_of 10 (Z.abs z) [] in
  is_digits ds /\ ds <> [] /\ (length ds <= 10)%nat /\
  int_value (z <? 0) ds = z.
Proof.
  intros Hz. cbn zeta.
  destruct (digits_of_spec 9 (Z.abs z) []) as (D1 & D2 & D3 & D4).
  { unfold INT_MIN, INT_MAX in Hz. change (10 ^ Z.of_nat 10) with 10000000000. lia. }
  { constructor. }
  split; [exact D1|]. split; [exact D2|]. split; [cbn [length] in D3; lia|].
  unfold int_value, dec_value. rewrite D4. cbn [fold_left].
  destruct (Z.ltb_spec z 0); lia.
Qed.

Lemma scan_d_print_d (z : Z) (rest : list ascii) :
  INT_MIN <= z <= INT_MAX -> no_digit_ahead rest ->
  scan_d (print_d z ++ rest) = Some (z, rest).
Proof.
  intros Hz Hrest. destruct (print_d_spec z Hz) as (D1 & D2 & _ & D4).
  unfold print_d. rewrite scan_d_int_text by assumption.
  rewrite D4, wrap_int_small by exact Hz. reflexivity.
Qed.

Lemma sscanf_echo_text (r i a b : Z) :
  INT_MIN <= r <= INT_MAX -> INT_MIN <= i <= INT_MAX ->
  sscanf_d_comma_d (echo_text r i) a b = (2, r, i).
Proof.
  intros Hr Hi. unfold sscanf_d_comma_d, echo_text.
  rewrite scan_d_print_d; [|exact Hr|reflexivity].
  change (Ascii.eqb "," ",")%char with true. cbv iota.
  change (" "%char :: print_d i) with ([" "%char] ++ print_d i).
  rewrite scan_d_skip by (repeat constructor).
  rewrite <- (app_nil_r (print_d i)).
  rewrite scan_d_print_d; [reflexivity|exact Hi|exact I].
Qed.

Lemma int_text_chars (neg : bool) (ds : list Z) :
  is_digits ds -> Forall (fun c => c <> LF /\ c <> NUL) (int_text neg ds).
Proof.
  intros Hds. unfold int_text. apply Forall_app. split.
  - destruct neg; repeat constructor; discriminate.
  - apply Forall_map. eapply List.Forall_impl; [|exact Hds].
    intros k Hk. cbn beta. apply digit_char_cases; [exact Hk|split; discriminate..].
Qed.

Lemma echo_text_chars (r i : Z) :
  INT_MIN <= r <= INT_MAX -> INT_MIN <= i <= INT_MAX ->
  Forall (fun c => c <> LF /\ c <> NUL) (echo_text r i) /\
  (length (echo_text r i) < BUFFER_SIZE)%nat.
Proof.
  intros Hr Hi.
  destruct (print_d_spec r Hr) as (R1 & _ & R3 & _).
  destruct (print_d_spec i Hi) as (I1 & _ & I3 & _).
  unfold echo_text, print_d. split.
  - apply Forall_app. split; [apply int_text_chars; exact R1|].
    constructor; [split; discriminate|]. constructor; [split; discriminate|].
    apply int_text_chars; exact I1.
  - unfold int_text. rewrite length_app. cbn [length].
    rewrite !length_app, !length_map. unfold BUFFER_SIZE.
    destruct (r <? 0), (i <? 0); cbn [length]; lia.
Qed.

Lemma run_results_pending (n : nat) (d : dsp) (line : list ascii) :
  run_results d (replicate n Pending ++ [Line line]) = process_line d line.
Proof.
  induction n as [|n IH].
  - cbn [replicate app run_results]. destruct (process_line d line) as [d1 ev1].
    rewrite app_nil_r. reflexivity.
  - cbn [replicate app run_results]. rewrite IH.
    destruct (process_line d line) as [d1 ev1]. reflexivity.
Qed.

(** One echoed line, followed by its newline, on an empty buffer. *)
Lemma process_bytes_echo_line (s : state) (mem : list ascii) (r i : Z) :
  st_buf s = {| buffer := mem; buffer_index := 0 |} -> length mem = BUFFER_SIZE ->
  INT_MIN <= r <= INT_MAX -> INT_MIN <= i <= INT_MAX ->
  exists mem',
    length mem' = BUFFER_SIZE /\
    process_bytes s (echo_text r i ++ [LF]) =
    ({| st_dsp := (process_sample (st_dsp s) r i).1;
        st_buf := {| buffer := mem'; buffer_index := 0 |} |},
     (process_sample (st_dsp s) r i).2).
Proof.
  intros Hb L Hr Hi.
  destruct (echo_text_chars r i Hr Hi) as [C Hlen].
  destruct (feed_bytes_record (echo_text r i) mem C L Hlen) as [b F].
  destruct (feed_bytes_any_record (echo_text r i) mem) as (mem' & rs & F' & L' & _);
    [eapply List.Forall_impl; [|exact C]; cbn beta; tauto|exact L|].
  rewrite F in F'. injection F' as -> <-.
  exists mem'. split; [exact L'|].
  rewrite process_bytes_split, Hb, F, run_results_pending.
  unfold process_line. rewrite sscanf_echo_text by assumption.
  destruct (process_sample (st_dsp s) r i) as [d' ev]. reflexivity.
Qed.

Lemma process_sample_events (d : dsp) (r i : Z) :
  pairs_of (process_sample d r i).2 = [(r, i)] /\
  List.filter not_overflow (process_sample d r i).2 = (process_sample d r i).2.
Proof.
  rewrite process_sample_cases. cbn zeta. cbn [snd].
  destruct (_ && _ && (_ <? _)); cbn [andb]; [destruct (_ && _)|];
    split; reflexivity.
Qed.

Lemma run_results_as_samples (rs : list feed_result) (d : dsp) :
  let '(d1, ev1) := run_results d rs in
  run_samples d (pairs_of ev1) = (d1, List.filter not_overflow ev1) /\
  Forall (fun p => (INT_MIN <= p.1 <= INT_MAX) /\ (INT_MIN <= p.2 <= INT_MAX))
         (pairs_of ev1).
Proof.
  revert d. induction rs as [|r rs IH]; intros d.
  - cbn. split; [reflexivity|constructor].
  - cbn [run_results]. destruct r as [line| |].
    + unfold process_line.
      destruct (sscanf_d_comma_d line 0 0) as [[n x] y] eqn:E.
      destruct (scan_d_range_red line n x y E) as [Rx Ry].
      destruct (process_sample_events d x y) as [P1 P2].
      destruct (process_sample d x y) as [d1 ev1] eqn:PS. cbn [snd] in P1, P2.
      specialize (IH d1). destruct (run_results d1 rs) as [d2 ev2].
      destruct IH as [I1 I2].
      rewrite pairs_of_app, P1. cbn [app run_samples]. rewrite PS, I1.
      rewrite List.filter_app, P2. split; [reflexivity|].
      constructor; [cbn [fst snd]; split; assumption|exact I2].
    + specialize (IH d). destruct (run_results d rs) as [d2 ev2].
      cbn [app pairs_of omap List.filter not_overflow]. exact IH.
    + specialize (IH d). destruct (run_results d rs) as [d2 ev2].
      cbn [app]. exact IH.
Qed.

Lemma process_bytes_echo_stream (xs : list (Z * Z)) (s : state) (mem : list ascii) :
  st_buf s = {| buffer := mem; buffer_index := 0 |} -> length mem = BUFFER_SIZE ->
  Forall (fun p => (INT_MIN <= p.1 <= INT_MAX) /\ (INT_MIN <= p.2 <= INT_MAX)) xs ->
  exists mem',
    length mem' = BUFFER_SIZE /\
    process_bytes s (stream_of (map (fun p => echo_text p.1 p.2) xs)) =
    ({| st_dsp := (run_samples (st_dsp s) xs).1;
        st_buf := {| buffer := mem'; buffer_index := 0 |} |},
     (run_samples (st_dsp s) xs).2).
Proof.
  revert s mem. induction xs as [|[r i] xs IH]; intros s mem Hb L Hxs.
  - exists mem. split; [exact L|]. cbn. destruct s as [d b]. cbn in Hb. subst b.
    reflexivity.
  - apply Forall_cons in Hxs. destruct Hxs as [[Hr Hi] Hxs]. cbn [fst snd] in Hr, Hi.
    destruct (process_bytes_echo_line s mem r i Hb L Hr Hi) as (mem1 & L1 & P1).
    unfold stream_of in *. cbn [map concat fst snd].
    rewrite process_bytes_app, P1.
    set (s1 := {| st_dsp := (process_sample (st_dsp s) r i).1;
                  st_buf := {| buffer := mem1; buffer_index := 0 |} |}).
    destruct (IH s1 mem1 eq_refl L1 Hxs) as (mem2 & L2 & P2).
    rewrite P2. exists mem2. split; [exact L2|].
    cbn [run_samples st_dsp s1].
    destruct (process_sample (st_dsp s) r i) as [d1 ev1]. cbn [fst snd].
    destruct (run_samples d1 xs) as [d2 ev2]. reflexivity.
Qed.

(** X8. The pairs the program prints are a faithful log of the run: each
    printed line "r, i" is read back by the program's own [sscanf] as the same
    two integers, and feeding the printed pair lines of any run back in as
    the serial input repeats that run, with the same DSP variables at the end
    and the same trace, the overflow diagnostics apart. *)
Theorem echo_replays_the_run (mem mem' cs : list ascii) :
  length mem' = BUFFER_SIZE ->
  (forall r i a b, INT_MIN <= r <= INT_MAX -> INT_MIN <= i <= INT_MAX ->
     sscanf_d_comma_d (echo_text r i) a b = (2, r, i)) /\
  let '(s1, ev1) := process_bytes (init_state mem) cs in
  let '(s2, ev2) := process_bytes (init_state mem') (echo_of ev1) in
  st_dsp s2 = st_dsp s1 /\ ev2 = List.filter not_overflow ev1 /\
  csv_of ev2 = csv_of ev1 /\ buffer_index (st_buf s2) = 0%nat.
Proof.
  intros L. split; [intros r i a b; apply sscanf_echo_text|].
  rewrite process_bytes_split. cbn [init_state st_buf st_dsp].
  destruct (feed_bytes {| buffer := mem; buffer_index := 0 |} cs) as [b1 rs].
  pose proof (run_results_as_samples rs init_dsp) as R.
  destruct (run_results init_dsp rs) as [d1 ev1]. destruct R as [R1 R2].
  unfold echo_of, init_state.
  destruct (process_bytes_echo_stream (pairs_of ev1)
              {| st_dsp := init_dsp; st_buf := {| buffer := mem'; buffer_index := 0 |} |}
              mem' eq_refl L R2) as (mem2 & L2 & P).
  rewrite P. cbn [st_dsp]. rewrite R1. cbn [fst snd st_buf buffer_index].
  split; [reflexivity|]. split; [reflexivity|]. split; [|reflexivity].
  clear. induction ev1 as [|e ev IH]; [reflexivity|].
  unfold csv_of in *. destruct e; cbn; try exact IH. f_equal. exact IH.
Qed.

Lemma echo_replays_the_run_witness :
  let mem := replicate BUFFER_SIZE NUL in
  let cs := chars "-12,50" ++ "013"%char :: LF :: chars "abc" ++ [LF] in
  length mem = BUFFER_SIZE /\
  echo_of (process_bytes (init_state mem) cs).2
    = chars "-12, 50" ++ LF :: chars "0, 0" ++ [LF] /\
  csv_of (process_bytes (init_state mem)
            (echo_of (process_bytes (init_state mem) cs).2)).2
    = csv_of (process_bytes (init_state mem) cs).2.
Proof.
  cbn zeta. split; [reflexivity|]. split; [vm_compute; reflexivity|].
  destruct (echo_replays_the_run (replicate BUFFER_SIZE NUL)
              (replicate BUFFER_SIZE NUL)
              (chars "-12,50" ++ "013"%char :: LF :: chars "abc" ++ [LF]) eq_refl)
    as [_ H].
  destruct (process_bytes (init_state (replicate BUFFER_SIZE NUL))
              (chars "-12,50" ++ "013"%char :: LF :: chars "abc" ++ [LF]))
    as [s1 ev1].
  cbn [snd].
  destruct (process_bytes (init_state (replicate BUFFER_SIZE NUL)) (echo_of ev1))
    as [s2 ev2].
  cbn [snd]. exact (proj1 (proj2 (proj2 H))).
Defined.

(** ** Comparisons and small integers in binary32 *)

Lemma ge_of_val (a b : float) :
  F32.wf a = true -> F32.wf b = true ->
  F32.ge a b = true -> (F32.val b <= F32.val a)%R.
Proof.
  intros Wa Wb G. pose proof (F32Facts.compare_val a b Wa Wb) as C.
  unfold F32.ge in G. destruct (SFcompare a b) as [[| |]|]; try discriminate G; lra.
Qed.

Lemma gt_iff_val (a b : float) :
  F32.wf a = true -> F32.wf b = true ->
  F32.gt a b = true <-> (F32.val b < F32.val a)%R.
Proof.
  intros Wa Wb. pose proof (F32Facts.compare_val a b Wa Wb) as C.
  unfold F32.gt. destruct (SFcompare a b) as [[| |]|]; split; intros H;
    try discriminate H; try reflexivity; try lra; contradiction.
Qed.

Example val_peak_thr : F32.val peak_thr = 10%R.
Proof. unfold peak_thr. val_lra. Qed.

Example val_min_hr_bpm : F32.val min_hr_bpm = 40%R.
Proof. unfold min_hr_bpm. val_lra. Qed.

(** An integer of less than 24 bits is a binary32 number. *)
Lemma int_float (n : Z) :
  - 2 ^ 24 < n < 2 ^ 24 ->
  exists f : float, F32.wf f = true /\ F32.val f = IZR n.
Proof.
  assert (P : forall n, 0 < n < 2 ^ 24 ->
              exists f : float, F32.wf f = true /\ F32.val f = IZR n).
  { clear n. intros n Hn.
    pose proof (F32Facts.Zdigits2_bounds n ltac:(lia)) as B.
    pose proof (F32Facts.Zdigits2_nonneg n) as N.
    set (dg := Zdigits2 n) in *.
    assert (D1 : 1 <= dg).
    { destruct (Z.eq_dec dg 0) as [E|E]; [|lia].
      rewrite E in B. change (2 ^ 0) with 1 in B. lia. }
    assert (D24 : dg <= 24).
    { destruct (Z_le_gt_dec dg 24) as [L|G]; [exact L|].
      assert (2 ^ 24 <= 2 ^ (dg - 1)) by (apply Z.pow_le_mono_r; lia). lia. }
    set (k := 24 - dg).
    assert (M : 2 ^ 23 <= n * 2 ^ k < 2 ^ 24).
    { assert (E23 : 2 ^ 23 = 2 ^ (dg - 1) * 2 ^ k)
        by (rewrite <- Z.pow_add_r by (unfold k; lia); f_equal; unfold k; lia).
      assert (E24 : 2 ^ 24 = 2 ^ dg * 2 ^ k)
        by (rewrite <- Z.pow_add_r by (unfold k; lia); f_equal; unfold k; lia).
      assert (0 < 2 ^ k) by (apply Z.pow_pos_nonneg; unfold k; lia).
      rewrite E23, E24.
      split; [apply Z.mul_le_mono_nonneg_r; lia|apply Z.mul_lt_mono_pos_r; lia]. }
    exists (S754_finite false (Z.to_pos (n * 2 ^ k)) (- k)). split.
    - rewrite F32Facts.wf_finite. apply F32Facts.bounded_intro.
      + lia.
      + unfold F32.emin, k. lia.
      + intros _. lia.
    - cbn [F32.val]. rewrite Z2Pos.id by lia.
      rewrite F32Facts.F2R_shift by (unfold k; lia).
      replace (- k + k) with 0 by lia. unfold F32.F2R.
      rewrite F32Facts.bpow_Z by lia. change (2 ^ 0) with 1. lra. }
  intros Hn. destruct (Z.lt_trichotomy n 0) as [L|[->|G]].
  - destruct (P (- n) ltac:(lia)) as (f & W & V).
    exists (SFopp f). rewrite F32Facts.wf_opp, F32Facts.val_opp, V, opp_IZR.
    split; [exact W|lra].
  - exists (S754_zero false). split; reflexivity.
  - apply P. lia.
Qed.

(** Such an integer is converted without rounding. *)
Lemma of_int_exact (n : Z) :
  - 2 ^ 24 < n < 2 ^ 24 ->
  F32.wf (F32.of_int n) = true /\ F32.val (F32.of_int n) = IZR n.
Proof.
  intros Hn. destruct (int_float n Hn) as (f & W & V).
  destruct (F32Facts.of_int_between n f f W W) as [W' B]; [rewrite V; lra|].
  split; [exact W'|]. rewrite V in B. lra.
Qed.

(** The conversion keeps the order with respect to such an integer. *)
Lemma of_int_le (i n : Z) :
  INT_MIN <= i <= INT_MAX -> - 2 ^ 24 < n < 2 ^ 24 ->
  (i <= n -> (F32.val (F32.of_int i) <= IZR n)%R) /\
  (n <= i -> (IZR n <= F32.val (F32.of_int i))%R).
Proof.
  intros Hi Hn. destruct (int_float n Hn) as (f & W & V).
  assert (V31 : F32.val two_31 = 2147483648%R) by (unfold two_31; val_lra).
  unfold INT_MIN, INT_MAX in Hi. split; intros L.
  - destruct (F32Facts.of_int_between i (SFopp two_31) f) as [_ B];
      [reflexivity|exact W| |rewrite V in B; lra].
    rewrite F32Facts.val_opp, V31, V.
    split; [apply (IZR_le (-2147483648) i)|apply IZR_le]; lia.
  - destruct (F32Facts.of_int_between i f two_31) as [_ B];
      [exact W|reflexivity| |rewrite V in B; lra].
    rewrite V31, V.
    split; [apply IZR_le|apply (IZR_le i 2147483648)]; lia.
Qed.

Lemma Rdiv_between (c a p b : R) :
  (0 <= c -> 0 < a <= p -> p <= b -> c / b <= c / p <= c / a)%R.
Proof.
  intros Hc [Ha Hap] Hpb. unfold Rdiv.
  split; apply Rmult_le_compat_l; try exact Hc; apply Rinv_le_contravar; lra.
Qed.

(** ** Which peak distances give a heart rate *)

(** The test on the rate is a test on the distance between the two peaks:
    from 31 samples on, the rate is plausible exactly below 150 samples. *)
Lemma plausible_gap (n : Z) :
  31 <= n <= INT_MAX -> plausible (inst_hr n) = (n <? 150).
Proof.
  intros Hn. destruct (period_inst_bounds n Hn) as (_ & _ & Wi & _ & Iu).
  assert (V60 : F32.val sixty = 60%R) by (unfold sixty; val_lra).
  assert (L : F32.lt (inst_hr n) max_hr_bpm = true).
  { apply lt_of_val; [exact Wi|reflexivity|].
    replace (F32.val max_hr_bpm) with 200%R by (unfold max_hr_bpm; val_lra). lra. }
  unfold plausible. rewrite L, andb_true_r.
  destruct (Z.ltb_spec n 150) as [Lt|Ge].
  - destruct (of_int_exact n) as [Wn Vn]; [lia|].
    assert (Rn : (31 <= IZR n <= 149)%R) by (split; apply IZR_le; lia).
    set (g := S754_finite false 8388608 (-25)).
    set (h := S754_finite false 12517376 (-23)).
    assert (Vg : F32.val g = (1 / 4)%R) by (unfold g; val_lra).
    assert (Vh : F32.val h = (191 / 128)%R) by (unfold h; val_lra).
    destruct (F32Facts.div_between (F32.of_int n) FS g h) as [Wp [P1 P2]];
      [exact Wn|reflexivity|rewrite val_FS; lra|reflexivity|reflexivity| |].
    { rewrite val_FS, Vg, Vh, Vn. split; lra. }
    fold (period_sec n) in Wp, P1, P2. rewrite Vg in P1. rewrite Vh in P2.
    set (g2 := S754_finite false 10518528 (-18)).
    set (h2 := S754_finite false 8388608 (-15)).
    assert (Vg2 : F32.val g2 = (321 / 8)%R) by (unfold g2; val_lra).
    assert (Vh2 : F32.val h2 = 256%R) by (unfold h2; val_lra).
    destruct (F32Facts.div_between sixty (period_sec n) g2 h2) as [_ [I1 _]];
      [reflexivity|exact Wp|lra|reflexivity|reflexivity| |].
    { rewrite V60, Vg2, Vh2.
      destruct (Rdiv_between 60 (1 / 4) (F32.val (period_sec n)) (191 / 128))
        as [D1 D2]; [lra|lra|lra|]. split; lra. }
    fold (inst_hr n) in I1. rewrite Vg2 in I1.
    apply gt_iff_val; [exact Wi|reflexivity|]. rewrite val_min_hr_bpm. lra.
  - destruct (of_int_in_range n) as [Wn Bn]; [unfold INT_MIN; lia|].
    destruct (of_int_le n 150) as [_ Lo]; [unfold INT_MIN; lia|lia|].
    specialize (Lo Ge).
    set (g := S754_finite false 12582912 (-23)).
    set (h := S754_finite false 8388608 2).
    assert (Vg : F32.val g = (3 / 2)%R) by (unfold g; val_lra).
    assert (Vh : F32.val h = 33554432%R) by (unfold h; val_lra).
    destruct (F32Facts.div_between (F32.of_int n) FS g h) as [Wp [P1 P2]];
      [exact Wn|reflexivity|rewrite val_FS; lra|reflexivity|reflexivity| |].
    { rewrite val_FS, Vg, Vh. split; lra. }
    fold (period_sec n) in Wp, P1, P2. rewrite Vg in P1.
    destruct (F32Facts.div_between sixty (period_sec n) F32.zero min_hr_bpm)
      as [_ [_ I2]]; [reflexivity|exact Wp|lra|reflexivity|reflexivity| |].
    { rewrite V60, val_min_hr_bpm. cbn [F32.val F32.zero].
      destruct (Rdiv_between 60 (3 / 2) (F32.val (period_sec n))
                  (F32.val (period_sec n))) as [D1 D2]; [lra|lra|lra|].
      split; [|lra]. apply Rlt_le, Rdiv_lt_0_compat; lra. }
    fold (inst_hr n) in I2. rewrite val_min_hr_bpm in I2.
    destruct (F32.gt (inst_hr n) min_hr_bpm) eqn:G; [|reflexivity].
    apply gt_iff_val in G; [|exact Wi|reflexivity].
    rewrite val_min_hr_bpm in G. lra.
Qed.

(** X9. A heart rate is printed exactly for the accepted peaks that come
    31 to 149 samples after the peak before them: with the refractory test
    passed, the two tests on the rate amount to one on the distance.  At
    100 samples a second these are pulses from 40.3 to 193.5 beats a minute;
    a peak 150 samples or more after the last one (40 bpm or less) is
    accepted without any rate being computed from it. *)
Theorem hr_printed_iff_gap_31_to_149 (d : dsp) (r i : Z) :
  let gap := wrap_int (sample_idx d - last_peak d) in
  let ev := (process_sample d r i).2 in
  (forall n, 31 <= n <= INT_MAX -> plausible (inst_hr n) = (n <? 150)) /\
  (peaks_of ev = [sample_idx d] \/ peaks_of ev = []) /\
  (peaks_of ev = [sample_idx d] -> 31 <= gap) /\
  (hrs_of ev <> [] <->
   peaks_of ev = [sample_idx d] /\ 0 <= last_peak d /\ gap < 150) /\
  (hrs_of ev <> [] ->
   hrs_of ev = [hr_bpm_filt (process_sample d r i).1] /\
   hr_bpm (process_sample d r i).1 = inst_hr gap).
Proof.
  cbn zeta. split; [exact plausible_gap|].
  rewrite process_sample_cases. cbn zeta. cbn [fst snd hr_bpm hr_bpm_filt].
  set (gap := wrap_int (sample_idx d - last_peak d)).
  set (cross := F32.lt (prev_ir_filt d) peak_thr
                && F32.ge (low_pass (ir_filt d) (F32.of_int i)) peak_thr).
  destruct cross; cbn [andb];
    [|split; [right; reflexivity|]; split; [discriminate|];
      split; [split; [intros N; contradiction|intros (N & _); discriminate]|];
      intros N; contradiction].
  destruct (Z.ltb_spec refractory_n gap) as [Lt|Ge]; cbn [andb];
    [|split; [right; reflexivity|]; split; [discriminate|];
      split; [split; [intros N; contradiction|intros (N & _); discriminate]|];
      intros N; contradiction].
  rewrite refractory_n_eq in Lt.
  assert (G : 31 <= gap <= INT_MAX) by (split; [lia|apply wrap_int_range]).
  rewrite (plausible_gap gap G).
  destruct (Z.leb_spec 0 (last_peak d)) as [P|P]; cbn [andb];
    [destruct (Z.ltb_spec gap 150) as [Q|Q]|].
  - split; [left; reflexivity|]. split; [intros _; lia|].
    split; [split; [intros _; repeat split; assumption|intros _; discriminate]|].
    intros _. split; reflexivity.
  - split; [left; reflexivity|]. split; [intros _; lia|].
    split; [split; [intros N; contradiction|intros (_ & _ & N); lia]|].
    intros N. contradiction.
  - split; [left; reflexivity|]. split; [intros _; lia|].
    split; [split; [intros N; contradiction|intros (_ & N & _); lia]|].
    intros N. contradiction.
Qed.

(** ** What a run prints and writes *)

Lemma run_samples_invariant (J : dsp -> list event -> Prop) :
  (forall d ev r i, J d ev -> INT_MIN <= i <= INT_MAX ->
     J (process_sample d r i).1 (ev ++ (process_sample d r i).2)) ->
  forall (xs : list (Z * Z)) (d : dsp) (ev0 : list event),
    Forall (fun p => INT_MIN <= p.2 <= INT_MAX) xs ->
    J d ev0 ->
    J (run_samples d xs).1 (ev0 ++ (run_samples d xs).2).
Proof.
  intros Hsm. induction xs as [|[r i] xs IH]; intros d ev0 Hxs H.
  - cbn [run_samples fst snd]. rewrite app_nil_r. exact H.
  - apply Forall_cons in Hxs. destruct Hxs as [Hi Hxs]. cbn [snd] in Hi.
    cbn [run_samples]. specialize (Hsm d ev0 r i H Hi).
    destruct (process_sample d r i) as [d1 ev1]. cbn [fst snd] in Hsm.
    specialize (IH d1 (ev0 ++ ev1) Hxs Hsm).
    destruct (run_samples d1 xs) as [d2 ev2]. cbn [fst snd] in *.
    rewrite app_assoc. exact IH.
Qed.

(** The events of one sample, by kind. *)
Lemma process_sample_kinds (d : dsp) (r i : Z) :
  let y := low_pass (ir_filt d) (F32.of_int i) in
  let gap := wrap_int (sample_idx d - last_peak d) in
  let acc := F32.lt (prev_ir_filt d) peak_thr && F32.ge y peak_thr
             && (refractory_n <? gap) in
  let pr := acc && (0 <=? last_peak d) && plausible (inst_hr gap) in
  let d' := (process_sample d r i).1 in
  let ev := (process_sample d r i).2 in
  pairs_of ev = [(r, i)] /\ csv_of ev = [y] /\
  peaks_of ev = (if acc then [sample_idx d] else []) /\
  hrs_of ev = (if pr then [smooth_hr (hr_bpm_filt d) (inst_hr gap)] else []) /\
  ir_filt d' = y /\ prev_ir_filt d' = y /\
  last_peak d' = (if acc then sample_idx d else last_peak d) /\
  hr_bpm_filt d' =
    (if pr then smooth_hr (hr_bpm_filt d) (inst_hr gap) else hr_bpm_filt d).
Proof.
  cbn zeta. rewrite process_sample_cases. cbn zeta.
  cbn [fst snd ir_filt prev_ir_filt last_peak hr_bpm_filt].
  destruct (_ && _ && (_ <? _)); cbn [andb]; [destruct (_ && _)|];
    repeat split; reflexivity.
Qed.

Lemma hr_step (d : dsp) (r i : Z) :
  hr_in_range (hr_bpm_filt d) ->
  hr_in_range (hr_bpm_filt (process_sample d r i).1) /\
  Forall hr_in_range (hrs_of (process_sample d r i).2).
Proof.
  intros [W B].
  destruct (process_sample_kinds d r i) as (_ & _ & _ & -> & _ & _ & _ & ->).
  set (gap := wrap_int (sample_idx d - last_peak d)).
  destruct (_ && _ && plausible (inst_hr gap)) eqn:P;
    [|split; [split; assumption|constructor]].
  apply andb_true_iff in P. destruct P as [P _].
  apply andb_true_iff in P. destruct P as [P _].
  apply andb_true_iff in P. destruct P as [_ P].
  apply Z.ltb_lt in P. rewrite refractory_n_eq in P.
  assert (G : 31 <= gap <= INT_MAX) by (split; [lia|apply wrap_int_range]).
  destruct (period_inst_bounds gap G) as (_ & _ & Wi & I1 & I2).
  assert (V : F32.val two_32 = 4294967296%R) by (unfold two_32; val_lra).
  destruct (smooth_hr_between (hr_bpm_filt d) (inst_hr gap) two_32 Wi W eq_refl)
    as (W' & Up & Dn); [rewrite V; lra|].
  assert (R : hr_in_range (smooth_hr (hr_bpm_filt d) (inst_hr gap))).
  { split; [exact W'|].
    destruct (Rle_lt_dec (F32.val (hr_bpm_filt d)) (F32.val (inst_hr gap))) as [S|S].
    - specialize (Up S). lra.
    - assert (S' : (F32.val (inst_hr gap) <= F32.val (hr_bpm_filt d))%R) by lra.
      specialize (Dn S'). lra. }
  split; [exact R|]. constructor; [exact R|constructor].
Qed.

(** X10. Whatever comes in, the rate the program prints is a number from 0
    to 6000/31 (193.5): never a NaN, never negative, never 200 or more.  It
    is not bounded below by [min_hr_bpm]: the smoothed value starts at 0,
    and the first rate printed is at most 0.3 of the first pulse measured. *)
Theorem printed_hr_in_range (mem cs : list ascii) :
  let '(s', ev) := process_bytes (init_state mem) cs in
  Forall hr_in_range (hrs_of ev) /\
  hr_in_range (hr_bpm_filt (st_dsp s')) /\
  (forall v, hr_in_range v -> F32.lt v max_hr_bpm = true) /\
  hrs_of (process_sample (st_dsp (after_peak_at_10 60)) 0 100).2 = [F32.of_int 36].
Proof.
  pose proof (process_bytes_invariant
                (fun d ev => hr_in_range (hr_bpm_filt d) /\ Forall hr_in_range (hrs_of ev)))
    as Inv.
  specialize (Inv ltac:(intros d ev [H1 H2]; split; [exact H1|];
                        rewrite hrs_of_app, app_nil_r; exact H2)).
  assert (St : forall d ev r i,
             hr_in_range (hr_bpm_filt d) /\ Forall hr_in_range (hrs_of ev) ->
             INT_MIN <= r <= INT_MAX -> INT_MIN <= i <= INT_MAX ->
             hr_in_range (hr_bpm_filt (process_sample d r i).1) /\
             Forall hr_in_range (hrs_of (ev ++ (process_sample d r i).2))).
  { intros d ev r i [H1 H2] _ _. destruct (hr_step d r i H1) as [S1 S2].
    split; [exact S1|]. rewrite hrs_of_app. apply Forall_app. split; assumption. }
  specialize (Inv St cs (init_state mem) []).
  destruct (process_bytes (init_state mem) cs) as [s' ev]. cbn [fst snd app] in Inv.
  destruct Inv as [I1 I2].
  { split; [|constructor]. split; [reflexivity|]. cbn. lra. }
  split; [exact I2|]. split; [exact I1|]. split; [|vm_compute; reflexivity].
  intros v [W B]. apply lt_of_val; [exact W|reflexivity|].
  replace (F32.val max_hr_bpm) with 200%R by (unfold max_hr_bpm; val_lra). lra.
Qed.

Lemma rates_behind_peaks_step (d : dsp) (ev : list event) (r i : Z) :
  rates_behind_peaks d ev ->
  rates_behind_peaks (process_sample d r i).1 (ev ++ (process_sample d r i).2).
Proof.
  intros H. unfold rates_behind_peaks in *. rewrite !hrs_of_app, !peaks_of_app.
  destruct (process_sample_kinds d r i) as (_ & _ & -> & -> & _ & _ & -> & _).
  set (gap := wrap_int (sample_idx d - last_peak d)).
  destruct (_ && _ && (refractory_n <? gap)) eqn:A; cbn [andb].
  - right. destruct H as [(L & -> & ->)|H].
    + rewrite L. cbn. lia.
    + rewrite !length_app.
      destruct ((0 <=? last_peak d) && plausible (inst_hr gap)); cbn [length]; lia.
  - rewrite !app_nil_r. exact H.
Qed.

(** X11. The first peak of a run never gives a rate: [last_peak] starts at
    -1000, and a rate needs a peak before it.  Over any run from the start
    there are fewer rates printed than peaks accepted, unless there is no
    peak at all. *)
Theorem fewer_rates_than_peaks (mem cs : list ascii) :
  let '(s', ev) := process_bytes (init_state mem) cs in
  (length (hrs_of ev) <= length (peaks_of ev) - 1)%nat /\
  (peaks_of ev = [] -> last_peak (st_dsp s') = NO_PEAK) /\
  rates_behind_peaks (st_dsp s') ev.
Proof.
  pose proof (process_bytes_invariant rates_behind_peaks) as Inv.
  specialize (Inv ltac:(intros d ev H; unfold rates_behind_peaks;
                        rewrite hrs_of_app, peaks_of_app, !app_nil_r; exact H)).
  specialize (Inv ltac:(intros d ev r i H _ _; apply rates_behind_peaks_step; exact H)).
  specialize (Inv cs (init_state mem) []).
  destruct (process_bytes (init_state mem) cs) as [s' ev]. cbn [fst snd app] in Inv.
  assert (H : rates_behind_peaks (st_dsp s') ev).
  { apply Inv. left. repeat split. }
  split; [|split; [|exact H]].
  - destruct H as [(_ & -> & ->)|H]; cbn [length]; lia.
  - intros E. destruct H as [(L & _)|H]; [exact L|].
    rewrite E in H. cbn [length] in H. lia.
Qed.

Lemma steady_step (d : dsp) (r i : Z) :
  steady d -> INT_MIN <= i <= INT_MAX -> steady (process_sample d r i).1.
Proof.
  intros [F E] Hi. split; [apply process_sample_in_range; assumption|].
  destruct (process_sample_kinds d r i) as (_ & _ & _ & _ & -> & -> & _).
  reflexivity.
Qed.

Lemma steady_init : steady init_dsp.
Proof. split; [split; [reflexivity|cbn; lra]|reflexivity]. Qed.

Lemma reachable_steady (mem cs : list ascii) :
  steady (st_dsp (process_bytes (init_state mem) cs).1).
Proof.
  pose proof (process_bytes_invariant (fun d _ => steady d)) as Inv.
  apply (Inv ltac:(intros d ev H; exact H)
             ltac:(intros d ev r i H _ Hi; apply steady_step; assumption)
             cs (init_state mem) []).
  exact steady_init.
Qed.

(** One step of the filter from a number within [lo, hi] on an input within
    [lo, hi]. *)
Lemma low_pass_within (lo hi : Z) (y : float) (i : Z) :
  - 2 ^ 24 < lo -> hi < 2 ^ 24 -> lo <= i <= hi ->
  val_between lo hi y ->
  val_between lo hi (F32.of_int i) /\
  val_between lo hi (low_pass y (F32.of_int i)).
Proof.
  intros Hlo Hhi Hi [Wy By].
  assert (Ri : INT_MIN <= i <= INT_MAX) by (unfold INT_MIN, INT_MAX; lia).
  destruct (of_int_le i lo Ri ltac:(lia)) as [_ L]. specialize (L ltac:(lia)).
  destruct (of_int_le i hi Ri ltac:(lia)) as [U _]. specialize (U ltac:(lia)).
  destruct (of_int_in_range i Ri) as [Wx _].
  assert (Rlo : (- 16777216 <= IZR lo)%R) by (apply (IZR_le (-16777216) lo); lia).
  assert (Rhi : (IZR hi <= 16777216)%R) by (apply (IZR_le hi 16777216); lia).
  assert (V : F32.val two_32 = 4294967296%R) by (unfold two_32; val_lra).
  destruct (low_pass_between y (F32.of_int i) two_32 Wx Wy eq_refl) as (W & Up & Dn);
    [rewrite V; lra|].
  split; [split; [exact Wx|lra]|]. split; [exact W|].
  destruct (Rle_lt_dec (F32.val y) (F32.val (F32.of_int i))) as [S|S].
  - specialize (Up S). lra.
  - assert (S' : (F32.val (F32.of_int i) <= F32.val y)%R) by lra.
    specialize (Dn S'). lra.
Qed.

(** X12. What is written to the file is always a number (never a NaN or an
    infinity) within the range of [int]; and the filter never leaves the
    range of its inputs: if every IR value read in a run lies between [lo]
    and [hi], two integers of less than 24 bits with 0 between them (the
    filter starts at 0), then so does every value written. *)
Theorem csv_within_input_range (mem cs : list ascii) (lo hi : Z) :
  - 2 ^ 24 < lo <= 0 -> 0 <= hi < 2 ^ 24 ->
  let ev := (process_bytes (init_state mem) cs).2 in
  Forall (fun v => F32.wf v = true /\
                   (- 2147483648 <= F32.val v <= 2147483648)%R) (csv_of ev) /\
  (Forall (fun p => lo <= p.2 <= hi) (pairs_of ev) ->
   Forall (val_between lo hi) (csv_of ev)).
Proof.
  intros Hlo Hhi. cbn zeta.
  set (ok := fun v => F32.wf v = true /\
                      (- 2147483648 <= F32.val v <= 2147483648)%R).
  pose proof (process_bytes_invariant
    (fun d ev =>
       filt_in_range d /\ Forall ok (csv_of ev) /\
       (Forall (fun p => lo <= p.2 <= hi) (pairs_of ev) ->
        val_between lo hi (ir_filt d) /\ Forall (val_between lo hi) (csv_of ev))))
    as Inv.
  cbn beta in Inv.
  assert (Ov : forall (d : dsp) (ev : list event),
    filt_in_range d /\ Forall ok (csv_of ev) /\
    (Forall (fun p => lo <= p.2 <= hi) (pairs_of ev) ->
     val_between lo hi (ir_filt d) /\ Forall (val_between lo hi) (csv_of ev)) ->
    filt_in_range d /\ Forall ok (csv_of (ev ++ [Stderr_overflow])) /\
    (Forall (fun p => lo <= p.2 <= hi) (pairs_of (ev ++ [Stderr_overflow])) ->
     val_between lo hi (ir_filt d) /\
     Forall (val_between lo hi) (csv_of (ev ++ [Stderr_overflow])))).
  { intros d ev H. rewrite csv_of_app, pairs_of_app, !app_nil_r. exact H. }
  assert (St : forall (d : dsp) (ev : list event) (r i : Z),
    filt_in_range d /\ Forall ok (csv_of ev) /\
    (Forall (fun p => lo <= p.2 <= hi) (pairs_of ev) ->
     val_between lo hi (ir_filt d) /\ Forall (val_between lo hi) (csv_of ev)) ->
    INT_MIN <= r <= INT_MAX -> INT_MIN <= i <= INT_MAX ->
    filt_in_range (process_sample d r i).1 /\
    Forall ok (csv_of (ev ++ (process_sample d r i).2)) /\
    (Forall (fun p => lo <= p.2 <= hi) (pairs_of (ev ++ (process_sample d r i).2)) ->
     val_between lo hi (ir_filt (process_sample d r i).1) /\
     Forall (val_between lo hi) (csv_of (ev ++ (process_sample d r i).2)))).
  { intros d ev r i (F & C & H) _ Hi.
    pose proof (process_sample_in_range d r i F Hi) as F'.
    destruct (process_sample_kinds d r i) as (K1 & K2 & _ & _ & K5 & _).
    rewrite csv_of_app, pairs_of_app, K1, K2.
    split; [exact F'|]. split.
    - apply Forall_app. split; [exact C|]. constructor; [|constructor].
      rewrite <- K5. exact F'.
    - intros P. apply Forall_app in P. destruct P as [P1 P2].
      apply Forall_cons in P2. destruct P2 as [P2 _]. cbn [snd] in P2.
      destruct (H P1) as [B1 B2].
      destruct (low_pass_within lo hi (ir_filt d) i ltac:(lia) ltac:(lia) P2 B1)
        as [_ B3].
      rewrite K5. split; [exact B3|]. apply Forall_app. split; [exact B2|].
      constructor; [exact B3|constructor]. }
  specialize (Inv Ov St cs (init_state mem) []).
  destruct (process_bytes (init_state mem) cs) as [s' ev]. cbn [fst snd app] in *.
  destruct Inv as (_ & I2 & I3).
  { split; [split; [reflexivity|cbn; lra]|]. split; [constructor|].
    intros _. split; [|constructor]. split; [reflexivity|].
    cbn [init_state st_dsp init_dsp ir_filt F32.zero F32.val].
    split; [apply (IZR_le lo 0)|apply (IZR_le 0 hi)]; lia. }
  split; [exact I2|]. intros P. apply I3. exact P.
Qed.

Lemma csv_within_input_range_witness :
  let ev := (process_bytes (init_state (replicate BUFFER_SIZE NUL))
               (chars "100,50" ++ LF :: chars "200,80" ++ LF :: chars "150,60" ++ [LF])).2 in
  pairs_of ev = [(100, 50); (200, 80); (150, 60)] /\
  Forall (val_between 0 80) (csv_of ev).
Proof.
  cbn zeta. split; [vm_compute; reflexivity|].
  apply (csv_within_input_range (replicate BUFFER_SIZE NUL)
           (chars "100,50" ++ LF :: chars "200,80" ++ LF :: chars "150,60" ++ [LF])
           0 80); [lia|lia|].
  replace (pairs_of _) with [(100, 50); (200, 80); (150, 60)]
    by (vm_compute; reflexivity).
  repeat constructor; cbn [snd]; lia.
Defined.

(** A crossing needs an input at the threshold or above. *)
Lemma crossing_needs_input (d : dsp) (r i : Z) :
  steady d -> INT_MIN <= i <= INT_MAX ->
  peaks_of (process_sample d r i).2 <> [] ->
  10 <= i /\
  (F32.val (ir_filt d) < 10 <= F32.val (ir_filt (process_sample d r i).1))%R.
Proof.
  intros [[Wy By] E] Hi.
  destruct (process_sample_kinds d r i) as (_ & _ & -> & _ & -> & _).
  destruct (low_pass_in_range (ir_filt d) i Wy By Hi) as (W' & _ & Up & Dn).
  destruct (F32.lt (prev_ir_filt d) peak_thr) eqn:L; cbn [andb];
    [|intros N; contradiction].
  destruct (F32.ge (low_pass (ir_filt d) (F32.of_int i)) peak_thr) eqn:G; cbn [andb];
    [|intros N; contradiction].
  intros _. rewrite E in L.
  apply val_of_lt in L; [|exact Wy|reflexivity].
  apply ge_of_val in G; [|exact W'|reflexivity].
  rewrite val_peak_thr in L, G.
  assert (X : (10 <= F32.val (F32.of_int i))%R).
  { destruct (Rle_lt_dec (F32.val (ir_filt d)) (F32.val (F32.of_int i))) as [S|S].
    - specialize (Up S). lra.
    - assert (S' : (F32.val (F32.of_int i) <= F32.val (ir_filt d))%R) by lra.
      specialize (Dn S'). lra. }
  split; [|lra].
  destruct (Z_le_gt_dec 10 i) as [Ok|Bad]; [exact Ok|].
  destruct (of_int_le i 9 Hi ltac:(lia)) as [U _]. specialize (U ltac:(lia)). lra.
Qed.

(** X13. A peak is only accepted on a sample whose IR integer is 10 or
    more: the filtered value must have been below the threshold and must
    reach it, and the filter never passes its input.  So in any state the
    program can be in, a sample with IR below 10 is not a peak, and a run
    whose IR values are all below 10 accepts no peak and prints no rate. *)
Theorem peak_needs_ir_at_threshold (mem cs : list ascii) (r i : Z) :
  INT_MIN <= i <= INT_MAX ->
  let '(s, ev) := process_bytes (init_state mem) cs in
  (peaks_of (process_sample (st_dsp s) r i).2 <> [] ->
   10 <= i /\
   (F32.val (ir_filt (st_dsp s)) < 10
    <= F32.val (ir_filt (process_sample (st_dsp s) r i).1))%R) /\
  (Forall (fun p => p.2 < 10) (pairs_of ev) -> peaks_of ev = [] /\ hrs_of ev = []).
Proof.
  intros Hi.
  pose proof (reachable_steady mem cs) as S.
  pose proof (process_bytes_invariant
    (fun d ev => steady d /\
       (Forall (fun p => p.2 < 10) (pairs_of ev) ->
        peaks_of ev = [] /\ hrs_of ev = []))) as Inv.
  cbn beta in Inv.
  assert (Ov : forall (d : dsp) (ev : list event),
    steady d /\ (Forall (fun p => p.2 < 10) (pairs_of ev) ->
                 peaks_of ev = [] /\ hrs_of ev = []) ->
    steady d /\ (Forall (fun p => p.2 < 10) (pairs_of (ev ++ [Stderr_overflow])) ->
                 peaks_of (ev ++ [Stderr_overflow]) = [] /\
                 hrs_of (ev ++ [Stderr_overflow]) = [])).
  { intros d ev H. rewrite peaks_of_app, hrs_of_app, pairs_of_app, !app_nil_r. exact H. }
  assert (St : forall (d : dsp) (ev : list event) (x y : Z),
    steady d /\ (Forall (fun p => p.2 < 10) (pairs_of ev) ->
                 peaks_of ev = [] /\ hrs_of ev = []) ->
    INT_MIN <= x <= INT_MAX -> INT_MIN <= y <= INT_MAX ->
    steady (process_sample d x y).1 /\
    (Forall (fun p => p.2 < 10) (pairs_of (ev ++ (process_sample d x y).2)) ->
     peaks_of (ev ++ (process_sample d x y).2) = [] /\
     hrs_of (ev ++ (process_sample d x y).2) = [])).
  { intros d ev x y [Sd H] _ Hy. split; [apply steady_step; assumption|].
    pose proof (crossing_needs_input d x y Sd Hy) as C.
    destruct (process_sample_kinds d x y) as (K1 & _ & K3 & K4 & _).
    rewrite pairs_of_app, peaks_of_app, hrs_of_app, K1. intros P.
    apply Forall_app in P. destruct P as [P1 P2].
    apply Forall_cons in P2. destruct P2 as [P2 _]. cbn [snd] in P2.
    destruct (H P1) as [-> ->]. cbn [app].
    rewrite K3 in C. rewrite K3, K4.
    destruct (_ && _ && (_ <? _)) eqn:A; cbn [andb].
    - destruct C as [C _]; [discriminate|lia].
    - split; reflexivity. }
  specialize (Inv Ov St cs (init_state mem) []).
  destruct (process_bytes (init_state mem) cs) as [s ev]. cbn [fst snd app] in *.
  split; [apply crossing_needs_input; assumption|].
  apply Inv. split; [exact steady_init|]. intros _. split; reflexivity.
Qed.

Lemma peak_needs_ir_at_threshold_witness :
  let s := (process_bytes (init_state (replicate BUFFER_SIZE NUL))
              (chars "0,9" ++ [LF])).1 in
  INT_MIN <= 50 <= INT_MAX /\
  peaks_of (process_sample (st_dsp s) 0 50).2 = [1] /\ 10 <= 50.
Proof.
  cbn zeta. split; [unfold INT_MIN, INT_MAX; lia|].
  split; [vm_compute; reflexivity|].
  pose proof (peak_needs_ir_at_threshold (replicate BUFFER_SIZE NUL)
                (chars "0,9" ++ [LF]) 0 50
                ltac:(unfold INT_MIN, INT_MAX; lia)) as H.
  destruct (process_bytes (init_state (replicate BUFFER_SIZE NUL))
              (chars "0,9" ++ [LF])) as [s ev] eqn:E.
  destruct H as [H _].
  assert (P : peaks_of (process_sample (st_dsp s) 0 50).2 = [1]).
  { replace s with (process_bytes (init_state (replicate BUFFER_SIZE NUL))
                      (chars "0,9" ++ [LF])).1 by (rewrite E; reflexivity).
    vm_compute. reflexivity. }
  apply H. rewrite P. discriminate.
Defined.

(** One more sample of a constant input [i], seen from the filtered value. *)
Lemma constant_step (d : dsp) (r i : Z) :
  steady d -> INT_MIN <= i <= INT_MAX ->
  let x := F32.val (F32.of_int i) in
  let y := F32.val (ir_filt d) in
  let d' := (process_sample d r i).1 in
  let y' := F32.val (ir_filt d') in
  let pk := peaks_of (process_sample d r i).2 in
  steady d' /\ (length pk <= 1)%nat /\
  ((y <= x)%R -> (y' <= x)%R /\ (pk <> [] -> (10 <= y')%R)) /\
  ((10 <= y <= x)%R -> (10 <= y' <= x)%R /\ pk = []) /\
  ((x <= y)%R -> (x <= y')%R /\ pk = []).
Proof.
  intros S Hi. cbn zeta.
  pose proof (steady_step d r i S Hi) as S'.
  pose proof (crossing_needs_input d r i S Hi) as C.
  destruct S as [[Wy By] E].
  destruct (low_pass_in_range (ir_filt d) i Wy By Hi) as (_ & _ & Up & Dn).
  destruct (process_sample_kinds d r i) as (_ & _ & K3 & _ & K5 & _).
  rewrite K5 in *. split; [exact S'|]. split.
  { rewrite K3. destruct (_ && _ && (_ <? _)); cbn [length]; lia. }
  split; [|split].
  - intros L. specialize (Up L). split; [lra|].
    intros N. destruct (C N) as [_ C']. lra.
  - intros [L1 L2]. specialize (Up L2). split; [lra|].
    destruct (peaks_of (process_sample d r i).2) as [|p ps]; [reflexivity|].
    destruct C as [_ C']; [discriminate|lra].
  - intros L. specialize (Dn L). split; [lra|].
    destruct (peaks_of (process_sample d r i).2) as [|p ps]; [reflexivity|].
    destruct C as [_ C']; [discriminate|lra].
Qed.

Lemma constant_quiet (r i : Z) (k : nat) :
  INT_MIN <= i <= INT_MAX ->
  forall d : dsp,
    steady d ->
    (10 <= F32.val (ir_filt d) <= F32.val (F32.of_int i))%R \/
    (F32.val (F32.of_int i) <= F32.val (ir_filt d))%R ->
    peaks_of (run_samples d (replicate k (r, i))).2 = [].
Proof.
  intros Hi. induction k as [|k IH]; intros d S Q; [reflexivity|].
  cbn [replicate run_samples].
  destruct (constant_step d r i S Hi) as (S' & _ & _ & A & B).
  destruct (process_sample d r i) as [d1 ev1]. cbn [fst snd] in *.
  assert (Q' : ((10 <= F32.val (ir_filt d1) <= F32.val (F32.of_int i))%R \/
                (F32.val (F32.of_int i) <= F32.val (ir_filt d1))%R) /\
               peaks_of ev1 = []).
  { destruct Q as [Q|Q]; [destruct (A Q) as [A1 A2]|destruct (B Q) as [B1 B2]].
    - split; [left; exact A1|exact A2].
    - split; [right; exact B1|exact B2]. }
  destruct Q' as [Q' P]. specialize (IH d1 S' Q').
  destruct (run_samples d1 (replicate k (r, i))) as [d2 ev2]. cbn [snd] in *.
  rewrite peaks_of_app, P, IH. reflexivity.
Qed.

Lemma constant_one_peak (r i : Z) (k : nat) :
  INT_MIN <= i <= INT_MAX ->
  forall d : dsp,
    steady d ->
    (length (peaks_of (run_samples d (replicate k (r, i))).2) <= 1)%nat.
Proof.
  intros Hi. induction k as [|k IH]; intros d S; [cbn; lia|].
  cbn [replicate run_samples].
  destruct (constant_step d r i S Hi) as (S' & L1 & U & _ & B).
  pose proof (constant_quiet r i k Hi (process_sample d r i).1 S') as Q.
  specialize (IH (process_sample d r i).1 S').
  destruct (process_sample d r i) as [d1 ev1]. cbn [fst snd] in *.
  destruct (run_samples d1 (replicate k (r, i))) as [d2 ev2]. cbn [snd] in *.
  rewrite peaks_of_app, length_app.
  destruct (Rle_lt_dec (F32.val (ir_filt d)) (F32.val (F32.of_int i))) as [Le|Gt].
  - destruct (U Le) as [U1 U2].
    destruct (peaks_of ev1) as [|p ps] eqn:P; [cbn [length]; lia|].
    rewrite Q; [cbn [length] in *; lia|]. left. split; [|exact U1].
    apply U2. discriminate.
  - destruct B as [B1 B2]; [lra|]. rewrite B2. cbn [length]. lia.
Qed.

(** X14. A constant signal has no pulse.  From any state the program can
    be in, while the same IR integer comes in sample after sample, at most
    one more peak is accepted, hence at most one more rate printed: the
    filtered value moves one way only, so it goes up through the threshold
    once at most.  From the start of the program a constant input never
    prints a rate. *)
Theorem constant_input_has_no_pulse (mem cs : list ascii) (r i : Z) (k : nat) :
  INT_MIN <= i <= INT_MAX ->
  let d := st_dsp (process_bytes (init_state mem) cs).1 in
  let ev := (run_samples d (replicate k (r, i))).2 in
  (length (peaks_of ev) <= 1)%nat /\ (length (hrs_of ev) <= 1)%nat /\
  hrs_of (run_samples init_dsp (replicate k (r, i))).2 = [] /\
  (length (peaks_of (run_samples init_dsp (replicate k (r, i))).2) <= 1)%nat.
Proof.
  intros Hi. cbn zeta.
  assert (Rg : Forall (fun p : Z * Z => INT_MIN <= p.2 <= INT_MAX) (replicate k (r, i)))
    by (apply Forall_replicate; exact Hi).
  assert (Cnt : forall d,
            (length (hrs_of (run_samples d (replicate k (r, i))).2)
             <= length (peaks_of (run_samples d (replicate k (r, i))).2))%nat).
  { intros d.
    pose proof (run_samples_invariant
                  (fun _ ev => (length (hrs_of ev) <= length (peaks_of ev))%nat)) as Inv.
    cbn beta in Inv. apply (fun H => Inv H (replicate k (r, i)) d [] Rg); [|cbn; lia].
    intros d0 ev x y H _. rewrite hrs_of_app, peaks_of_app, !length_app.
    destruct (process_sample_kinds d0 x y) as (_ & _ & -> & -> & _).
    destruct (_ && _ && (_ <? _)); cbn [andb]; [|cbn [length]; lia].
    destruct (_ && _); cbn [length]; lia. }
  pose proof (constant_one_peak r i k Hi _ (reachable_steady mem cs)) as P1.
  pose proof (constant_one_peak r i k Hi init_dsp steady_init) as P2.
  split; [exact P1|]. split; [specialize (Cnt (st_dsp (process_bytes (init_state mem) cs).1)); lia|].
  split; [|exact P2].
  pose proof (run_samples_invariant rates_behind_peaks) as Inv.
  specialize (Inv ltac:(intros d0 ev x y H _; apply rates_behind_peaks_step; exact H)
                  (replicate k (r, i)) init_dsp [] Rg).
  cbn [app] in Inv. destruct Inv as [(_ & _ & H)|H]; [left; repeat split|exact H|].
  destruct (hrs_of _) as [|h hs]; [reflexivity|]. cbn [length] in H. lia.
Qed.

Lemma constant_input_has_no_pulse_witness :
  INT_MIN <= 100 <= INT_MAX /\
  peaks_of (run_samples init_dsp (replicate 200 (0, 100))).2 = [0] /\
  hrs_of (run_samples init_dsp (replicate 200 (0, 100))).2 = [].
Proof.
  split; [unfold INT_MIN, INT_MAX; lia|]. split; [vm_compute; reflexivity|].
  apply (constant_input_has_no_pulse (replicate BUFFER_SIZE NUL) [] 0 100 200).
  unfold INT_MIN, INT_MAX. lia.
Defined.

(** ** The red channel, and the smoothing of the rate *)

Lemma process_sample_same_but_red (d1 d2 : dsp) (r1 r2 i : Z) :
  same_but_red d1 d2 ->
  same_but_red (process_sample d1 r1 i).1 (process_sample d2 r2 i).1 /\
  List.filter not_pair (process_sample d1 r1 i).2
  = List.filter not_pair (process_sample d2 r2 i).2.
Proof.
  intros (E1 & E2 & E3 & E4 & E5 & E6 & E7 & E8 & E9).
  rewrite !process_sample_cases. cbn zeta.
  rewrite E2, E3, E4, E5, E6, E7, E8.
  destruct (_ && _ && (_ <? _)); cbn [andb]; [destruct (_ && _)|];
    split; try reflexivity; repeat split.
Qed.

(** X15. The red value of a record is converted, echoed, and never used:
    two runs over samples that carry the same IR values end with the same
    DSP variables, [red_raw] apart, and with the same trace once the echoed
    pairs are left out; the file, the peaks and the rates are the same. *)
Theorem red_channel_is_ignored (xs1 xs2 : list (Z * Z)) (d1 d2 : dsp) :
  map snd xs1 = map snd xs2 -> same_but_red d1 d2 ->
  let '(d1', ev1) := run_samples d1 xs1 in
  let '(d2', ev2) := run_samples d2 xs2 in
  same_but_red d1' d2' /\
  List.filter not_pair ev1 = List.filter not_pair ev2 /\
  csv_of ev1 = csv_of ev2 /\ peaks_of ev1 = peaks_of ev2 /\
  hrs_of ev1 = hrs_of ev2.
Proof.
  assert (F : forall ev,
            csv_of (List.filter not_pair ev) = csv_of ev /\
            peaks_of (List.filter not_pair ev) = peaks_of ev /\
            hrs_of (List.filter not_pair ev) = hrs_of ev).
  { induction ev as [|e ev (I1 & I2 & I3)]; [repeat split|].
    unfold csv_of, peaks_of, hrs_of in *.
    destruct e; cbn; repeat split; try assumption; f_equal; assumption. }
  intros Hxs Hd.
  assert (G : let '(d1', ev1) := run_samples d1 xs1 in
              let '(d2', ev2) := run_samples d2 xs2 in
              same_but_red d1' d2' /\
              List.filter not_pair ev1 = List.filter not_pair ev2).
  { revert xs2 d1 d2 Hxs Hd.
    induction xs1 as [|[r1 i1] xs1 IH]; intros [|[r2 i2] xs2] d1 d2 Hxs Hd;
      try discriminate Hxs.
    - cbn. split; [exact Hd|reflexivity].
    - cbn [map snd] in Hxs. injection Hxs as -> Hxs.
      cbn [run_samples].
      destruct (process_sample_same_but_red d1 d2 r1 r2 i2 Hd) as [S E].
      destruct (process_sample d1 r1 i2) as [a1 e1].
      destruct (process_sample d2 r2 i2) as [a2 e2]. cbn [fst snd] in S, E.
      specialize (IH xs2 a1 a2 Hxs S).
      destruct (run_samples a1 xs1) as [b1 f1].
      destruct (run_samples a2 xs2) as [b2 f2].
      destruct IH as [IH1 IH2]. split; [exact IH1|].
      rewrite !List.filter_app, E, IH2. reflexivity. }
  destruct (run_samples d1 xs1) as [d1' ev1].
  destruct (run_samples d2 xs2) as [d2' ev2].
  destruct G as [G1 G2]. split; [exact G1|]. split; [exact G2|].
  destruct (F ev1) as (A1 & A2 & A3). destruct (F ev2) as (B1 & B2 & B3).
  rewrite <- A1, <- A2, <- A3, G2, B1, B2, B3. repeat split.
Qed.

Lemma red_channel_is_ignored_witness :
  csv_of (run_samples init_dsp [(1, 50); (2, 80)]).2
  = csv_of (run_samples init_dsp [(700, 50); (-3, 80)]).2.
Proof.
  pose proof (red_channel_is_ignored [(1, 50); (2, 80)] [(700, 50); (-3, 80)]
                init_dsp init_dsp eq_refl) as H.
  destruct (run_samples init_dsp [(1, 50); (2, 80)]) as [a e1].
  destruct (run_samples init_dsp [(700, 50); (-3, 80)]) as [b e2].
  cbn [snd]. apply H. repeat split.
Defined.

Lemma reachable_hr_in_range (mem cs : list ascii) :
  hr_in_range (hr_bpm_filt (st_dsp (process_bytes (init_state mem) cs).1)).
Proof.
  pose proof (process_bytes_invariant (fun d _ => hr_in_range (hr_bpm_filt d))) as Inv.
  apply (Inv ltac:(intros d ev H; exact H)
             ltac:(intros d ev r i H _ _; apply hr_step; exact H)
             cs (init_state mem) []).
  split; [reflexivity|]. cbn. lra.
Qed.

(** X16. Each rate printed lies between the rate printed before it (0 at
    the start) and the pulse just measured, which is above 40 and at most
    6000/31: the smoothing moves the displayed rate toward the measured one
    and never past it. *)
Theorem printed_rate_moves_toward_pulse (mem cs : list ascii) (r i : Z) :
  let d := st_dsp (process_bytes (init_state mem) cs).1 in
  let d' := (process_sample d r i).1 in
  let ev := (process_sample d r i).2 in
  hrs_of ev <> [] ->
  let h := F32.val (hr_bpm_filt d) in
  let h' := F32.val (hr_bpm_filt d') in
  let p := F32.val (hr_bpm d') in
  hrs_of ev = [hr_bpm_filt d'] /\
  hr_bpm d' = inst_hr (wrap_int (sample_idx d - last_peak d)) /\
  (40 < p <= 6000 / 31)%R /\
  ((h <= p -> h <= h' <= p) /\ (p <= h -> p <= h' <= h))%R.
Proof.
  cbn zeta. pose proof (reachable_hr_in_range mem cs) as [W B].
  set (d := st_dsp (process_bytes (init_state mem) cs).1) in *.
  rewrite process_sample_cases. cbn zeta. cbn [fst snd hr_bpm hr_bpm_filt].
  set (gap := wrap_int (sample_idx d - last_peak d)).
  destruct (_ && _ && (refractory_n <? gap)) eqn:A; cbn [andb];
    [|intros N; contradiction N; reflexivity].
  destruct ((0 <=? last_peak d) && plausible (inst_hr gap)) eqn:P;
    [|intros N; contradiction N; reflexivity].
  intros _. split; [reflexivity|]. split; [reflexivity|].
  apply andb_true_iff in A. destruct A as [_ A].
  apply Z.ltb_lt in A. rewrite refractory_n_eq in A.
  assert (G : 31 <= gap <= INT_MAX) by (split; [lia|apply wrap_int_range]).
  destruct (period_inst_bounds gap G) as (_ & _ & Wi & I1 & I2).
  apply andb_true_iff in P. destruct P as [_ P].
  apply plausible_split in P. destruct P as [P _].
  apply gt_iff_val in P; [|exact Wi|reflexivity]. rewrite val_min_hr_bpm in P.
  split; [lra|].
  assert (V : F32.val two_32 = 4294967296%R) by (unfold two_32; val_lra).
  destruct (smooth_hr_between (hr_bpm_filt d) (inst_hr gap) two_32 Wi W eq_refl)
    as (_ & Up & Dn); [rewrite V; lra|].
  split; assumption.
Qed.

Lemma printed_rate_moves_toward_pulse_witness :
  let cs := chars "0,100" ++ LF :: concat (replicate 40 (chars "0,0" ++ [LF])) in
  let d := st_dsp (process_bytes (init_state (replicate BUFFER_SIZE NUL)) cs).1 in
  hrs_of (process_sample d 0 100).2 <> [] /\
  (40 < F32.val (hr_bpm (process_sample d 0 100).1) <= 6000 / 31)%R.
Proof.
  cbn zeta.
  assert (N : hrs_of (process_sample
                 (st_dsp (process_bytes (init_state (replicate BUFFER_SIZE NUL))
                    (chars "0,100" ++ LF :: concat (replicate 40 (chars "0,0" ++ [LF])))).1)
                 0 100).2 <> []) by (vm_compute; discriminate).
  split; [exact N|].
  apply (printed_rate_moves_toward_pulse (replicate BUFFER_SIZE NUL)
           (chars "0,100" ++ LF :: concat (replicate 40 (chars "0,0" ++ [LF])))
           0 100 N).
Defined.

(** ** Progress of the filter on numbers of moderate size *)

(** An integer of less than 24 bits divided by 8 is a binary32 number. *)
Lemma eighths_float (n : Z) :
  - 2 ^ 24 < n < 2 ^ 24 ->
  exists f : float, F32.wf f = true /\ F32.val f = (IZR n / 8)%R.
Proof.
  assert (P : forall n, 0 < n < 2 ^ 24 ->
              exists f : float, F32.wf f = true /\ F32.val f = (IZR n / 8)%R).
  { clear n. intros n Hn.
    pose proof (F32Facts.Zdigits2_bounds n ltac:(lia)) as B.
    pose proof (F32Facts.Zdigits2_nonneg n) as N.
    set (dg := Zdigits2 n) in *.
    assert (D1 : 1 <= dg).
    { destruct (Z.eq_dec dg 0) as [E|E]; [|lia].
      rewrite E in B. change (2 ^ 0) with 1 in B. lia. }
    assert (D24 : dg <= 24).
    { destruct (Z_le_gt_dec dg 24) as [L|G]; [exact L|].
      assert (2 ^ 24 <= 2 ^ (dg - 1)) by (apply Z.pow_le_mono_r; lia). lia. }
    set (k := 24 - dg).
    assert (M : 2 ^ 23 <= n * 2 ^ k < 2 ^ 24).
    { assert (E23 : 2 ^ 23 = 2 ^ (dg - 1) * 2 ^ k)
        by (rewrite <- Z.pow_add_r by (unfold k; lia); f_equal; unfold k; lia).
      assert (E24 : 2 ^ 24 = 2 ^ dg * 2 ^ k)
        by (rewrite <- Z.pow_add_r by (unfold k; lia); f_equal; unfold k; lia).
      assert (0 < 2 ^ k) by (apply Z.pow_pos_nonneg; unfold k; lia).
      rewrite E23, E24.
      split; [apply Z.mul_le_mono_nonneg_r; lia|apply Z.mul_lt_mono_pos_r; lia]. }
    exists (S754_finite false (Z.to_pos (n * 2 ^ k)) (- 3 - k)). split.
    - rewrite F32Facts.wf_finite. apply F32Facts.bounded_intro.
      + lia.
      + unfold F32.emin, k. lia.
      + intros _. lia.
    - cbn [F32.val]. rewrite Z2Pos.id by lia.
      rewrite F32Facts.F2R_shift by (unfold k; lia).
      replace (- 3 - k + k) with (- (3)) by lia. unfold F32.F2R.
      rewrite bpow_neg_Z by lia. change (2 ^ 3) with 8. lra. }
  intros Hn. destruct (Z.lt_trichotomy n 0) as [L|[->|G]].
  - destruct (P (- n) ltac:(lia)) as (f & W & V).
    exists (SFopp f). rewrite F32Facts.wf_opp, F32Facts.val_opp, V, opp_IZR.
    split; [exact W|lra].
  - exists (S754_zero false). split; [reflexivity|]. cbn. lra.
  - apply P. lia.
Qed.

Lemma Rabs_le_both (t b : R) : (Rabs t <= b -> - b <= t <= b)%R.
Proof. unfold Rabs. destruct (Rcase_abs t); lra. Qed.

(** The integer just above a real number of size at most [2^23]. *)
Lemma up_small (t : R) :
  (Rabs t <= 8388608)%R ->
  - 2 ^ 24 < up t < 2 ^ 24 /\ (t < IZR (up t) <= t + 1)%R.
Proof.
  intros Ht. destruct (archimed t) as [A1 A2].
  assert (B : (- 8388608 <= t <= 8388608)%R).
  { apply Rabs_le_both. exact Ht. }
  split; [|lra]. split.
  - apply lt_IZR. change (IZR (- 2 ^ 24)) with (-16777216)%R. lra.
  - apply lt_IZR. change (IZR (2 ^ 24)) with 16777216%R. lra.
Qed.

Example val_one : F32.val (S754_finite false 8388608 (-23)) = 1%R.
Proof. val_lra. Qed.

Example val_eighth : F32.val (S754_finite false 8388608 (-26)) = (1 / 8)%R.
Proof. val_lra. Qed.

Example val_two_33 : F32.val (S754_finite false 8388608 10) = 8589934592%R.
Proof. val_lra. Qed.

Example val_two_32 : F32.val two_32 = 4294967296%R.
Proof. unfold two_32. val_lra. Qed.

Example alpha_filt_eighth : (1 / 8 <= F32.val alpha_filt <= 1 / 2)%R.
Proof. unfold alpha_filt. split; val_lra. Qed.

(** A step toward an input at least 1 above reaches the next multiple of
    1/8 above the old value. *)
Lemma low_pass_progress_up (y x : float) :
  F32.wf y = true -> F32.wf x = true ->
  (Rabs (F32.val y) <= 1048576)%R -> (F32.val x <= 2147483648)%R ->
  (F32.val y + 1 <= F32.val x)%R ->
  (IZR (up (8 * F32.val y)) / 8 <= F32.val (low_pass y x))%R.
Proof.
  intros Wy Wx By Bx G.
  assert (By' : (- 1048576 <= F32.val y <= 1048576)%R) by (apply Rabs_le_both; exact By).
  destruct (F32Facts.sub_between x y (S754_finite false 8388608 (-23)) two_32
              Wx Wy eq_refl eq_refl) as [Wd [D1 D2]];
    [rewrite val_one, val_two_32; lra|].
  rewrite val_one in D1. rewrite val_two_32 in D2.
  pose proof alpha_filt_eighth as [A1 A2].
  destruct (F32Facts.mul_between alpha_filt (F32.sub x y)
              (S754_finite false 8388608 (-26)) two_32
              eq_refl Wd eq_refl eq_refl) as [Wp [P1 P2]].
  { rewrite val_eighth, val_two_32. split; nra. }
  rewrite val_eighth in P1. rewrite val_two_32 in P2.
  destruct (up_small (8 * F32.val y)) as [U1 [U2 U3]].
  { rewrite Rabs_mult, (Rabs_pos_eq 8) by lra. lra. }
  destruct (eighths_float (up (8 * F32.val y)) U1) as (g & Wg & Vg).
  destruct (F32Facts.add_between y (F32.mul alpha_filt (F32.sub x y)) g
              (S754_finite false 8388608 10) Wy Wp Wg eq_refl) as [_ [S1 _]].
  { rewrite Vg, val_two_33. split; lra. }
  rewrite Vg in S1. exact S1.
Qed.

(** The same toward an input at least 1 below. *)
Lemma low_pass_progress_down (y x : float) :
  F32.wf y = true -> F32.wf x = true ->
  (Rabs (F32.val y) <= 1048576)%R -> (- 2147483648 <= F32.val x)%R ->
  (F32.val x + 1 <= F32.val y)%R ->
  (F32.val (low_pass y x) <= - (IZR (up (8 * - F32.val y)) / 8))%R.
Proof.
  intros Wy Wx By Bx G.
  assert (By' : (- 1048576 <= F32.val y <= 1048576)%R) by (apply Rabs_le_both; exact By).
  assert (Vm1 : F32.val (SFopp (S754_finite false 8388608 (-23))) = (-1)%R)
    by (rewrite F32Facts.val_opp, val_one; reflexivity).
  assert (Vm32 : F32.val (SFopp two_32) = (- 4294967296)%R)
    by (rewrite F32Facts.val_opp, val_two_32; reflexivity).
  destruct (F32Facts.sub_between x y (SFopp two_32)
              (SFopp (S754_finite false 8388608 (-23)))
              Wx Wy eq_refl eq_refl) as [Wd [D1 D2]];
    [rewrite Vm1, Vm32; lra|].
  rewrite Vm32 in D1. rewrite Vm1 in D2.
  pose proof alpha_filt_eighth as [A1 A2].
  assert (Vm8 : F32.val (SFopp (S754_finite false 8388608 (-26))) = (- (1 / 8))%R)
    by (rewrite F32Facts.val_opp, val_eighth; reflexivity).
  destruct (F32Facts.mul_between alpha_filt (F32.sub x y) (SFopp two_32)
              (SFopp (S754_finite false 8388608 (-26)))
              eq_refl Wd eq_refl eq_refl) as [Wp [P1 P2]].
  { rewrite Vm8, Vm32. split; nra. }
  rewrite Vm32 in P1. rewrite Vm8 in P2.
  destruct (up_small (8 * - F32.val y)) as [U1 [U2 U3]].
  { rewrite Rabs_mult, (Rabs_pos_eq 8), Rabs_Ropp by lra. lra. }
  destruct (eighths_float (- up (8 * - F32.val y)) ltac:(lia)) as (g & Wg & Vg).
  rewrite opp_IZR in Vg.
  assert (Vm33 : F32.val (SFopp (S754_finite false 8388608 10)) = (- 8589934592)%R)
    by (rewrite F32Facts.val_opp, val_two_33; reflexivity).
  destruct (F32Facts.add_between y (F32.mul alpha_filt (F32.sub x y))
              (SFopp (S754_finite false 8388608 10)) g Wy Wp eq_refl Wg)
    as [_ [_ S2]].
  { rewrite Vg, Vm33. split; lra. }
  rewrite Vg in S2. unfold low_pass. lra.
Qed.

(** A sequence of reals that never goes down, never passes [x], and reaches
    the next multiple of 1/8 at each step taken at least 1 below [x], is
    within 1 of [x] from some step on. *)
Lemma climbs_within_1 (u : nat -> R) (x : R) :
  (forall k, u k <= u (S k) <= x)%R ->
  (forall k, (1 <= x - u k)%R -> (IZR (up (8 * u k)) / 8 <= u (S k))%R) ->
  exists N : nat, forall k, (N <= k)%nat -> (0 <= x - u k < 1)%R.
Proof.
  intros Mono Prog.
  assert (Le : forall k, (u k <= x)%R)
    by (intros k; destruct (Mono k); lra).
  assert (Inc : forall j k, (j <= k)%nat -> (u j <= u k)%R).
  { intros j k H. induction H as [|k H IH]; [lra|]. destruct (Mono k). lra. }
  assert (A : forall n,
            (exists k, (x - u k < 1)%R) \/
            up (8 * u 0%nat) + Z.of_nat n <= up (8 * u n)).
  { induction n as [|n [IH|IH]]; [right; lia|left; exact IH|].
    destruct (Rlt_le_dec (x - u n) 1) as [C|C]; [left; exists n; exact C|].
    right. specialize (Prog n C).
    destruct (archimed (8 * u (S n))) as [A1 _].
    assert (L : (IZR (up (8 * u n)) < IZR (up (8 * u (S n))))%R) by lra.
    apply lt_IZR in L. lia. }
  set (B := up (8 * x + 1)).
  remember (Z.to_nat (Z.max 0 (B - up (8 * u 0%nat)))) as n eqn:En.
  assert (Hn : Z.of_nat n = Z.max 0 (B - up (8 * u 0%nat)))
    by (rewrite En; apply Z2Nat.id; lia).
  destruct (A n) as [[k Hk]|H].
  - exists k. intros j Hj. specialize (Inc k j Hj). specialize (Le j). lra.
  - exfalso.
    destruct (archimed (8 * u n)) as [_ A2].
    destruct (archimed (8 * x + 1)) as [A3 _]. fold B in A3.
    specialize (Le n).
    assert (L : (IZR (up (8 * u n)) < IZR B)%R) by lra.
    apply lt_IZR in L. lia.
Qed.

(** ** The filter under a constant input: how close it comes *)

(** C7, as stated, fails: the filtered value does not converge to the input
    in binary32.  Held at 100 after the sample "0,50", it is [100 - 2^-16]
    from the 69th sample on, and the next step leaves it there: its
    distance to 100 is [2^-16] for ever. *)
Lemma filter_does_not_converge : ~ filter_converges.
Proof.
  intros H.
  specialize (H (replicate BUFFER_SIZE NUL) (chars "0,50" ++ [LF]) 0 100
                ltac:(vm_compute; split; discriminate)).
  cbn zeta in H. fold after_0_50 in H.
  set (c := S754_finite false 13107198 (-17)).
  assert (Stuck : forall j, ir_filt (hold after_0_50 0 100 (69 + j)) = c).
  { induction j as [|j IH]; [vm_compute; reflexivity|].
    replace (69 + S j)%nat with (S (69 + j)) by lia.
    destruct (hold_step after_0_50 0 100 (69 + j)) as [-> _]. rewrite IH.
    vm_compute. reflexivity. }
  destruct (H (/ 131072)%R ltac:(lra)) as [N HN].
  specialize (HN (69 + N)%nat ltac:(lia)). rewrite Stuck in HN.
  replace (F32.of_int 100) with (S754_finite false 13107200 (-17)) in HN
    by (vm_compute; reflexivity).
  assert (V1 : F32.val (S754_finite false 13107200 (-17)) = 100%R) by val_lra.
  assert (V2 : F32.val c = (100 - / 65536)%R) by (unfold c; val_lra).
  rewrite V1, V2 in HN.
  rewrite Rabs_pos_eq in HN by lra. lra.
Qed.

(** The filtered values under a constant input of moderate size. *)
Lemma hold_moderate (mem cs : list ascii) (r i : Z) (k : nat) :
  - 1048576 <= i <= 1048576 ->
  let d0 := st_dsp (process_bytes (init_state mem) cs).1 in
  (Rabs (F32.val (ir_filt d0)) <= 1048576)%R ->
  F32.wf (F32.of_int i) = true /\ F32.val (F32.of_int i) = IZR i /\
  F32.wf (ir_filt (hold d0 r i k)) = true /\
  (Rabs (F32.val (ir_filt (hold d0 r i k))) <= 1048576)%R /\
  ir_filt (hold d0 r i (S k)) = low_pass (ir_filt (hold d0 r i k)) (F32.of_int i).
Proof.
  intros Hi d0 B0.
  assert (Ri : INT_MIN <= i <= INT_MAX) by (unfold INT_MIN, INT_MAX; lia).
  destruct (of_int_exact i) as [Wx Vx]; [lia|].
  assert (Rx : (- 1048576 <= IZR i <= 1048576)%R)
    by (split; [apply (IZR_le (-1048576) i)|apply (IZR_le i 1048576)]; lia).
  destruct (low_pass_steps_between mem cs r i Ri) as (_ & _ & Up & Dn & _).
  fold d0 in Up, Dn. cbn beta in Up, Dn. rewrite Vx in Up, Dn.
  destruct (hold_in_range d0 r i k (reachable_in_range mem cs) Ri) as [W _].
  destruct (hold_step d0 r i k) as [E _].
  split; [exact Wx|]. split; [exact Vx|]. split; [exact W|]. split; [|exact E].
  apply Rabs_le_both in B0. change (hold d0 r i 0) with d0 in Up, Dn.
  destruct (Rle_lt_dec (F32.val (ir_filt d0)) (IZR i)) as [S|S].
  - specialize (Up S).
    assert (A : forall n, (F32.val (ir_filt d0)
                           <= F32.val (ir_filt (hold d0 r i n)) <= IZR i)%R).
    { induction n as [|n IH]; [change (hold d0 r i 0) with d0; lra|].
      destruct (Up n). lra. }
    specialize (A k). apply Rabs_le. lra.
  - assert (S' : (IZR i <= F32.val (ir_filt d0))%R) by lra. specialize (Dn S').
    assert (A : forall n, (IZR i <= F32.val (ir_filt (hold d0 r i n))
                           <= F32.val (ir_filt d0))%R).
    { induction n as [|n IH]; [change (hold d0 r i 0) with d0; lra|].
      destruct (Dn n). lra. }
    specialize (A k). apply Rabs_le. lra.
Qed.

(** C7, as the code has it.  The filter computes
    [ir_filt + alpha_filt * (ir_raw - ir_filt)] with [alpha_filt] the
    binary32 number nearest to 0.2.  From any state reached from the start,
    while the same IR integer comes in sample after sample, the filtered
    value moves toward the input without ever passing it: if it starts
    below (resp. above) the input, every step leaves it at or above (resp.
    below) its previous value and at or below (resp. above) the input, so
    that its distance to the input never grows.  It does not converge to the
    input in general, but it does come close: for an input and a filtered
    value of at most [2^20] in size, every step taken at a distance of 1 or
    more makes the distance strictly smaller, and after finitely many steps
    the filtered value is, and stays, less than 1 away from the input. *)
Theorem low_pass_monotone_no_overshoot (mem cs : list ascii) (r i : Z) :
  INT_MIN <= i <= INT_MAX ->
  let d0 := st_dsp (process_bytes (init_state mem) cs).1 in
  let x := F32.of_int i in
  let y := fun k => ir_filt (hold d0 r i k) in
  alpha_filt = F32.div (F32.of_int 2) (F32.of_int 10) /\
  (forall k, ir_raw (hold d0 r i (S k)) = x /\
             y (S k) = F32.add (y k) (F32.mul alpha_filt (F32.sub x (y k)))) /\
  ((F32.val (y 0%nat) <= F32.val x)%R ->
   forall k, (F32.val (y k) <= F32.val (y (S k)) <= F32.val x)%R) /\
  ((F32.val x <= F32.val (y 0%nat))%R ->
   forall k, (F32.val x <= F32.val (y (S k)) <= F32.val (y k))%R) /\
  (forall k, (Rabs (F32.val x - F32.val (y (S k)))
              <= Rabs (F32.val x - F32.val (y k)))%R) /\
  (- 1048576 <= i <= 1048576 ->
   (Rabs (F32.val (y 0%nat)) <= 1048576)%R ->
   F32.val x = IZR i /\
   (forall k, (1 <= Rabs (F32.val x - F32.val (y k)))%R ->
              (Rabs (F32.val x - F32.val (y (S k)))
               < Rabs (F32.val x - F32.val (y k)))%R) /\
   exists N : nat, forall k : nat, (N <= k)%nat ->
     (Rabs (F32.val x - F32.val (y k)) < 1)%R).
Proof.
  intros Hi d0 x y.
  destruct (low_pass_steps_between mem cs r i Hi) as (C1 & C2 & Up & Dn & C5).
  fold d0 x y in C2, Up, Dn, C5.
  split; [exact C1|]. split; [exact C2|]. split; [exact Up|].
  split; [exact Dn|]. split; [exact C5|].
  intros Hm B0.
  assert (M : forall k,
            F32.wf x = true /\ F32.val x = IZR i /\ F32.wf (y k) = true /\
            (Rabs (F32.val (y k)) <= 1048576)%R /\ y (S k) = low_pass (y k) x)
    by (intros k; exact (hold_moderate mem cs r i k Hm B0)).
  destruct (M 0%nat) as (Wx & Vx & _).
  assert (Bx : (- 1048576 <= F32.val x <= 1048576)%R).
  { rewrite Vx. split; [apply (IZR_le (-1048576) i)|apply (IZR_le i 1048576)]; lia. }
  split; [exact Vx|].
  subst y x. cbn beta in *.
  set (x := F32.of_int i) in *. set (y := fun k => ir_filt (hold d0 r i k)).
  change (forall k, F32.wf x = true /\ F32.val x = IZR i /\ F32.wf (y k) = true /\
            (Rabs (F32.val (y k)) <= 1048576)%R /\ y (S k) = low_pass (y k) x) in M.
  change ((F32.val (y 0%nat) <= F32.val x)%R ->
          forall k, (F32.val (y k) <= F32.val (y (S k)) <= F32.val x)%R) in Up.
  change ((F32.val x <= F32.val (y 0%nat))%R ->
          forall k, (F32.val x <= F32.val (y (S k)) <= F32.val (y k))%R) in Dn.
  change ((forall k, (1 <= Rabs (F32.val x - F32.val (y k)))%R ->
              (Rabs (F32.val x - F32.val (y (S k)))
               < Rabs (F32.val x - F32.val (y k)))%R) /\
          exists N : nat, forall k : nat, (N <= k)%nat ->
            (Rabs (F32.val x - F32.val (y k)) < 1)%R).
  clearbody y x.
  destruct (Rle_lt_dec (F32.val (y 0%nat)) (F32.val x)) as [Le0|Gt0].
  - specialize (Up Le0).
    assert (Pr : forall k, (1 <= F32.val x - F32.val (y k))%R ->
                 (IZR (up (8 * F32.val (y k))) / 8 <= F32.val (y (S k)))%R).
    { intros k G. destruct (M k) as (_ & _ & Wy & By & ->).
      apply low_pass_progress_up; try assumption; lra. }
    split.
    + intros k G. destruct (Up k) as [U1 U2].
      rewrite Rabs_pos_eq in G by lra. rewrite !Rabs_pos_eq by lra.
      specialize (Pr k G). destruct (archimed (8 * F32.val (y k))) as [A _]. lra.
    + destruct (climbs_within_1 (fun k => F32.val (y k)) (F32.val x) Up Pr)
        as [N HN].
      exists N. intros k Hk. specialize (HN k Hk). cbn beta in HN.
      rewrite Rabs_pos_eq; lra.
  - assert (Ge0 : (F32.val x <= F32.val (y 0%nat))%R) by lra. specialize (Dn Ge0).
    assert (Pr : forall k, (1 <= - F32.val x - - F32.val (y k))%R ->
                 (IZR (up (8 * - F32.val (y k))) / 8 <= - F32.val (y (S k)))%R).
    { intros k G. destruct (M k) as (_ & _ & Wy & By & ->).
      pose proof (low_pass_progress_down (y k) x Wy Wx By ltac:(lra) ltac:(lra)). lra. }
    split.
    + intros k G. destruct (Dn k) as [U1 U2].
      rewrite Rabs_minus_sym, Rabs_pos_eq in G by lra.
      rewrite (Rabs_minus_sym (F32.val x) (F32.val (y k))).
      rewrite (Rabs_minus_sym (F32.val x) (F32.val (y (S k)))).
      rewrite !Rabs_pos_eq by lra.
      specialize (Pr k ltac:(lra)).
      destruct (archimed (8 * - F32.val (y k))) as [A _]. lra.
    + destruct (climbs_within_1 (fun k => (- F32.val (y k))%R) (- F32.val x)%R)
        as [N HN].
      * intros k. destruct (Dn k). lra.
      * exact Pr.
      * exists N. intros k Hk. specialize (HN k Hk). cbn beta in HN.
        rewrite Rabs_minus_sym, Rabs_pos_eq; lra.
Qed.

Lemma low_pass_monotone_no_overshoot_witness :
  INT_MIN <= 100 <= INT_MAX /\
  (F32.val (ir_filt after_0_50) <= F32.val (F32.of_int 100))%R /\
  (forall k : nat,
     (F32.val (ir_filt (hold after_0_50 0 100 k))
      <= F32.val (ir_filt (hold after_0_50 0 100 (S k)))
      <= F32.val (F32.of_int 100))%R) /\
  - 1048576 <= 100 <= 1048576 /\
  (Rabs (F32.val (ir_filt after_0_50)) <= 1048576)%R /\
  exists N : nat, forall k : nat, (N <= k)%nat ->
    (Rabs (F32.val (F32.of_int 100) - F32.val (ir_filt (hold after_0_50 0 100 k))) < 1)%R.
Proof.
  assert (R : INT_MIN <= 100 <= INT_MAX) by (vm_compute; split; discriminate).
  assert (E0 : ir_filt after_0_50 = S754_finite false 10485760 (-20))
    by (vm_compute; reflexivity).
  assert (E1 : F32.of_int 100 = S754_finite false 13107200 (-17))
    by (vm_compute; reflexivity).
  assert (L : (F32.val (ir_filt after_0_50) <= F32.val (F32.of_int 100))%R)
    by (rewrite E0, E1; val_lra).
  assert (V0 : F32.val (S754_finite false 10485760 (-20)) = 10%R) by val_lra.
  assert (B : (Rabs (F32.val (ir_filt after_0_50)) <= 1048576)%R)
    by (rewrite E0, V0, Rabs_pos_eq; lra).
  split; [exact R|]. split; [exact L|].
  destruct (low_pass_monotone_no_overshoot
              (replicate BUFFER_SIZE NUL) (chars "0,50" ++ [LF]) 0 100 R)
    as (_ & _ & Up & _ & _ & Pr).
  split; [apply Up; exact L|]. split; [lia|]. split; [exact B|].
  destruct (Pr ltac:(lia) B) as (_ & _ & H). exact H.
Defined.

(** ** A long run with no newline, and the record after it *)




(** ** A line that does not hold two integers *)

(** One sample, with every operation of lines 136-181 written out. *)
Lemma process_sample_spelled (d : dsp) (r i : Z) :
  let y := F32.add (ir_filt d)
             (F32.mul alpha_filt (F32.sub (F32.of_int i) (ir_filt d))) in
  let gap := wrap_int (sample_idx d - last_peak d) in
  let acc := F32.lt (prev_ir_filt d) peak_thr && F32.ge y peak_thr
             && (refractory_n <? gap) in
  let hr := F32.div sixty (F32.div (F32.of_int gap) FS) in
  let pr := acc && (0 <=? last_peak d)
            && (F32.gt hr min_hr_bpm && F32.lt hr max_hr_bpm) in
  let h' := F32.add (hr_bpm_filt d)
              (F32.mul alpha_hr (F32.sub hr (hr_bpm_filt d))) in
  process_sample d r i =
  ({| red_raw := F32.of_int r; ir_raw := F32.of_int i; ir_filt := y;
      hr_bpm := if pr then hr else hr_bpm d;
      hr_bpm_filt := if pr then h' else hr_bpm_filt d;
      sample_idx := wrap_int (sample_idx d + 1);
      last_peak := if acc then sample_idx d else last_peak d;
      prev_peak := if acc then last_peak d else prev_peak d;
      prev_ir_filt := y; proc_val := y |},
   Print_pair r i ::
     (if acc then [Peak_accepted (sample_idx d)] else []) ++
     (if pr then [Print_hr h'] else []) ++ [Csv_write y]).
Proof. exact (process_sample_cases d r i). Qed.

(** A sample whose IR integer is 0, in a state between two samples: the
    filtered value moves toward 0 without passing it, strictly when it is
    1 or more away and at most [2^20] in size; and the sample is not a
    peak. *)
Lemma zero_sample_step (d : dsp) :
  steady d ->
  let y := F32.add (ir_filt d)
             (F32.mul alpha_filt (F32.sub (F32.of_int 0) (ir_filt d))) in
  F32.wf y = true /\
  ((0 <= F32.val (ir_filt d) -> 0 <= F32.val y <= F32.val (ir_filt d)) /\
   (F32.val (ir_filt d) <= 0 -> F32.val (ir_filt d) <= F32.val y <= 0))%R /\
  ((1 <= Rabs (F32.val (ir_filt d)) <= 1048576)%R ->
   (Rabs (F32.val y) < Rabs (F32.val (ir_filt d)))%R) /\
  F32.lt (prev_ir_filt d) peak_thr && F32.ge y peak_thr = false.
Proof.
  intros [[Wy By] E]. cbn zeta.
  change (F32.add (ir_filt d)
            (F32.mul alpha_filt (F32.sub (F32.of_int 0) (ir_filt d))))
    with (low_pass (ir_filt d) (F32.of_int 0)).
  assert (R0 : INT_MIN <= 0 <= INT_MAX) by (unfold INT_MIN, INT_MAX; lia).
  assert (V0 : F32.val (F32.of_int 0) = 0%R) by reflexivity.
  assert (W0 : F32.wf (F32.of_int 0) = true) by reflexivity.
  destruct (low_pass_in_range (ir_filt d) 0 Wy By R0) as (W' & _ & Up & Dn).
  rewrite V0 in Up, Dn.
  split; [exact W'|]. split; [split; [intros H; apply Dn; exact H
                                     |intros H; apply Up; exact H]|].
  split.
  - intros [G1 G2].
    destruct (Rle_lt_dec 0 (F32.val (ir_filt d))) as [P|P].
    + rewrite (Rabs_pos_eq (F32.val (ir_filt d))) in * by exact P.
      specialize (Dn P).
      pose proof (low_pass_progress_down (ir_filt d) (F32.of_int 0) Wy W0) as Pr.
      rewrite V0 in Pr. specialize (Pr ltac:(rewrite Rabs_pos_eq; lra)
                                       ltac:(lra) ltac:(lra)).
      destruct (archimed (8 * - F32.val (ir_filt d))) as [A _].
      rewrite Rabs_pos_eq by lra. lra.
    + rewrite (Rabs_left (F32.val (ir_filt d))) in * by exact P.
      specialize (Up ltac:(lra)).
      pose proof (low_pass_progress_up (ir_filt d) (F32.of_int 0) Wy W0) as Pr.
      rewrite V0 in Pr. specialize (Pr ltac:(rewrite Rabs_left; lra)
                                       ltac:(lra) ltac:(lra)).
      destruct (archimed (8 * F32.val (ir_filt d))) as [A _].
      destruct (Req_dec (F32.val (low_pass (ir_filt d) (F32.of_int 0))) 0) as [Z|Z].
      * rewrite Z, Rabs_R0. lra.
      * rewrite Rabs_left by lra. lra.
  - destruct (F32.lt (prev_ir_filt d) peak_thr) eqn:L; [|reflexivity].
    destruct (F32.ge (low_pass (ir_filt d) (F32.of_int 0)) peak_thr) eqn:G;
      [|reflexivity].
    exfalso. rewrite E in L.
    apply val_of_lt in L; [|exact Wy|reflexivity].
    apply ge_of_val in G; [|exact W'|reflexivity].
    rewrite val_peak_thr in L, G.
    destruct (Rle_lt_dec 0 (F32.val (ir_filt d))) as [P|P].
    + specialize (Dn P). lra.
    + specialize (Up ltac:(lra)). lra.
Qed.

(** The line that follows: a record with no NUL that fits the buffer is
    handed to [sscanf] whole once the index is back to 0. *)
Lemma next_record_after_newline (s : state) (w : list ascii) :
  length (buffer (st_buf s)) = BUFFER_SIZE -> buffer_index (st_buf s) = 0%nat ->
  Forall (fun c => c <> LF /\ c <> NUL) w -> (length w < BUFFER_SIZE)%nat ->
  exists b : line_buf,
    buffer_index b = 0%nat /\
    process_bytes s (w ++ [LF]) =
    ({| st_dsp := (process_line (st_dsp s) w).1; st_buf := b |},
     (process_line (st_dsp s) w).2).
Proof.
  intros L I C Hlen. destruct s as [d [mem idx]]. cbn [st_buf st_dsp buffer buffer_index] in *.
  subst idx.
  destruct (feed_bytes_record w mem C L Hlen) as [b F].
  destruct (feed_bytes_any_record w mem) as (mem' & rs & F' & _);
    [eapply List.Forall_impl; [|exact C]; cbn beta; tauto|exact L|].
  rewrite F in F'. injection F' as -> _.
  exists {| buffer := mem'; buffer_index := 0 |}. split; [reflexivity|].
  rewrite process_bytes_split. cbn [st_buf st_dsp]. rewrite F, run_results_pending.
  destruct (process_line d w) as [d' ev]. reflexivity.
Qed.

Lemma short_record_step (s : state) (n r i : Z) :
  sscanf_d_comma_d (current_line (st_buf s)) 0 0 = (n, r, i) -> n < 2 ->
  i = 0 /\ (n = 0 -> r = 0) /\
  let d := st_dsp s in
  let y := F32.add (ir_filt d)
             (F32.mul alpha_filt (F32.sub (F32.of_int 0) (ir_filt d))) in
  let gap := wrap_int (sample_idx d - last_peak d) in
  let acc := F32.lt (prev_ir_filt d) peak_thr && F32.ge y peak_thr
             && (refractory_n <? gap) in
  let hr := F32.div sixty (F32.div (F32.of_int gap) FS) in
  let pr := acc && (0 <=? last_peak d)
            && (F32.gt hr min_hr_bpm && F32.lt hr max_hr_bpm) in
  let h' := F32.add (hr_bpm_filt d)
              (F32.mul alpha_hr (F32.sub hr (hr_bpm_filt d))) in
  process_byte s LF =
  ({| st_dsp :=
        {| red_raw := F32.of_int r; ir_raw := F32.of_int 0; ir_filt := y;
           hr_bpm := if pr then hr else hr_bpm d;
           hr_bpm_filt := if pr then h' else hr_bpm_filt d;
           sample_idx := wrap_int (sample_idx d + 1);
           last_peak := if acc then sample_idx d else last_peak d;
           prev_peak := if acc then last_peak d else prev_peak d;
           prev_ir_filt := y; proc_val := y |};
      st_buf :=
        {| buffer := <[buffer_index (st_buf s) := NUL]> (buffer (st_buf s));
           buffer_index := 0 |} |},
   Print_pair r 0 ::
     (if acc then [Peak_accepted (sample_idx d)] else []) ++
     (if pr then [Print_hr h'] else []) ++ [Csv_write y]) /\
  (steady d ->
   F32.wf y = true /\
   ((0 <= F32.val (ir_filt d) -> 0 <= F32.val y <= F32.val (ir_filt d)) /\
    (F32.val (ir_filt d) <= 0 -> F32.val (ir_filt d) <= F32.val y <= 0))%R /\
   ((1 <= Rabs (F32.val (ir_filt d)) <= 1048576)%R ->
    (Rabs (F32.val y) < Rabs (F32.val (ir_filt d)))%R) /\
   acc = false /\ pr = false /\
   (process_byte s LF).2 = [Print_pair r 0; Csv_write y] /\
   last_peak (st_dsp (process_byte s LF).1) = last_peak d /\
   hr_bpm_filt (st_dsp (process_byte s LF).1) = hr_bpm_filt d).
Proof.
  intros E Hn. destruct (sscanf_short _ _ _ _ E Hn) as [Hi Hr]. subst i.
  split; [reflexivity|]. split; [exact Hr|]. cbn zeta.
  rewrite process_byte_LF. unfold process_line. rewrite E.
  rewrite (process_sample_spelled (st_dsp s) r 0). cbn zeta.
  split; [reflexivity|].
  intros St. destruct (zero_sample_step (st_dsp s) St) as (W & B & P & A).
  cbn zeta in W, B, P, A.
  split; [exact W|]. split; [exact B|]. split; [exact P|].
  rewrite A. cbn [andb app fst snd st_dsp last_peak hr_bpm_filt].
  repeat split; reflexivity.
Qed.

(** C9. When [sscanf] assigns fewer than two items, the missing ones keep the
    0 they were given before the call ([ir_int] always, [red_int] as well
    when nothing was read), and the line is still a full sample, processed
    as the pair [r], 0.  The filter is stepped with an IR value of 0: the
    new filtered value is [ir_filt + alpha_filt * (0 - ir_filt)] in
    binary32; between two samples it lies between 0 and the old value, and
    is strictly nearer to 0 when the old value is 1 or more away from 0 (and
    at most [2^20] in size).  The peak detector runs on the result with its
    threshold, refractory and plausibility tests; between two samples an IR
    value of 0 cannot be a crossing, so no peak is accepted and no rate is
    printed.  The pair is echoed, the filtered value is written to the file,
    [prev_ir_filt] and [proc_val] take it, and [sample_idx] goes up by
    one. *)
Theorem short_record_is_a_sample (s : state) (n r i : Z) :
  sscanf_d_comma_d (current_line (st_buf s)) 0 0 = (n, r, i) -> n < 2 ->
  i = 0 /\ (n = 0 -> r = 0) /\
  let d := st_dsp s in
  let y := F32.add (ir_filt d)
             (F32.mul alpha_filt (F32.sub (F32.of_int 0) (ir_filt d))) in
  let gap := wrap_int (sample_idx d - last_peak d) in
  let acc := F32.lt (prev_ir_filt d) peak_thr && F32.ge y peak_thr
             && (refractory_n <? gap) in
  let hr := F32.div sixty (F32.div (F32.of_int gap) FS) in
  let pr := acc && (0 <=? last_peak d)
            && (F32.gt hr min_hr_bpm && F32.lt hr max_hr_bpm) in
  let h' := F32.add (hr_bpm_filt d)
              (F32.mul alpha_hr (F32.sub hr (hr_bpm_filt d))) in
  process_byte s LF =
  ({| st_dsp :=
        {| red_raw := F32.of_int r; ir_raw := F32.of_int 0; ir_filt := y;
           hr_bpm := if pr then hr else hr_bpm d;
           hr_bpm_filt := if pr then h' else hr_bpm_filt d;
           sample_idx := wrap_int (sample_idx d + 1);
           last_peak := if acc then sample_idx d else last_peak d;
           prev_peak := if acc then last_peak d else prev_peak d;
           prev_ir_filt := y; proc_val := y |};
      st_buf :=
        {| buffer := <[buffer_index (st_buf s) := NUL]> (buffer (st_buf s));
           buffer_index := 0 |} |},
   Print_pair r 0 ::
     (if acc then [Peak_accepted (sample_idx d)] else []) ++
     (if pr then [Print_hr h'] else []) ++ [Csv_write y]) /\
  (let '(s', ev) := process_byte s LF in
   let d' := st_dsp s' in
   (d', ev) = process_sample d r 0 /\
   d' = end_sample (detect_peak (load_sample d r 0)).1 /\
   red_raw d' = F32.of_int r /\ ir_raw d' = F32.of_int 0 /\
   ir_filt d' = y /\ prev_ir_filt d' = y /\ proc_val d' = y /\
   csv_of ev = [y] /\ pairs_of ev = [(r, 0)] /\
   sample_idx d' = wrap_int (sample_idx d + 1)) /\
  (steady d ->
   F32.wf y = true /\
   ((0 <= F32.val (ir_filt d) -> 0 <= F32.val y <= F32.val (ir_filt d)) /\
    (F32.val (ir_filt d) <= 0 -> F32.val (ir_filt d) <= F32.val y <= 0))%R /\
   ((1 <= Rabs (F32.val (ir_filt d)) <= 1048576)%R ->
    (Rabs (F32.val y) < Rabs (F32.val (ir_filt d)))%R) /\
   acc = false /\ pr = false /\
   (process_byte s LF).2 = [Print_pair r 0; Csv_write y] /\
   last_peak (st_dsp (process_byte s LF).1) = last_peak d /\
   hr_bpm_filt (st_dsp (process_byte s LF).1) = hr_bpm_filt d) /\
  (forall mem cs : list ascii,
     steady (st_dsp (process_bytes (init_state mem) cs).1)).
Proof.
  intros E Hn.
  destruct (short_record_step s n r i E Hn) as (Hi & Hr & C & St).
  cbn zeta in C, St.
  split; [exact Hi|]. split; [exact Hr|]. cbn zeta.
  split; [exact C|].
  split; [|split; [exact St|intros mem cs; apply reachable_steady]].
  pose proof (short_record_facts s n r i E Hn) as (_ & _ & F).
  rewrite C in F |- *. cbn [st_dsp] in F |- *.
  destruct F as (F1 & F2 & _).
  cbn [red_raw ir_raw ir_filt prev_ir_filt proc_val sample_idx].
  split; [exact F1|]. split; [exact F2|].
  repeat (split; [reflexivity|]).
  split; [|split; [|reflexivity]].
  - destruct (_ && _ && (_ <? _)); cbn [andb]; [destruct (_ && _)|]; reflexivity.
  - destruct (_ && _ && (_ <? _)); cbn [andb]; [destruct (_ && _)|]; reflexivity.
Qed.

Lemma short_record_is_a_sample_witness :
  sscanf_d_comma_d (current_line (st_buf before_abc_def)) 0 0 = (0, 0, 0) /\
  0 < 2 /\
  ir_filt (st_dsp before_abc_def) = F32.of_int 10 /\
  (process_byte before_abc_def LF).2 = [Print_pair 0 0; Csv_write (F32.of_int 8)] /\
  sample_idx (st_dsp (process_byte before_abc_def LF).1) = 2.
Proof.
  assert (E : sscanf_d_comma_d (current_line (st_buf before_abc_def)) 0 0 = (0, 0, 0))
    by (vm_compute; reflexivity).
  split; [exact E|]. split; [lia|]. split; [vm_compute; reflexivity|].
  destruct (short_record_is_a_sample before_abc_def 0 0 0 E ltac:(lia))
    as (_ & _ & C & _).
  cbn zeta in C. rewrite C. cbn [fst snd st_dsp sample_idx].
  split; vm_compute; reflexivity.
Defined.

(** C1, as the code has it.  A line from which two integers cannot be read
    is not skipped: it is one more sample.  The integers that were not read
    stay 0 ([ir_int] always, [red_int] too when nothing was read) and the
    pair is echoed; the filter is stepped with an IR value of 0, from
    [ir_filt] to [ir_filt + alpha_filt * (0 - ir_filt)] in binary32
    (between two samples: a value between 0 and the old one, strictly
    nearer to 0 when the old one is 1 or more away and at most [2^20] in
    size), and [prev_ir_filt] follows it; the detector runs and, between two
    samples, accepts no peak on it; exactly one value, the filtered IR, is
    written to the file; [sample_idx] advances by one; the buffer index is
    back to 0, and the record that comes next is handed to [sscanf] whole. *)
Theorem malformed_record_is_processed (s : state) :
  items (current_line (st_buf s)) < 2 ->
  exists n r : Z,
  sscanf_d_comma_d (current_line (st_buf s)) 0 0 = (n, r, 0) /\
  n = items (current_line (st_buf s)) /\ (n = 0 -> r = 0) /\
  let d := st_dsp s in
  let y := F32.add (ir_filt d)
             (F32.mul alpha_filt (F32.sub (F32.of_int 0) (ir_filt d))) in
  let gap := wrap_int (sample_idx d - last_peak d) in
  let acc := F32.lt (prev_ir_filt d) peak_thr && F32.ge y peak_thr
             && (refractory_n <? gap) in
  let hr := F32.div sixty (F32.div (F32.of_int gap) FS) in
  let pr := acc && (0 <=? last_peak d)
            && (F32.gt hr min_hr_bpm && F32.lt hr max_hr_bpm) in
  let h' := F32.add (hr_bpm_filt d)
              (F32.mul alpha_hr (F32.sub hr (hr_bpm_filt d))) in
  process_byte s LF =
  ({| st_dsp :=
        {| red_raw := F32.of_int r; ir_raw := F32.of_int 0; ir_filt := y;
           hr_bpm := if pr then hr else hr_bpm d;
           hr_bpm_filt := if pr then h' else hr_bpm_filt d;
           sample_idx := wrap_int (sample_idx d + 1);
           last_peak := if acc then sample_idx d else last_peak d;
           prev_peak := if acc then last_peak d else prev_peak d;
           prev_ir_filt := y; proc_val := y |};
      st_buf :=
        {| buffer := <[buffer_index (st_buf s) := NUL]> (buffer (st_buf s));
           buffer_index := 0 |} |},
   Print_pair r 0 ::
     (if acc then [Peak_accepted (sample_idx d)] else []) ++
     (if pr then [Print_hr h'] else []) ++ [Csv_write y]) /\
  csv_of (process_byte s LF).2 = [y] /\
  pairs_of (process_byte s LF).2 = [(r, 0)] /\
  ir_filt (st_dsp (process_byte s LF).1) = y /\
  prev_ir_filt (st_dsp (process_byte s LF).1) = y /\
  sample_idx (st_dsp (process_byte s LF).1) = wrap_int (sample_idx d + 1) /\
  buffer_index (st_buf (process_byte s LF).1) = 0%nat /\
  (steady d ->
   F32.wf y = true /\
   ((0 <= F32.val (ir_filt d) -> 0 <= F32.val y <= F32.val (ir_filt d)) /\
    (F32.val (ir_filt d) <= 0 -> F32.val (ir_filt d) <= F32.val y <= 0))%R /\
   ((1 <= Rabs (F32.val (ir_filt d)) <= 1048576)%R ->
    (Rabs (F32.val y) < Rabs (F32.val (ir_filt d)))%R) /\
   acc = false /\ pr = false /\
   (process_byte s LF).2 = [Print_pair r 0; Csv_write y] /\
   last_peak (st_dsp (process_byte s LF).1) = last_peak d /\
   hr_bpm_filt (st_dsp (process_byte s LF).1) = hr_bpm_filt d) /\
  (length (buffer (st_buf s)) = BUFFER_SIZE ->
   forall w : list ascii,
     Forall (fun c => c <> LF /\ c <> NUL) w -> (length w < BUFFER_SIZE)%nat ->
     let s' := (process_byte s LF).1 in
     exists b : line_buf,
       buffer_index b = 0%nat /\
       process_bytes s' (w ++ [LF]) =
       ({| st_dsp := (process_line (st_dsp s') w).1; st_buf := b |},
        (process_line (st_dsp s') w).2)) /\
  (forall mem cs : list ascii,
     steady (st_dsp (process_bytes (init_state mem) cs).1)).
Proof.
  unfold items. intros Hn.
  destruct (sscanf_d_comma_d (current_line (st_buf s)) 0 0) as [[n r] i] eqn:E.
  cbn [fst] in Hn.
  destruct (short_record_step s n r i E Hn) as (Hi & Hr & C & St). subst i.
  cbn zeta in C, St.
  exists n, r. split; [reflexivity|]. split; [reflexivity|]. split; [exact Hr|].
  cbn zeta. split; [exact C|].
  rewrite C in St |- *. cbn [fst snd st_dsp st_buf buffer_index] in St |- *.
  cbn [ir_filt prev_ir_filt sample_idx].
  split; [|split].
  - destruct (_ && _ && (_ <? _)); cbn [andb]; [destruct (_ && _)|]; reflexivity.
  - destruct (_ && _ && (_ <? _)); cbn [andb]; [destruct (_ && _)|]; reflexivity.
  - repeat (split; [reflexivity|]). split; [exact St|].
    split; [|intros mem cs; apply reachable_steady].
    intros L w Cw Hlen. cbn zeta.
    apply next_record_after_newline; try assumption.
    + cbn [st_buf buffer]. rewrite length_insert. exact L.
    + reflexivity.
Qed.

Lemma malformed_record_is_processed_witness :
  items (current_line (st_buf before_abc_def)) < 2 /\
  current_line (st_buf before_abc_def) = chars "abc,def" /\
  ir_filt (st_dsp before_abc_def) = F32.of_int 10 /\
  exists r : Z,
    r = 0 /\
    (process_byte before_abc_def LF).2 = [Print_pair r 0; Csv_write (F32.of_int 8)].
Proof.
  assert (L : items (current_line (st_buf before_abc_def)) < 2)
    by (vm_compute; reflexivity).
  split; [exact L|]. split; [vm_compute; reflexivity|].
  split; [vm_compute; reflexivity|].
  destruct (malformed_record_is_processed before_abc_def L)
    as (n & r & _ & N & R0 & C & _).
  exists r.
  assert (Z0 : r = 0) by (apply R0; rewrite N; vm_compute; reflexivity).
  split; [exact Z0|]. cbn zeta in C. rewrite C. subst r. cbn [snd].
  vm_compute. reflexivity.
Defined.
